(** * earth2: tile grid and quadtree subdivision

    A shallow embedding of [src/tileGrid.ts] (grid and quadrant math) and of
    [removeOrSplitTileAt] from the globe front-end, together with the
    properties the specification states about them.

    Numbers.  The TypeScript code computes with [number].  Coordinates,
    steps and margins are embedded as exact rationals [Q] (compared with
    [==]), and row, column and count values, which the code only ever
    produces with [Math.floor] or receives as grid counts, as integers [Z].
    The theorems below are therefore statements about the arithmetic the
    code performs, read exactly; the rounding of binary64 is not part of the
    model. *)

From Stdlib Require Import ZArith QArith Qround Qminmax Qpower Lqa Lia.
From Stdlib Require Import String Ascii List DecimalString DecimalZ.
From stdpp Require Import gmap strings.

Local Open Scope Q_scope.

(** String concatenation is left free to compute under [simpl]. *)
#[local] Arguments String.append !s1 s2 : simpl nomatch.

(** ** Data model of [tileGrid.ts] *)

Record TileId := mkTileId { row : Z; col : Z }.

Record TileGridConfig := mkConfig { latCount : Z; lonCount : Z }.

Definition DEFAULT_GRID_CONFIG : TileGridConfig :=
  {| latCount := 36; lonCount := 72 |}.

Record Bounds := mkBounds { west : Q; south : Q; east : Q; north : Q }.

(** Two rectangles are the same when their four coordinates are equal as
    rationals. *)
Definition Bounds_eq (a b : Bounds) : Prop :=
  west a == west b /\ south a == south b /\
  east a == east b /\ north a == north b.

Infix "=b=" := Bounds_eq (at level 70, no associativity).

(** [x > y] on numbers, as a boolean. *)
Definition Qgtb (x y : Q) : bool := negb (Qle_bool x y).

(** [x >= y] on numbers, as a boolean. *)
Definition Qgeb (x y : Q) : bool := Qle_bool y x.

(** ** [tileBounds] *)

Definition tileBounds (row col : Z) (config : TileGridConfig)
    (gapFraction : Q) : Bounds :=
  let latStep := 180 / inject_Z (latCount config) in
  let lonStep := 360 / inject_Z (lonCount config) in
  let south0 := -90 + inject_Z row * latStep in
  let north0 := south0 + latStep in
  let west0 := -180 + inject_Z col * lonStep in
  let east0 := west0 + lonStep in
  if Qgtb gapFraction 0 then
    let marginLon := lonStep * gapFraction in
    let marginLat := latStep * gapFraction in
    {| west := west0 + marginLon / 2;
       south := south0 + marginLat / 2;
       east := east0 - marginLon / 2;
       north := north0 - marginLat / 2 |}
  else
    {| west := west0; south := south0; east := east0; north := north0 |}.

(** ** [insetBounds] *)

Definition insetBounds (bounds : Bounds) (gapFraction : Q) : Bounds :=
  let w := east bounds - west bounds in
  let h := north bounds - south bounds in
  let marginLon := w * (gapFraction / 2) in
  let marginLat := h * (gapFraction / 2) in
  {| west := west bounds + marginLon;
     south := south bounds + marginLat;
     east := east bounds - marginLon;
     north := north bounds - marginLat |}.

(** ** [quadrantBounds]

    The quadrant is a number; the [switch] has the four cases 0..3 and no
    default, so any other number falls through and the function returns
    [undefined], which is [None] here. *)

Definition quadrantBounds (bounds : Bounds) (quadrant : Z) : option Bounds :=
  let midLon := (west bounds + east bounds) / 2 in
  let midLat := (south bounds + north bounds) / 2 in
  match quadrant with
  | 0%Z => Some {| west := west bounds; south := south bounds;
                   east := midLon; north := midLat |}
  | 1%Z => Some {| west := midLon; south := south bounds;
                   east := east bounds; north := midLat |}
  | 2%Z => Some {| west := west bounds; south := midLat;
                   east := midLon; north := north bounds |}
  | 3%Z => Some {| west := midLon; south := midLat;
                   east := east bounds; north := north bounds |}
  | _ => None
  end.

(** ** [quadrantAt] *)

Definition quadrantAt (lat lon : Q) (bounds : Bounds) : Z :=
  let midLon := (west bounds + east bounds) / 2 in
  let midLat := (south bounds + north bounds) / 2 in
  let north := if Qgeb lat midLat then 1%Z else 0%Z in
  let east := if Qgeb lon midLon then 1%Z else 0%Z in
  Z.lor (Z.shiftl north 1) east.

(** ** [latLonToTile] *)

Definition latLonToTile (lat lon : Q) (config : TileGridConfig) : TileId :=
  let latStep := 180 / inject_Z (latCount config) in
  let lonStep := 360 / inject_Z (lonCount config) in
  let row := Z.min (Qfloor ((lat + 90) / latStep)) (latCount config - 1) in
  let col := Z.min (Qfloor ((lon + 180) / lonStep)) (lonCount config - 1) in
  {| row := Z.max 0 row; col := Z.max 0 col |}.

(** ** Geometry vocabulary used by the statements *)

(** The point lies in the rectangle or on its boundary. *)
Definition contains (b : Bounds) (lat lon : Q) : Prop :=
  west b <= lon /\ lon <= east b /\ south b <= lat /\ lat <= north b.

(** The point lies in the open interior of the rectangle. *)
Definition interior (b : Bounds) (lat lon : Q) : Prop :=
  west b < lon /\ lon < east b /\ south b < lat /\ lat < north b.

(** [west < east] and [south < north]. *)
Definition nondegenerate (b : Bounds) : Prop :=
  west b < east b /\ south b < north b.

Definition centerLon (b : Bounds) : Q := (west b + east b) / 2.
Definition centerLat (b : Bounds) : Q := (south b + north b) / 2.

(** The whole globe, [-90, 90] x [-180, 180]. *)
Definition globe : Bounds :=
  {| west := -180; south := -90; east := 180; north := 90 |}.

(** ** Identifiers: [tileIdToString] and [parseTileId] *)

(** A template literal [${n}] of an integer value: its decimal digits, with a
    minus sign in front of a negative one.  (JavaScript writes integers this
    way below 10^21; rows, columns and quadrants are far below.) *)
Definition numberToString (n : Z) : string :=
  NilZero.string_of_int (Z.to_int n).

Definition tileIdToString (tile : TileId) : string :=
  "tile_" +:+ numberToString (row tile) +:+ "_" +:+ numberToString (col tile).

(** The class [\d]: the characters [0] to [9]. *)
Definition isDigit (c : ascii) : bool :=
  (48 <=? nat_of_ascii c)%nat && (nat_of_ascii c <=? 57)%nat.

(** The longest run of digits a string starts with, and what follows it:
    what a greedy [\d+] or [\d*] takes when the pattern goes on with a
    character that is not a digit. *)
Fixpoint spanDigits (s : string) : string * string :=
  match s with
  | EmptyString => (EmptyString, EmptyString)
  | String c rest =>
      if isDigit c then
        let (ds, tl) := spanDigits rest in (String c ds, tl)
      else (EmptyString, s)
  end.

(** What remains of [s] after the literal [p], when [s] starts with it. *)
Fixpoint stripPrefix (p s : string) : option string :=
  match p, s with
  | EmptyString, _ => Some s
  | String a p', String b s' =>
      if Ascii.eqb a b then stripPrefix p' s' else None
  | String _ _, EmptyString => None
  end.

(** [id.match(/^tile_(\d+)_(\d+)$/)]: the two captured groups, or [None]
    for [null].  After [tile_] the first group takes the whole run of
    digits, for a shorter one would leave a digit where [_] is due; the
    same holds for the second group and the end of the string. *)
Definition matchTileId (id : string) : option (string * string) :=
  match stripPrefix "tile_" id with
  | None => None
  | Some s1 =>
      let (g1, s2) := spanDigits s1 in
      match g1, s2 with
      | String _ _, String "_" s3 =>
          let (g2, s4) := spanDigits s3 in
          match g2, s4 with
          | String _ _, EmptyString => Some (g1, g2)
          | _, _ => None
          end
      | _, _ => None
      end
  end.

Definition digitValue (c : ascii) : Z := Z.of_nat (nat_of_ascii c) - 48.

(** The digits of [s] read from the left onto the value [acc], up to the
    first character that is not a digit. *)
Fixpoint parseDigits (s : string) (acc : Z) : Z :=
  match s with
  | EmptyString => acc
  | String c rest =>
      if isDigit c then parseDigits rest (10 * acc + digitValue c) else acc
  end.

(** [parseInt(s, 10)] on a string that starts with a digit, which is all
    [parseTileId] passes to it; [None] stands for [NaN]. *)
Definition parseInt (s : string) : option Z :=
  match s with
  | String c _ => if isDigit c then Some (parseDigits s 0) else None
  | EmptyString => None
  end.

Definition parseTileId (id : string) : option TileId :=
  match matchTileId id with
  | None => None
  | Some (g1, g2) =>
      match parseInt g1, parseInt g2 with
      | Some r, Some c => Some {| row := r; col := c |}
      | _, _ => None
      end
  end.

(** Every character of the string is a digit. *)
Definition allDigits (s : string) : Prop :=
  Forall (fun c => isDigit c = true) (list_ascii_of_string s).

(** A string of one or more digits: what [\d+] matches. *)
Definition digitString (s : string) : Prop :=
  s <> EmptyString /\ allDigits s.

(** A string that is empty or starts with a character that is not a
    digit: where a run of digits stops. *)
Definition digitStop (s : string) : Prop :=
  match s with
  | EmptyString => True
  | String c _ => isDigit c = false
  end.

(** ** The entity registry

    [viewer.entities] is an entity collection of the globe library: a
    registry keyed by identifier with add, remove, lookup by identifier and
    iteration over all entities.  An entity carries its rectangle, in
    degrees, and its [show] flag.  Adding an entity whose identifier is
    already in the collection throws; a function that can throw returns
    [None] when it does. *)

Record Entity := mkEntity { rectangle : Bounds; show : bool }.

Abbreviation EntityCollection := (gmap string Entity).

Definition getById (id : string) (es : EntityCollection) : option Entity :=
  es !! id.

Definition add (id : string) (e : Entity) (es : EntityCollection)
    : option EntityCollection :=
  match es !! id with
  | Some _ => None
  | None => Some (<[id := e]> es)
  end.

Definition remove (id : string) (es : EntityCollection) : EntityCollection :=
  delete id es.

(** [viewer.entities.values]: the entities, each with its identifier. *)
Definition values (es : EntityCollection) : list (string * Entity) :=
  map_to_list es.

(** ** The subdivision controller

    The front-ends differ in three constants only. *)

Record FrontEnd := mkFrontEnd {
  gridConfig : TileGridConfig;
  TILE_GAP : Q;
  SPLIT_DEPTH : nat
}.

(** The front-end that follows the device location: 18 x 36 tiles, a 3%
    margin, 15 levels. *)
Definition followFrontEnd : FrontEnd :=
  {| gridConfig := {| latCount := 18; lonCount := 36 |};
     TILE_GAP := 3 # 100;
     SPLIT_DEPTH := 15 |}.

(** The two click front-ends: the default 36 x 72 grid, an 8% margin, 10
    levels. *)
Definition clickFrontEnd : FrontEnd :=
  {| gridConfig := DEFAULT_GRID_CONFIG;
     TILE_GAP := 8 # 100;
     SPLIT_DEPTH := 10 |}.

Definition gapForDepth (fe : FrontEnd) (depth : nat) : Q :=
  Qmax (1 # 100) (TILE_GAP fe * Qpower (1 # 2) (Z.of_nat depth)).

Definition addTileEntity (id : string) (west south east north : Q)
    (es : EntityCollection) : option EntityCollection :=
  add id {| rectangle := {| west := west; south := south;
                            east := east; north := north |};
            show := true |} es.

(** The rows, or columns, a start-up loop [for (i = 0; i < n; i++)] visits. *)
Definition indices (n : Z) : list Z := map Z.of_nat (seq 0 (Z.to_nat n)).

(** The two nested loops that show every tile of the grid at start-up. *)
Definition addRow (fe : FrontEnd) (r : Z) (es : EntityCollection)
    : option EntityCollection :=
  foldl (fun acc c =>
           es' ← acc;
           let bounds := tileBounds r c (gridConfig fe) (TILE_GAP fe) in
           add (tileIdToString {| row := r; col := c |})
               {| rectangle := bounds; show := true |} es')
        (Some es) (indices (lonCount (gridConfig fe))).

Definition initialEntities (fe : FrontEnd) : option EntityCollection :=
  foldl (fun acc r => es ← acc; addRow fe r es)
        (Some ∅) (indices (latCount (gridConfig fe))).

(** [path.join("_")] *)
Definition joinPath (path : list Z) : string :=
  String.concat "_" (map numberToString path).

(** The identifier of a sub-tile in the first loop: [baseId_q] while the
    path is empty, [baseId_path_q] afterwards. *)
Definition freshSubId (baseId : string) (path : list Z) (q : Z) : string :=
  match path with
  | [] => baseId +:+ "_" +:+ numberToString q
  | _ :: _ =>
      baseId +:+ "_" +:+ joinPath path +:+ "_" +:+ numberToString q
  end.

(** The identifier of a sub-tile in the second loop: [baseId_path_qq]. *)
Definition subId (baseId : string) (path : list Z) (qq : Z) : string :=
  baseId +:+ "_" +:+ joinPath path +:+ "_" +:+ numberToString qq.

(** The identifier looked up while walking down: [baseId_path]. *)
Definition pathId (baseId : string) (path : list Z) : string :=
  baseId +:+ "_" +:+ joinPath path.

(** The inner loop over the quadrants [qs]: every quadrant but the hole gets
    an entity, its bounds inset by [gap]. *)
Fixpoint addQuadrants (qs : list Z) (holeQ : Z) (bounds : Bounds) (gap : Q)
    (mkId : Z -> string) (es : EntityCollection) : option EntityCollection :=
  match qs with
  | [] => Some es
  | q :: qs' =>
      if (q =? holeQ)%Z then addQuadrants qs' holeQ bounds gap mkId es
      else
        b ← quadrantBounds bounds q;
        let b' := insetBounds b gap in
        es' ← addTileEntity (mkId q) (west b') (south b') (east b') (north b') es;
        addQuadrants qs' holeQ bounds gap mkId es'
  end.

(** The loop of the first branch, [n] levels from [level] on. *)
Fixpoint splitLevels (fe : FrontEnd) (n level : nat) (lat lon : Q)
    (baseId : string) (bounds : Bounds) (path : list Z)
    (es : EntityCollection) : option EntityCollection :=
  match n with
  | O => Some es
  | S n' =>
      let holeQ := quadrantAt lat lon bounds in
      es' ← addQuadrants [0; 1; 2; 3]%Z holeQ bounds (gapForDepth fe level)
              (freshSubId baseId path) es;
      bounds' ← quadrantBounds bounds holeQ;
      splitLevels fe n' (S level) lat lon baseId bounds' (path ++ [holeQ]) es'
  end.

(** The loop that splits a leaf again, [n] levels from [d] on. *)
Fixpoint resplitLevels (fe : FrontEnd) (n d currentDepth : nat) (lat lon : Q)
    (baseId : string) (bounds : Bounds) (path : list Z)
    (es : EntityCollection) : option EntityCollection :=
  match n with
  | O => Some es
  | S n' =>
      let holeQ := quadrantAt lat lon bounds in
      let depth := (currentDepth + d)%nat in
      es' ← addQuadrants [0; 1; 2; 3]%Z holeQ bounds (gapForDepth fe depth)
              (subId baseId path) es;
      bounds' ← quadrantBounds bounds holeQ;
      resplitLevels fe n' (S d) currentDepth lat lon baseId bounds'
                    (path ++ [holeQ]) es'
  end.

(** The prefix scan: every entity whose identifier starts with [prefix] is
    collected, then each is removed. *)
Definition removeByPrefix (prefix : string) (es : EntityCollection)
    : EntityCollection :=
  let toRemove :=
    List.filter (fun e => String.prefix prefix (fst e)) (values es) in
  foldl (fun acc e => remove (fst e) acc) es toRemove.

(** The loop of the second branch: walk down, [n] levels to go, until a
    visible entity is found, and split that one again. *)
Fixpoint findAndSplit (fe : FrontEnd) (n : nat) (lat lon : Q)
    (baseId : string) (bounds : Bounds) (path : list Z)
    (es : EntityCollection) : option EntityCollection :=
  match n with
  | O => Some es
  | S n' =>
      let q := quadrantAt lat lon bounds in
      let path' := path ++ [q] in
      let id := pathId baseId path' in
      let visible :=
        match getById id es with
        | Some entity => show entity
        | None => false
        end in
      if visible then
        let currentDepth := length path' in
        let remainingDepth := (SPLIT_DEPTH fe - currentDepth)%nat in
        tileBounds' ← quadrantBounds bounds q;
        let prefix := id +:+ "_" in
        let es1 := remove id es in
        let es2 := removeByPrefix prefix es1 in
        resplitLevels fe remainingDepth 0 currentDepth lat lon baseId
                      tileBounds' path' es2
      else
        bounds' ← quadrantBounds bounds q;
        findAndSplit fe n' lat lon baseId bounds' path' es
  end.

Definition removeOrSplitTileAt (fe : FrontEnd) (lat lon : Q)
    (es : EntityCollection) : option EntityCollection :=
  let tile := latLonToTile lat lon (gridConfig fe) in
  let baseId := tileIdToString tile in
  let baseBoundsFull := tileBounds (row tile) (col tile) (gridConfig fe) 0 in
  let visible :=
    match getById baseId es with
    | Some baseEntity => show baseEntity
    | None => false
    end in
  if visible then
    let es1 := remove baseId es in
    splitLevels fe (SPLIT_DEPTH fe) 0 lat lon baseId baseBoundsFull [] es1
  else
    findAndSplit fe (SPLIT_DEPTH fe) lat lon baseId baseBoundsFull [] es.

(** The registries the front-end can be in: the one after start-up, and any
    that a call of [removeOrSplitTileAt] that does not throw leaves. *)
Inductive reachable (fe : FrontEnd) : EntityCollection -> Prop :=
| reachable_start (es : EntityCollection) :
    initialEntities fe = Some es -> reachable fe es
| reachable_call (es es' : EntityCollection) (lat lon : Q) :
    reachable fe es ->
    removeOrSplitTileAt fe lat lon es = Some es' ->
    reachable fe es'.

(** ** Vocabulary for the implicit tree *)

(** A quadrant index. *)
Definition okQuadrant (q : Z) : Prop := (0 <= q <= 3)%Z.

(** [_q0_q1_...]: what a path adds to the identifier of its tile. *)
Fixpoint pathSuffix (path : list Z) : string :=
  match path with
  | [] => EmptyString
  | q :: rest => "_" +:+ numberToString q +:+ pathSuffix rest
  end.

(** The identifier of the node reached from [baseId] along [path]; the
    three templates of the controller all spell this string. *)
Definition nodeId (baseId : string) (path : list Z) : string :=
  baseId +:+ pathSuffix path.

(** The node of tile [(r, c)] at [path]. *)
Definition tileNode (r c : Z) (path : list Z) : string :=
  nodeId (tileIdToString {| row := r; col := c |}) path.

(** The region reached from [b] by taking the quadrants of [path] in turn. *)
Fixpoint cellOf (b : Bounds) (path : list Z) : option Bounds :=
  match path with
  | [] => Some b
  | q :: rest => b' ← quadrantBounds b q; cellOf b' rest
  end.

(** The first [n] holes of the point [(lat, lon)] in [b]: at each level the
    quadrant the point is in. *)
Fixpoint holePath (n : nat) (lat lon : Q) (b : Bounds) : list Z :=
  match n with
  | O => []
  | S n' =>
      let q := quadrantAt lat lon b in
      q :: match quadrantBounds b q with
           | Some b' => holePath n' lat lon b'
           | None => []
           end
  end.

(** [path] follows the holes of the point from [b] on. *)
Fixpoint onChain (lat lon : Q) (b : Bounds) (path : list Z) : Prop :=
  match path with
  | [] => True
  | q :: rest =>
      q = quadrantAt lat lon b /\
      exists b', quadrantBounds b q = Some b' /\ onChain lat lon b' rest
  end.

(** The tile is in the grid of the front-end. *)
Definition inGrid (fe : FrontEnd) (r c : Z) : Prop :=
  (0 <= r < latCount (gridConfig fe))%Z /\
  (0 <= c < lonCount (gridConfig fe))%Z.

(** The counts and the margin of a front-end are positive. *)
Definition goodFrontEnd (fe : FrontEnd) : Prop :=
  (0 < latCount (gridConfig fe))%Z /\ (0 < lonCount (gridConfig fe))%Z /\
  0 < TILE_GAP fe.

(** The two level loops of the controller are one loop: [n] levels from
    [depth] on, every sub-tile named by [nodeId]. *)
Fixpoint drill (gap : nat -> Q) (n depth : nat) (lat lon : Q)
    (baseId : string) (bounds : Bounds) (path : list Z)
    (es : EntityCollection) : option EntityCollection :=
  match n with
  | O => Some es
  | S n' =>
      let holeQ := quadrantAt lat lon bounds in
      es' ← addQuadrants [0; 1; 2; 3]%Z holeQ bounds (gap depth)
              (fun q => nodeId baseId (path ++ [q])) es;
      bounds' ← quadrantBounds bounds holeQ;
      drill gap n' (S depth) lat lon baseId bounds' (path ++ [holeQ]) es'
  end.

(** The entities that loop creates: at each level one for every quadrant
    but the hole, then the same inside the hole. *)
Inductive created (gap : nat -> Q) (lat lon : Q) (baseId : string) :
    nat -> nat -> Bounds -> list Z -> string -> Entity -> Prop :=
| created_here (n depth : nat) (b : Bounds) (path : list Z) (q : Z)
    (qb : Bounds) :
    okQuadrant q -> q <> quadrantAt lat lon b ->
    quadrantBounds b q = Some qb ->
    created gap lat lon baseId (S n) depth b path
      (nodeId baseId (path ++ [q]))
      {| rectangle := insetBounds qb (gap depth); show := true |}
| created_below (n depth : nat) (b b' : Bounds) (path : list Z)
    (id : string) (e : Entity) :
    quadrantBounds b (quadrantAt lat lon b) = Some b' ->
    created gap lat lon baseId n (S depth) b'
      (path ++ [quadrantAt lat lon b]) id e ->
    created gap lat lon baseId (S n) depth b path id e.

(** No node below [path] is in the registry. *)
Definition freshBelow (es : EntityCollection) (baseId : string)
    (path : list Z) : Prop :=
  forall p : list Z, Forall okQuadrant p -> p <> [] ->
    es !! nodeId baseId (path ++ p) = None.

(** ** The invariant of the registry *)

(** A path of quadrants no longer than the maximum depth. *)
Definition validPath (fe : FrontEnd) (path : list Z) : Prop :=
  Forall okQuadrant path /\ (length path <= SPLIT_DEPTH fe)%nat.

(** The entity is shown, its identifier is that of a node of a tile of the
    grid, and its rectangle lies in the interior of the cell of that node. *)
Definition wellPlaced (fe : FrontEnd) (id : string) (e : Entity) : Prop :=
  show e = true /\
  exists (r c : Z) (path : list Z) (cell : Bounds),
    inGrid fe r c /\ validPath fe path /\ id = tileNode r c path /\
    cellOf (tileBounds r c (gridConfig fe) 0) path = Some cell /\
    forall lat lon : Q, contains (rectangle e) lat lon -> interior cell lat lon.

(** No registered node lies below another registered node. *)
Definition antichain (fe : FrontEnd) (es : EntityCollection) : Prop :=
  forall (r c : Z) (p1 p2 : list Z),
    inGrid fe r c -> Forall okQuadrant p1 -> Forall okQuadrant p2 ->
    is_Some (es !! tileNode r c p1) ->
    is_Some (es !! tileNode r c (p1 ++ p2)) ->
    p2 = [].

Definition consistent (fe : FrontEnd) (es : EntityCollection) : Prop :=
  (forall id e, es !! id = Some e -> wellPlaced fe id e) /\ antichain fe es.

(** No node along the holes of the point, in tile [(r, c)], is registered. *)
Definition chainFree (fe : FrontEnd) (lat lon : Q) (r c : Z)
    (es : EntityCollection) : Prop :=
  forall p : list Z,
    onChain lat lon (tileBounds r c (gridConfig fe) 0) p ->
    es !! tileNode r c p = None.

(** The registry a found leaf is split on: the leaf and all below it gone. *)
Definition cleared (baseId : string) (es : EntityCollection)
    (path : list Z) : EntityCollection :=
  removeByPrefix (nodeId baseId path +:+ "_")
                 (remove (nodeId baseId path) es).

(** The identifier and the raw bounds of the top-level tile of a point, as
    [removeOrSplitTileAt] computes them first. *)
Definition baseIdAt (fe : FrontEnd) (lat lon : Q) : string :=
  tileIdToString (latLonToTile lat lon (gridConfig fe)).

Definition baseBoundsAt (fe : FrontEnd) (lat lon : Q) : Bounds :=
  tileBounds (row (latLonToTile lat lon (gridConfig fe)))
             (col (latLonToTile lat lon (gridConfig fe))) (gridConfig fe) 0.

(** The registry after start-up. *)
Definition startEntities (fe : FrontEnd) : EntityCollection :=
  match initialEntities fe with
  | Some es => es
  | None => ∅
  end.

(** How many of the four sub-tiles named by [mkId] are registered. *)
Definition subTilesShown (es : EntityCollection) (mkId : Z -> string) : nat :=
  length (List.filter (fun q => bool_decide (is_Some (es !! mkId q)))
                      [0; 1; 2; 3]%Z).

(** [clamp x lo hi]: [x] brought into [lo .. hi]. *)
Definition clamp (x lo hi : Z) : Z := Z.min (Z.max x lo) hi.

(** A small front-end to run the controller on: 2 x 2 tiles, 3 levels. *)
Definition tinyFrontEnd : FrontEnd :=
  {| gridConfig := {| latCount := 2; lonCount := 2 |};
     TILE_GAP := 3 # 100;
     SPLIT_DEPTH := 3 |}.

(** Which of the identifiers are registered. *)
Definition registered (es : EntityCollection) (ids : list string)
    : list bool :=
  map (fun id => bool_decide (is_Some (es !! id))) ids.

(** A rectangle and a grid on which the statements are exercised. *)
Definition sampleRect : Bounds :=
  {| west := 0; south := 10; east := 4; north := 20 |}.

Definition followGrid : TileGridConfig :=
  {| latCount := 18; lonCount := 36 |}.

(** ** Arithmetic helpers *)

(** [lra] on [Q] does not read a division: divisions by the literals of the
    code are turned into products first. *)
Ltac qdiv :=
  unfold Qdiv in *;
  repeat match goal with
  | |- context [Qinv (Qmake ?a ?b)] =>
      let v := eval cbv in (Qinv (Qmake a b)) in
      change (Qinv (Qmake a b)) with v
  | H : context [Qinv (Qmake ?a ?b)] |- _ =>
      let v := eval cbv in (Qinv (Qmake a b)) in
      change (Qinv (Qmake a b)) with v in H
  end.

Ltac qlra := qdiv; lra.

(** ** [geoUtils.ts]: squares given in meters

    [Math.cos] and [Math.PI] have no rational value; the two functions that
    use them take the cosine and the constant as parameters. *)

Definition METERS_PER_DEGREE_LAT : Q := 111320.

Definition DEGREES_PER_METER_LAT : Q := 1 / METERS_PER_DEGREE_LAT.

Definition metersToLatitudeDegrees (meters : Q) : Q :=
  meters * DEGREES_PER_METER_LAT.

Definition metersToLongitudeDegrees (cos : Q -> Q) (PI : Q)
    (meters latitudeDeg : Q) : Q :=
  let cosLat := cos ((latitudeDeg * PI) / 180) in
  meters / (METERS_PER_DEGREE_LAT * cosLat).

Definition squareBounds (cos : Q -> Q) (PI : Q)
    (lat lon sideLengthMeters : Q) : Bounds :=
  let half := sideLengthMeters / 2 in
  let latDelta := metersToLatitudeDegrees half in
  let lonDelta := metersToLongitudeDegrees cos PI half lat in
  {| west := lon - lonDelta;
     south := lat - latDelta;
     east := lon + lonDelta;
     north := lat + latDelta |}.

(** ** Following the device location

    The state of the follow mode, and the camera.  The camera keeps its
    position in radians and the code reads it back in degrees; the two
    conversions cancel, and the camera is kept in degrees here. *)

Record FollowState := mkFollow {
  followLocation : bool;
  followFlyInProgress : bool;
  followWatchId : option Z;
  followTargetLon : option Q;
  followTargetLat : option Q;
  lastFollowRemoveTime : Q
}.

Record Camera := mkCamera { camLon : Q; camLat : Q }.

Definition FOLLOW_LERP : Q := 12 # 100.

Definition FOLLOW_REMOVE_THROTTLE_MS : Q := 180.

(** What a tick leaves: the follow state, the camera, the registry, and
    the point [removeOrSplitTileAt] was called at, when it was called. *)
Record TickResult := mkTick {
  tickState : FollowState;
  tickCamera : Camera;
  tickEntities : EntityCollection;
  tickRemoval : option (Q * Q)
}.

(** [onFollowTick] at the clock value [now]. *)
Definition onFollowTick (fe : FrontEnd) (now : Q) (st : FollowState)
    (cam : Camera) (es : EntityCollection) : option TickResult :=
  let idle := Some {| tickState := st; tickCamera := cam;
                      tickEntities := es; tickRemoval := None |} in
  if negb (followLocation st) then idle
  else
    match followTargetLon st, followTargetLat st with
    | Some targetLon, Some targetLat =>
        let curLon := camLon cam in
        let curLat := camLat cam in
        let newLon := curLon + (targetLon - curLon) * FOLLOW_LERP in
        let newLat := curLat + (targetLat - curLat) * FOLLOW_LERP in
        let cam' := {| camLon := newLon; camLat := newLat |} in
        if Qgeb (now - lastFollowRemoveTime st) FOLLOW_REMOVE_THROTTLE_MS
        then
          let st' := {| followLocation := followLocation st;
                        followFlyInProgress := followFlyInProgress st;
                        followWatchId := followWatchId st;
                        followTargetLon := followTargetLon st;
                        followTargetLat := followTargetLat st;
                        lastFollowRemoveTime := now |} in
          es' ← removeOrSplitTileAt fe newLat newLon es;
          Some {| tickState := st'; tickCamera := cam';
                  tickEntities := es'; tickRemoval := Some (newLat, newLon) |}
        else
          Some {| tickState := st; tickCamera := cam';
                  tickEntities := es; tickRemoval := None |}
    | _, _ => idle
    end.

(** [stopFollowing], on the follow state. *)
Definition stopFollowing (st : FollowState) : FollowState :=
  {| followLocation := false;
     followFlyInProgress := followFlyInProgress st;
     followWatchId := None;
     followTargetLon := None;
     followTargetLat := None;
     lastFollowRemoveTime := lastFollowRemoveTime st |}.

(** The position callback of [watchPosition]. *)
Definition onPosition (longitude latitude : Q) (st : FollowState)
    : FollowState :=
  {| followLocation := followLocation st;
     followFlyInProgress := followFlyInProgress st;
     followWatchId := followWatchId st;
     followTargetLon := Some longitude;
     followTargetLat := Some latitude;
     lastFollowRemoveTime := lastFollowRemoveTime st |}.

(** The wrapper put around [viewer.camera.flyTo]: a flight that is not the
    one follow mode started ends follow mode. *)
Definition onCameraFlyTo (st : FollowState) : FollowState :=
  if followLocation st && negb (followFlyInProgress st)
  then stopFollowing st else st.

(** [startFollowing], on the follow state, in a browser with geolocation. *)
Definition startFollowing (st : FollowState) : FollowState :=
  {| followLocation := true;
     followFlyInProgress := followFlyInProgress st;
     followWatchId := followWatchId st;
     followTargetLon := None;
     followTargetLat := None;
     lastFollowRemoveTime := lastFollowRemoveTime st |}.

(** The success callback of [getCurrentPosition]: the flight to the device
    is marked as the one of follow mode and then started, through the
    wrapped [camera.flyTo]. *)
Definition onCurrentPosition (st : FollowState) : FollowState :=
  onCameraFlyTo {| followLocation := followLocation st;
                   followFlyInProgress := true;
                   followWatchId := followWatchId st;
                   followTargetLon := followTargetLon st;
                   followTargetLat := followTargetLat st;
                   lastFollowRemoveTime := lastFollowRemoveTime st |}.

(** What happens while following: a frame is rendered at the clock value
    [now] with the camera at [carto], or the device reports a position. *)
Inductive FollowEvent :=
| evTick (now : Q) (carto : Camera)
| evPosition (longitude latitude : Q).

(** A run of such events, with the clock values at which
    [removeOrSplitTileAt] was called. *)
Fixpoint runFollow (fe : FrontEnd) (evs : list FollowEvent)
    (st : FollowState) (es : EntityCollection)
    : option (list Q * FollowState * EntityCollection) :=
  match evs with
  | [] => Some ([], st, es)
  | evTick now carto :: rest =>
      t ← onFollowTick fe now st carto es;
      '(times, st', es') ←
         runFollow fe rest (tickState t) (tickEntities t);
      Some (match tickRemoval t with
            | Some _ => now :: times
            | None => times
            end, st', es')
  | evPosition longitude latitude :: rest =>
      runFollow fe rest (onPosition longitude latitude st) es
  end.

(** Every two neighbours of the list are at least [d] apart, in order. *)
Fixpoint spaced (d : Q) (ts : list Q) : Prop :=
  match ts with
  | [] => True
  | t :: rest =>
      match rest with
      | [] => True
      | t' :: _ => t + d <= t'
      end /\ spaced d rest
  end.

(** Two rectangles with a point in common. *)
Definition overlap (a b : Bounds) : Prop :=
  exists lat lon : Q, contains a lat lon /\ contains b lat lon.

(** * Properties *)

(** ** The code on concrete inputs *)

Example tileBounds_20_38 :
  tileBounds 20 38 DEFAULT_GRID_CONFIG 0
  =b= {| west := 10; south := 10; east := 15; north := 15 |}.
Proof. repeat split. Qed.

Example quadrantAt_midpoint :
  quadrantAt 15 2 sampleRect = 3%Z /\ quadrantAt 14 1 sampleRect = 0%Z /\
  quadrantAt 15 1 sampleRect = 2%Z /\ quadrantAt 14 2 sampleRect = 1%Z.
Proof. repeat split. Qed.

Example parseTileId_samples :
  parseTileId "tile_20_38" = Some {| row := 20; col := 38 |} /\
  parseTileId "tile_007_1" = Some {| row := 7; col := 1 |} /\
  parseTileId "tile_1_2_3" = None /\
  parseTileId "tile_-1_2" = None /\
  parseTileId "xtile_1_2" = None.
Proof. repeat split. Qed.

Example gapForDepth_samples :
  gapForDepth followFrontEnd 0 == 3 # 100 /\
  gapForDepth followFrontEnd 1 == 3 # 200 /\
  gapForDepth followFrontEnd 2 == 1 # 100 /\
  gapForDepth followFrontEnd 14 == 1 # 100.
Proof. repeat split. Qed.

(** One call on the small front-end: the tile of (10, 10) goes, and three
    levels of three entities each appear around the hole. *)
Example tiny_first_call :
  (es ← initialEntities tinyFrontEnd;
   es1 ← removeOrSplitTileAt tinyFrontEnd 10 10 es;
   Some (size es, size es1,
         registered es1 ["tile_1_1"; "tile_1_1_0"; "tile_1_1_1"; "tile_1_1_2";
                         "tile_1_1_3"; "tile_1_1_0_0"; "tile_1_1_0_1";
                         "tile_1_1_0_0_0"; "tile_1_1_0_0_3"; "tile_0_0"]))
  = Some (4%nat, 12%nat,
          [false; false; true; true; true; false; true; false; true; true]).
Proof. vm_compute. reflexivity. Qed.

(** A second call in a leaf of the maximum depth removes that leaf and
    creates nothing; a second call at the first point changes nothing. *)
Example tiny_second_call :
  (es ← initialEntities tinyFrontEnd;
   es1 ← removeOrSplitTileAt tinyFrontEnd 10 10 es;
   es2 ← removeOrSplitTileAt tinyFrontEnd 20 10 es1;
   es3 ← removeOrSplitTileAt tinyFrontEnd 10 10 es1;
   Some (size es2, registered es2 ["tile_1_1_0_0_2"; "tile_1_1_0_0_3"],
         size es3))
  = Some (11%nat, [false; true], 12%nat).
Proof. vm_compute. reflexivity. Qed.

(** ** Comparisons and floor *)

Lemma Qgtb_true x y : Qgtb x y = true <-> y < x.
Proof.
  unfold Qgtb. rewrite negb_true_iff.
  destruct (Qle_bool x y) eqn:E.
  - apply Qle_bool_iff in E. split; [discriminate | lra].
  - split; [intros _ | reflexivity].
    destruct (Qlt_le_dec y x) as [L | L]; [exact L |].
    apply Qle_bool_iff in L. congruence.
Qed.

Lemma Qgtb_false x y : Qgtb x y = false <-> x <= y.
Proof.
  unfold Qgtb. rewrite negb_false_iff. apply Qle_bool_iff.
Qed.

Lemma Qgeb_true x y : Qgeb x y = true <-> y <= x.
Proof. unfold Qgeb. apply Qle_bool_iff. Qed.

Lemma Qgeb_false x y : Qgeb x y = false <-> x < y.
Proof.
  unfold Qgeb. destruct (Qle_bool y x) eqn:E.
  - apply Qle_bool_iff in E. split; [discriminate | lra].
  - split; [intros _ | reflexivity].
    destruct (Qlt_le_dec x y) as [L | L]; [exact L |].
    apply Qle_bool_iff in L. congruence.
Qed.

(** [Math.floor] is pinned down by the unit interval its argument is in. *)
Lemma Qfloor_unique (q : Q) (n : Z) :
  inject_Z n <= q -> q < inject_Z (n + 1) -> Qfloor q = n.
Proof.
  intros Hlo Hhi.
  pose proof (Qfloor_le q) as F1. pose proof (Qlt_floor q) as F2.
  assert (A : inject_Z n < inject_Z (Qfloor q + 1)) by lra.
  assert (B : inject_Z (Qfloor q) < inject_Z (n + 1)) by lra.
  rewrite <- Zlt_Qlt in A, B. lia.
Qed.

Lemma inject_Z_nonzero (n : Z) : (0 < n)%Z -> ~ inject_Z n == 0.
Proof. unfold Qeq; simpl. lia. Qed.

(** ** [insetBounds] *)

Lemma insetBounds_interior (b : Bounds) (g : Q) (lat lon : Q) :
  nondegenerate b -> 0 < g ->
  contains (insetBounds b g) lat lon -> interior b lat lon.
Proof.
  intros [Hw Hh] Hg (H1 & H2 & H3 & H4). unfold insetBounds in *; simpl in *.
  assert (0 < (east b - west b) * (g / 2)).
  { apply Qmult_lt_0_compat; qlra. }
  assert (0 < (north b - south b) * (g / 2)).
  { apply Qmult_lt_0_compat; qlra. }
  unfold interior. repeat split; lra.
Qed.



(** ** [tileBounds] *)

Section Grid.
Variable config : TileGridConfig.
Hypothesis latPos : (0 < latCount config)%Z.
Hypothesis lonPos : (0 < lonCount config)%Z.

Let latStep : Q := 180 / inject_Z (latCount config).
Let lonStep : Q := 360 / inject_Z (lonCount config).

Lemma latStep_pos : 0 < latStep.
Proof.
  unfold latStep. apply Qlt_shift_div_l.
  - replace 0 with (inject_Z 0) by reflexivity. rewrite <- Zlt_Qlt. lia.
  - lra.
Qed.

Lemma lonStep_pos : 0 < lonStep.
Proof.
  unfold lonStep. apply Qlt_shift_div_l.
  - replace 0 with (inject_Z 0) by reflexivity. rewrite <- Zlt_Qlt. lia.
  - lra.
Qed.

Lemma latStep_total : inject_Z (latCount config) * latStep == 180.
Proof.
  unfold latStep. field. apply inject_Z_nonzero, latPos.
Qed.

Lemma lonStep_total : inject_Z (lonCount config) * lonStep == 360.
Proof.
  unfold lonStep. field. apply inject_Z_nonzero, lonPos.
Qed.

(** The raw cell of [(r, c)], coordinate by coordinate. *)
Lemma tileBounds_0 (r c : Z) :
  tileBounds r c config 0 =
  {| west := -180 + inject_Z c * lonStep;
     south := -90 + inject_Z r * latStep;
     east := -180 + inject_Z c * lonStep + lonStep;
     north := -90 + inject_Z r * latStep + latStep |}.
Proof. reflexivity. Qed.

Lemma tileBounds_gap (r c : Z) (g : Q) :
  0 < g ->
  tileBounds r c config g =
  {| west := -180 + inject_Z c * lonStep + lonStep * g / 2;
     south := -90 + inject_Z r * latStep + latStep * g / 2;
     east := -180 + inject_Z c * lonStep + lonStep - lonStep * g / 2;
     north := -90 + inject_Z r * latStep + latStep - latStep * g / 2 |}.
Proof.
  intros Hg. unfold tileBounds.
  apply Qgtb_true in Hg. rewrite Hg. reflexivity.
Qed.

Lemma tileBounds_nondegenerate (r c : Z) :
  nondegenerate (tileBounds r c config 0).
Proof.
  pose proof latStep_pos. pose proof lonStep_pos.
  rewrite tileBounds_0. split; cbn [west east south north]; lra.
Qed.

(** A quotient by the step, floored. *)
Lemma floor_step (x step : Q) (n : Z) :
  0 < step ->
  inject_Z n * step <= x -> x < inject_Z n * step + step ->
  Qfloor (x / step) = n.
Proof.
  intros Hs Hlo Hhi. apply Qfloor_unique.
  - apply Qle_shift_div_l; assumption.
  - apply Qlt_shift_div_r; [assumption |].
    rewrite inject_Z_plus. change (inject_Z 1) with 1. lra.
Qed.

(** Half-open cells are mapped back to their indices. *)
Lemma latLonToTile_cell (r c : Z) (lat lon : Q) :
  (0 <= r < latCount config)%Z -> (0 <= c < lonCount config)%Z ->
  south (tileBounds r c config 0) <= lat ->
  lat < north (tileBounds r c config 0) ->
  west (tileBounds r c config 0) <= lon ->
  lon < east (tileBounds r c config 0) ->
  latLonToTile lat lon config = {| row := r; col := c |}.
Proof.
  intros Hr Hc. rewrite tileBounds_0. cbn [west east south north].
  intros H1 H2 H3 H4.
  pose proof latStep_pos. pose proof lonStep_pos.
  unfold latLonToTile. fold latStep lonStep.
  rewrite (floor_step (lat + 90) latStep r) by lra.
  rewrite (floor_step (lon + 180) lonStep c) by lra.
  f_equal; lia.
Qed.

End Grid.

(** Every value of [0 .. n * step] lies in one of the [n] closed steps. *)
Lemma step_cover (x step : Q) (n : Z) :
  (0 < n)%Z -> 0 < step -> 0 <= x -> x <= inject_Z n * step ->
  exists k : Z, (0 <= k < n)%Z /\
    inject_Z k * step <= x /\ x <= inject_Z k * step + step.
Proof.
  intros Hn Hs H0 Hx.
  pose proof (Qfloor_le (x / step)) as F1.
  pose proof (Qlt_floor (x / step)) as F2.
  set (f := Qfloor (x / step)) in *.
  assert (X : x / step * step == x) by (field; lra).
  assert (L : inject_Z f * step <= x).
  { rewrite <- X. apply Qmult_le_compat_r; lra. }
  assert (U : x < inject_Z (f + 1) * step).
  { rewrite <- X at 1. apply Qmult_lt_compat_r; lra. }
  rewrite inject_Z_plus in U. change (inject_Z 1) with 1 in U.
  assert (Hf : (0 <= f)%Z).
  { destruct (Z_lt_le_dec f 0) as [Neg | ]; [ exfalso | assumption ].
    assert (inject_Z (f + 1) <= 0).
    { change 0 with (inject_Z 0). rewrite <- Zle_Qle. lia. }
    rewrite inject_Z_plus in H. change (inject_Z 1) with 1 in H.
    assert ((inject_Z f + 1) * step <= 0 * step)
      by (apply Qmult_le_compat_r; lra).
    lra. }
  destruct (Z_lt_le_dec f n) as [In | Out].
  - exists f. repeat split; try lia; lra.
  - exists (n - 1)%Z.
    assert (inject_Z n <= inject_Z f) by (rewrite <- Zle_Qle; lia).
    assert (inject_Z n * step <= inject_Z f * step)
      by (apply Qmult_le_compat_r; lra).
    assert (P : inject_Z (n - 1) == inject_Z n - 1).
    { unfold Z.sub. rewrite inject_Z_plus. reflexivity. }
    repeat split; try lia; rewrite P; lra.
Qed.







(** ** Quadrants *)

Lemma quadrantBounds_Some (b : Bounds) (q : Z) :
  (0 <= q <= 3)%Z -> exists qb, quadrantBounds b q = Some qb.
Proof.
  intros Hq.
  assert (C : q = 0%Z \/ q = 1%Z \/ q = 2%Z \/ q = 3%Z) by lia.
  destruct C as [-> | [-> | [-> | ->]]]; eexists; reflexivity.
Qed.

Lemma quadrantBounds_range (b qb : Bounds) (q : Z) :
  quadrantBounds b q = Some qb -> (0 <= q <= 3)%Z.
Proof.
  unfold quadrantBounds.
  destruct q as [ | [ [ | | ] | [ | | ] | ] | ]; intros H;
    try discriminate; lia.
Qed.

Ltac quadrant_cases q H :=
  let C := fresh "C" in
  pose proof (quadrantBounds_range _ _ _ H) as C;
  assert (q = 0%Z \/ q = 1%Z \/ q = 2%Z \/ q = 3%Z) as [-> | [-> | [-> | ->]]]
    by lia;
  clear C; cbn [quadrantBounds] in H; injection H as <-.

Lemma quadrantBounds_nondegenerate (b qb : Bounds) (q : Z) :
  nondegenerate b -> quadrantBounds b q = Some qb -> nondegenerate qb.
Proof.
  intros [Hw Hh] H. quadrant_cases q H;
    unfold nondegenerate; cbn [west east south north]; split; qlra.
Qed.

Lemma quadrantAt_range (lat lon : Q) (b : Bounds) :
  (0 <= quadrantAt lat lon b <= 3)%Z.
Proof.
  unfold quadrantAt.
  destruct (Qgeb lat _), (Qgeb lon _); compute; split; discriminate.
Qed.

(** C5: for a rectangle with [west < east] and [south < north], the four
    rectangles of [quadrantBounds] split it at the midpoint of each axis
    (each has half the width and half the height and a corner at the
    center), their union is the rectangle, and the interiors of two
    different quadrants have no point in common. *)
Theorem quadrantBounds_partition (b : Bounds) :
  nondegenerate b ->
  (forall q : Z, (0 <= q <= 3)%Z ->
     exists qb, quadrantBounds b q = Some qb /\
       east qb - west qb == (east b - west b) / 2 /\
       north qb - south qb == (north b - south b) / 2 /\
       contains qb (centerLat b) (centerLon b)) /\
  (forall lat lon : Q,
     contains b lat lon <->
     exists (q : Z) (qb : Bounds),
       (0 <= q <= 3)%Z /\ quadrantBounds b q = Some qb /\
       contains qb lat lon) /\
  (forall (q1 q2 : Z) (b1 b2 : Bounds) (lat lon : Q),
     quadrantBounds b q1 = Some b1 -> quadrantBounds b q2 = Some b2 ->
     interior b1 lat lon -> interior b2 lat lon -> q1 = q2).
Proof.
  intros [Hw Hh]. repeat apply conj.
  - intros q Hq.
    assert (C : q = 0%Z \/ q = 1%Z \/ q = 2%Z \/ q = 3%Z) by lia.
    destruct C as [-> | [-> | [-> | ->]]]; eexists; (split; [ reflexivity | ]);
      unfold contains, centerLat, centerLon; cbn [west east south north];
      repeat split; qlra.
  - intros lat lon. split.
    + intros (H1 & H2 & H3 & H4).
      destruct (Qlt_le_dec lat (centerLat b)) as [S | N];
        destruct (Qlt_le_dec lon (centerLon b)) as [W | E];
        unfold centerLat, centerLon in *.
      * exists 0%Z. eexists. split; [ lia | split; [ reflexivity | ] ].
        unfold contains; cbn [west east south north]. repeat split; qlra.
      * exists 1%Z. eexists. split; [ lia | split; [ reflexivity | ] ].
        unfold contains; cbn [west east south north]. repeat split; qlra.
      * exists 2%Z. eexists. split; [ lia | split; [ reflexivity | ] ].
        unfold contains; cbn [west east south north]. repeat split; qlra.
      * exists 3%Z. eexists. split; [ lia | split; [ reflexivity | ] ].
        unfold contains; cbn [west east south north]. repeat split; qlra.
    + intros (q & qb & _ & H & (H1 & H2 & H3 & H4)).
      quadrant_cases q H; cbn [west east south north] in *;
        unfold contains; repeat split; qlra.
  - intros q1 q2 b1 b2 lat lon H1 H2 (A1 & A2 & A3 & A4) (B1 & B2 & B3 & B4).
    quadrant_cases q1 H1; quadrant_cases q2 H2;
      cbn [west east south north] in *;
      try reflexivity; exfalso; qlra.
Qed.

Lemma quadrantBounds_partition_witness :
  nondegenerate sampleRect /\
  (forall (q1 q2 : Z) (b1 b2 : Bounds) (lat lon : Q),
     quadrantBounds sampleRect q1 = Some b1 ->
     quadrantBounds sampleRect q2 = Some b2 ->
     interior b1 lat lon -> interior b2 lat lon -> q1 = q2).
Proof.
  assert (H : nondegenerate sampleRect)
    by (split; unfold Qlt; simpl; lia).
  split; [ exact H | ].
  exact (proj2 (proj2 (quadrantBounds_partition sampleRect H))).
Defined.

(** C6: [quadrantAt] is [(northBit << 1) | eastBit], where [northBit] is 1
    exactly when [lat] is at or above the vertical midpoint and [eastBit] is
    1 exactly when [lon] is at or beyond the horizontal midpoint, so a point
    on a midpoint goes north or east; and a point of the rectangle lies in
    the quadrant [quadrantBounds] returns for [quadrantAt]. *)
Theorem quadrantAt_consistent (b : Bounds) (lat lon : Q) :
  nondegenerate b ->
  (exists northBit eastBit : Z,
     (northBit = 1%Z <-> centerLat b <= lat) /\
     (northBit = 0%Z <-> lat < centerLat b) /\
     (eastBit = 1%Z <-> centerLon b <= lon) /\
     (eastBit = 0%Z <-> lon < centerLon b) /\
     quadrantAt lat lon b = Z.lor (Z.shiftl northBit 1) eastBit) /\
  (contains b lat lon ->
   exists qb, quadrantBounds b (quadrantAt lat lon b) = Some qb /\
              contains qb lat lon).
Proof.
  intros _. split.
  - unfold quadrantAt, centerLat, centerLon.
    destruct (Qgeb lat _) eqn:N; destruct (Qgeb lon _) eqn:E;
      [ exists 1%Z, 1%Z | exists 1%Z, 0%Z | exists 0%Z, 1%Z | exists 0%Z, 0%Z ];
      try apply Qgeb_true in N; try apply Qgeb_false in N;
      try apply Qgeb_true in E; try apply Qgeb_false in E;
      repeat split; intros; try lia; try assumption; try reflexivity;
      exfalso; qlra.
  - intros (H1 & H2 & H3 & H4). unfold quadrantAt.
    destruct (Qgeb lat _) eqn:N; destruct (Qgeb lon _) eqn:E;
      try apply Qgeb_true in N; try apply Qgeb_false in N;
      try apply Qgeb_true in E; try apply Qgeb_false in E;
      cbn [Z.lor Z.shiftl Pos.lor Z.shiftr Z.opp Pos.iter Z.mul Pos.mul Z.double
           Pos.iter Z.pos_sub]; cbn;
      eexists; (split; [ reflexivity | ]);
      unfold contains; cbn [west east south north]; repeat split; qlra.
Qed.

Lemma quadrantAt_consistent_witness :
  nondegenerate sampleRect /\
  ((exists northBit eastBit : Z,
      (northBit = 1%Z <-> centerLat sampleRect <= 15) /\
      (northBit = 0%Z <-> 15 < centerLat sampleRect) /\
      (eastBit = 1%Z <-> centerLon sampleRect <= 1) /\
      (eastBit = 0%Z <-> 1 < centerLon sampleRect) /\
      quadrantAt 15 1 sampleRect = Z.lor (Z.shiftl northBit 1) eastBit) /\
   (contains sampleRect 15 1 ->
    exists qb, quadrantBounds sampleRect (quadrantAt 15 1 sampleRect) = Some qb /\
               contains qb 15 1)).
Proof.
  assert (H : nondegenerate sampleRect)
    by (split; unfold Qlt; simpl; lia).
  split; [ exact H | exact (quadrantAt_consistent sampleRect 15 1 H) ].
Defined.

(** ** Identifiers *)

Lemma string_of_uint_allDigits (d : Decimal.uint) :
  allDigits (NilEmpty.string_of_uint d).
Proof.
  unfold allDigits.
  induction d; simpl; try constructor; try reflexivity; assumption.
Qed.

Lemma string_of_uint_nonempty (d : Decimal.uint) :
  d <> Decimal.Nil -> NilEmpty.string_of_uint d <> EmptyString.
Proof. destruct d; simpl; congruence. Qed.

Lemma numberToString_pos (p : positive) :
  numberToString (Z.pos p) = NilEmpty.string_of_uint (Pos.to_uint p).
Proof.
  unfold numberToString. simpl.
  pose proof (DecimalPos.Unsigned.to_uint_nonnil p) as N.
  destruct (Pos.to_uint p); [ congruence | reflexivity .. ].
Qed.

Lemma numberToString_digits (n : Z) :
  (0 <= n)%Z -> digitString (numberToString n).
Proof.
  intros Hn. destruct n as [ | p | p ]; [ | | lia ].
  - split; [ discriminate | ]. repeat constructor.
  - rewrite numberToString_pos. split.
    + apply string_of_uint_nonempty, DecimalPos.Unsigned.to_uint_nonnil.
    + apply string_of_uint_allDigits.
Qed.

Lemma parseDigits_of_uint_acc (d : Decimal.uint) (acc : positive) :
  parseDigits (NilEmpty.string_of_uint d) (Z.pos acc)
  = Z.pos (Pos.of_uint_acc d acc).
Proof.
  revert acc. induction d; intros acc; simpl; try reflexivity;
    rewrite <- IHd; f_equal; unfold digitValue;
    match goal with
    | |- context [Z.of_nat (nat_of_ascii ?c)] =>
        let v := eval compute in (Z.of_nat (nat_of_ascii c)) in
        change (Z.of_nat (nat_of_ascii c)) with v
    end; lia.
Qed.

Lemma parseDigits_of_uint (d : Decimal.uint) :
  parseDigits (NilEmpty.string_of_uint d) 0 = Z.of_N (Pos.of_uint d).
Proof.
  induction d; simpl; try reflexivity; try assumption;
    apply parseDigits_of_uint_acc.
Qed.

(** Reading back the digits of a value that is not negative gives it. *)
Lemma parseDigits_numberToString (n : Z) :
  (0 <= n)%Z -> parseDigits (numberToString n) 0 = n.
Proof.
  intros Hn. destruct n as [ | p | p ]; [ reflexivity | | lia ].
  rewrite numberToString_pos, parseDigits_of_uint.
  rewrite DecimalPos.Unsigned.of_to. reflexivity.
Qed.

Lemma parseInt_numberToString (n : Z) :
  (0 <= n)%Z -> parseInt (numberToString n) = Some n.
Proof.
  intros Hn. destruct (numberToString_digits n Hn) as [Ne Ds].
  unfold parseInt.
  destruct (numberToString n) as [ | c s ] eqn:E; [ congruence | ].
  inversion Ds as [ | ? ? Hc _ ]; subst. rewrite Hc.
  rewrite <- E. f_equal. apply parseDigits_numberToString, Hn.
Qed.

Lemma numberToString_inj (m n : Z) :
  (0 <= m)%Z -> (0 <= n)%Z -> numberToString m = numberToString n -> m = n.
Proof.
  intros Hm Hn E.
  rewrite <- (parseDigits_numberToString m Hm),
          <- (parseDigits_numberToString n Hn), E.
  reflexivity.
Qed.

(** What [spanDigits] returns, put back together, is its argument. *)
Lemma spanDigits_app (s ds tl : string) :
  spanDigits s = (ds, tl) -> s = ds +:+ tl /\ allDigits ds.
Proof.
  revert ds tl. induction s as [ | c s IH ]; intros ds tl; simpl.
  - intros [= <- <-]. split; [ reflexivity | constructor ].
  - destruct (isDigit c) eqn:D.
    + destruct (spanDigits s) as [ds' tl'] eqn:E. intros [= <- <-].
      destruct (IH _ _ eq_refl) as [-> A]. split; [ reflexivity | ].
      constructor; assumption.
    + intros [= <- <-]. split; [ reflexivity | constructor ].
Qed.

Lemma spanDigits_stop (s ds tl : string) :
  spanDigits s = (ds, tl) -> digitStop tl.
Proof.
  revert ds tl. induction s as [ | c s IH ]; intros ds tl; simpl.
  - intros [= <- <-]. exact I.
  - destruct (isDigit c) eqn:D.
    + destruct (spanDigits s) as [ds' tl'] eqn:E. intros [= <- <-].
      eapply IH; reflexivity.
    + intros [= <- <-]. exact D.
Qed.

Lemma spanDigits_digits (ds tl : string) :
  allDigits ds -> digitStop tl -> spanDigits (ds +:+ tl) = (ds, tl).
Proof.
  unfold allDigits. induction ds as [ | c ds IH ]; simpl; intros A S.
  - destruct tl as [ | c tl ]; [ reflexivity | ]. simpl in *. rewrite S.
    reflexivity.
  - inversion A as [ | ? ? Hc A' ]; subst. rewrite Hc, (IH A' S). reflexivity.
Qed.

(** Two runs of digits, each followed by a stop, that give the same string
    are the same run followed by the same rest. *)
Lemma digits_app_inj (d1 d2 t1 t2 : string) :
  allDigits d1 -> allDigits d2 -> digitStop t1 -> digitStop t2 ->
  d1 +:+ t1 = d2 +:+ t2 -> d1 = d2 /\ t1 = t2.
Proof.
  intros A1 A2 S1 S2 E.
  pose proof (spanDigits_digits d1 t1 A1 S1) as P1.
  pose proof (spanDigits_digits d2 t2 A2 S2) as P2.
  rewrite E in P1. rewrite P1 in P2. inversion P2. split; reflexivity.
Qed.

Lemma append_empty_r (s : string) : s +:+ "" = s.
Proof. induction s; simpl; [ reflexivity | f_equal; assumption ]. Qed.

Lemma stripPrefix_app (p s : string) : stripPrefix p (p +:+ s) = Some s.
Proof.
  induction p as [ | a p IH ]; simpl; [ destruct s; reflexivity | ].
  rewrite Ascii.eqb_refl. exact IH.
Qed.

Lemma stripPrefix_Some (p s r : string) :
  stripPrefix p s = Some r -> s = p +:+ r.
Proof.
  revert s. induction p as [ | a p IH ]; intros s; simpl.
  - destruct s; intros [= <-]; reflexivity.
  - destruct s as [ | b s ]; [ discriminate | ].
    destruct (Ascii.eqb a b) eqn:E; [ | discriminate ].
    apply Ascii.eqb_eq in E. subst b. intros H. rewrite (IH _ H). reflexivity.
Qed.

(** The strings [matchTileId] accepts are those of the pattern, and the
    groups are its two runs of digits. *)
Lemma matchTileId_spec (id g1 g2 : string) :
  matchTileId id = Some (g1, g2) <->
  digitString g1 /\ digitString g2 /\ id = "tile_" +:+ g1 +:+ "_" +:+ g2.
Proof.
  unfold matchTileId. split.
  - destruct (stripPrefix "tile_" id) as [s1 | ] eqn:P; [ | discriminate ].
    apply stripPrefix_Some in P.
    destruct (spanDigits s1) as [d1 s2] eqn:E1.
    destruct d1 as [ | c1 d1 ]; [ discriminate | ].
    destruct s2 as [ | u s3 ]; [ discriminate | ].
    destruct (Ascii.eqb u "_") eqn:U.
    2:{ intros H. exfalso. apply Ascii.eqb_neq in U.
        destruct u as [[] [] [] [] [] [] [] []]; try discriminate H; congruence. }
    apply Ascii.eqb_eq in U. subst u.
    destruct (spanDigits s3) as [d2 s4] eqn:E2.
    destruct d2 as [ | c2 d2 ]; [ discriminate | ].
    destruct s4; [ | discriminate ].
    intros [= <- <-].
    apply spanDigits_app in E1, E2. destruct E1 as [-> A1], E2 as [-> A2].
    repeat split; try discriminate; try assumption.
    rewrite append_empty_r in P. exact P.
  - intros ([N1 A1] & [N2 A2] & ->).
    rewrite stripPrefix_app.
    rewrite (spanDigits_digits g1 ("_" +:+ g2) A1) by reflexivity.
    destruct g1 as [ | c1 g1 ]; [ congruence | ].
    change ("_" +:+ g2) with (String "_" g2). cbv iota beta.
    rewrite <- (append_empty_r g2) at 1.
    rewrite (spanDigits_digits g2 "" A2) by exact I.
    destruct g2; [ congruence | reflexivity ].
Qed.



(** ** [latLonToTile] as a clamp *)

(** C7: with positive counts, the row is the floor of [(lat + 90) / latStep]
    clamped to [0 .. latCount - 1], the column the floor of
    [(lon + 180) / lonStep] clamped to [0 .. lonCount - 1], a negative floor
    giving 0; with 36 rows and 72 columns the point (10, 10) is in row 20,
    column 38, whose identifier is [tile_20_38]. *)
Theorem latLonToTile_clamp (lat lon : Q) (config : TileGridConfig) :
  (0 < latCount config)%Z -> (0 < lonCount config)%Z ->
  latLonToTile lat lon config
    = {| row := clamp (Qfloor ((lat + 90) / (180 / inject_Z (latCount config))))
                      0 (latCount config - 1);
         col := clamp (Qfloor ((lon + 180) / (360 / inject_Z (lonCount config))))
                      0 (lonCount config - 1) |} /\
  ((Qfloor ((lat + 90) / (180 / inject_Z (latCount config))) < 0)%Z ->
   row (latLonToTile lat lon config) = 0%Z) /\
  ((Qfloor ((lon + 180) / (360 / inject_Z (lonCount config))) < 0)%Z ->
   col (latLonToTile lat lon config) = 0%Z) /\
  latLonToTile 10 10 {| latCount := 36; lonCount := 72 |}
    = {| row := 20; col := 38 |} /\
  tileIdToString (latLonToTile 10 10 {| latCount := 36; lonCount := 72 |})
    = "tile_20_38".
Proof.
  intros Hlat Hlon. unfold latLonToTile, clamp. cbn [row col].
  repeat apply conj; try reflexivity; try (f_equal; lia); lia.
Qed.

Lemma latLonToTile_clamp_witness :
  (0 < latCount DEFAULT_GRID_CONFIG)%Z /\ (0 < lonCount DEFAULT_GRID_CONFIG)%Z /\
  latLonToTile (-91) 10 DEFAULT_GRID_CONFIG
    = {| row := clamp (Qfloor ((-91 + 90) / (180 / inject_Z (latCount DEFAULT_GRID_CONFIG))))
                      0 (latCount DEFAULT_GRID_CONFIG - 1);
         col := clamp (Qfloor ((10 + 180) / (360 / inject_Z (lonCount DEFAULT_GRID_CONFIG))))
                      0 (lonCount DEFAULT_GRID_CONFIG - 1) |}.
Proof.
  assert (H1 : (0 < latCount DEFAULT_GRID_CONFIG)%Z) by (simpl; lia).
  assert (H2 : (0 < lonCount DEFAULT_GRID_CONFIG)%Z) by (simpl; lia).
  repeat (split; [ assumption | ]).
  exact (proj1 (latLonToTile_clamp (-91) 10 DEFAULT_GRID_CONFIG H1 H2)).
Defined.

(** ** Identifiers of the implicit tree *)

Lemma append_assoc (a b c : string) : (a +:+ b) +:+ c = a +:+ b +:+ c.
Proof. induction a; simpl; [ reflexivity | f_equal; assumption ]. Qed.

Lemma append_inv_head (a b c : string) : a +:+ b = a +:+ c -> b = c.
Proof. induction a; simpl; [ trivial | intros [= H]; auto ]. Qed.

Lemma pathSuffix_app (p p' : list Z) :
  pathSuffix (p ++ p') = pathSuffix p +:+ pathSuffix p'.
Proof.
  induction p as [ | q p IH ]; [ reflexivity | ].
  cbn [pathSuffix app]. rewrite IH.
  change ("_" +:+ ?x) with (String "_" x). simpl.
  rewrite append_assoc. reflexivity.
Qed.

Lemma nodeId_app (base : string) (p p' : list Z) :
  nodeId base (p ++ p') = nodeId (nodeId base p) p'.
Proof. unfold nodeId. rewrite pathSuffix_app, append_assoc. reflexivity. Qed.

Lemma joinPath_cons (q : Z) (p : list Z) :
  "_" +:+ joinPath (q :: p) = pathSuffix (q :: p).
Proof.
  revert q. induction p as [ | q' p IH ]; intros q.
  - cbn. rewrite append_empty_r. reflexivity.
  - change (joinPath (q :: q' :: p))
      with (numberToString q +:+ "_" +:+ joinPath (q' :: p)).
    rewrite IH. reflexivity.
Qed.

Lemma pathId_nodeId (base : string) (p : list Z) :
  p <> [] -> pathId base p = nodeId base p.
Proof.
  intros Hp. destruct p as [ | q p ]; [ congruence | ].
  unfold pathId, nodeId. rewrite joinPath_cons. reflexivity.
Qed.

Lemma freshSubId_nodeId (base : string) (p : list Z) (q : Z) :
  freshSubId base p q = nodeId base (p ++ [q]).
Proof.
  unfold freshSubId, nodeId. rewrite pathSuffix_app.
  destruct p as [ | q' p ].
  - cbn. rewrite append_empty_r. reflexivity.
  - rewrite <- joinPath_cons. cbn [pathSuffix].
    rewrite append_empty_r, !append_assoc. reflexivity.
Qed.

Lemma subId_nodeId (base : string) (p : list Z) (q : Z) :
  p <> [] -> subId base p q = nodeId base (p ++ [q]).
Proof.
  intros Hp. rewrite <- freshSubId_nodeId.
  destruct p; [ congruence | reflexivity ].
Qed.

Lemma pathSuffix_stop (p : list Z) : digitStop (pathSuffix p).
Proof. destruct p; [ exact I | reflexivity ]. Qed.

Lemma pathSuffix_inj (p p' : list Z) :
  Forall okQuadrant p -> Forall okQuadrant p' ->
  pathSuffix p = pathSuffix p' -> p = p'.
Proof.
  intros Hp. revert p'. induction Hp as [ | q p Hq Hp IH ]; intros p' Hp' E.
  - destruct p'; [ reflexivity | discriminate ].
  - destruct Hp' as [ | q' p' Hq' Hp' ]; [ discriminate | ].
    cbn [pathSuffix] in E. injection E as E.
    destruct (numberToString_digits q) as [_ D]; [ apply Hq | ].
    destruct (numberToString_digits q') as [_ D']; [ apply Hq' | ].
    destruct (digits_app_inj _ _ _ _ D D' (pathSuffix_stop p)
                (pathSuffix_stop p') E) as [E1 E2].
    f_equal.
    + apply numberToString_inj; [ apply Hq | apply Hq' | exact E1 ].
    + apply IH; assumption.
Qed.

Lemma nodeId_inj (base : string) (p p' : list Z) :
  Forall okQuadrant p -> Forall okQuadrant p' ->
  nodeId base p = nodeId base p' -> p = p'.
Proof.
  intros Hp Hp' E. apply append_inv_head in E.
  apply pathSuffix_inj; assumption.
Qed.

(** A node identifier spells its tile and its path, and nothing else does. *)
Lemma tileNode_inj (r c r' c' : Z) (p p' : list Z) :
  (0 <= r)%Z -> (0 <= c)%Z -> (0 <= r')%Z -> (0 <= c')%Z ->
  Forall okQuadrant p -> Forall okQuadrant p' ->
  tileNode r c p = tileNode r' c' p' -> r = r' /\ c = c' /\ p = p'.
Proof.
  intros Hr Hc Hr' Hc' Hp Hp' E.
  unfold tileNode, nodeId, tileIdToString in E. cbn [row col] in E.
  rewrite !append_assoc in E. apply append_inv_head in E.
  destruct (numberToString_digits r Hr) as [_ Dr].
  destruct (numberToString_digits r' Hr') as [_ Dr'].
  destruct (numberToString_digits c Hc) as [_ Dc].
  destruct (numberToString_digits c' Hc') as [_ Dc'].
  apply digits_app_inj in E; try assumption; try reflexivity.
  destruct E as [E1 E2]. injection E2 as E2.
  apply digits_app_inj in E2; try assumption; try apply pathSuffix_stop.
  destruct E2 as [E2 E3].
  repeat split.
  - apply numberToString_inj; assumption.
  - apply numberToString_inj; assumption.
  - apply pathSuffix_inj; assumption.
Qed.

(** ** The chain of holes *)

Lemma quadrantBounds_hole (lat lon : Q) (b : Bounds) :
  exists b', quadrantBounds b (quadrantAt lat lon b) = Some b'.
Proof. apply quadrantBounds_Some, quadrantAt_range. Qed.

(** A point of the interior of a quadrant is in the interior of the
    rectangle, and the quadrant is the one [quadrantAt] names. *)
Lemma interior_quadrant (b qb : Bounds) (q : Z) (lat lon : Q) :
  quadrantBounds b q = Some qb -> interior qb lat lon ->
  interior b lat lon /\ q = quadrantAt lat lon b.
Proof.
  intros H (H1 & H2 & H3 & H4). unfold quadrantAt, interior.
  quadrant_cases q H; cbn [west east south north] in *;
    (destruct (Qgeb lat _) eqn:N;
       [ apply Qgeb_true in N | apply Qgeb_false in N ]);
    (destruct (Qgeb lon _) eqn:E;
       [ apply Qgeb_true in E | apply Qgeb_false in E ]);
    try (exfalso; qlra); (split; [ repeat split; qlra | reflexivity ]).
Qed.

Lemma cellOf_app (b : Bounds) (p p' : list Z) :
  cellOf b (p ++ p') = cb ← cellOf b p; cellOf cb p'.
Proof.
  revert b. induction p as [ | q p IH ]; intros b; [ reflexivity | ].
  cbn [cellOf app]. destruct (quadrantBounds b q) as [b' | ]; [ | reflexivity ].
  apply IH.
Qed.

Lemma cellOf_Some (b : Bounds) (p : list Z) :
  Forall okQuadrant p -> exists cb, cellOf b p = Some cb.
Proof.
  intros Hp. revert b. induction Hp as [ | q p Hq Hp IH ]; intros b.
  - eexists; reflexivity.
  - destruct (quadrantBounds_Some b q Hq) as [b' E].
    cbn [cellOf]. rewrite E. apply IH.
Qed.

Lemma cellOf_nondegenerate (b cb : Bounds) (p : list Z) :
  nondegenerate b -> cellOf b p = Some cb -> nondegenerate cb.
Proof.
  revert b. induction p as [ | q p IH ]; intros b Hb; cbn [cellOf].
  - intros [= <-]. exact Hb.
  - destruct (quadrantBounds b q) as [b' | ] eqn:E; [ | discriminate ].
    apply IH. eapply quadrantBounds_nondegenerate; eassumption.
Qed.

(** A point of the interior of a cell is in the interior of the rectangle
    the cell was cut from, and the path of the cell follows its holes. *)
Lemma cellOf_interior (b cb : Bounds) (p : list Z) (lat lon : Q) :
  cellOf b p = Some cb -> interior cb lat lon ->
  interior b lat lon /\ onChain lat lon b p.
Proof.
  revert b. induction p as [ | q p IH ]; intros b; cbn [cellOf onChain].
  - intros [= <-] I. split; [ exact I | exact Logic.I ].
  - destruct (quadrantBounds b q) as [b' | ] eqn:E; [ | discriminate ].
    intros C I. destruct (IH b' C I) as [I' O].
    destruct (interior_quadrant _ _ _ _ _ E I') as [Ib Eq].
    split; [ exact Ib | ]. split; [ exact Eq | ]. exists b'.
    split; [ reflexivity | assumption ].
Qed.

Lemma onChain_okQuadrant (lat lon : Q) (b : Bounds) (p : list Z) :
  onChain lat lon b p -> Forall okQuadrant p.
Proof.
  revert b. induction p as [ | q p IH ]; intros b; cbn [onChain].
  - constructor.
  - intros (-> & b' & _ & O). constructor; [ | eapply IH; eassumption ].
    apply quadrantAt_range.
Qed.

Lemma onChain_app (lat lon : Q) (b : Bounds) (p p' : list Z) :
  onChain lat lon b (p ++ p') <->
  onChain lat lon b p /\
  exists cb, cellOf b p = Some cb /\ onChain lat lon cb p'.
Proof.
  revert b. induction p as [ | q p IH ]; intros b; cbn [onChain cellOf app].
  - split.
    + intros O. split; [ exact I | ]. exists b. split; [ reflexivity | exact O ].
    + intros (_ & cb & [= <-] & O). exact O.
  - split.
    + intros (-> & b' & E & O). apply IH in O. destruct O as (O & cb & C & O').
      split.
      * split; [ reflexivity | ]. exists b'. split; assumption.
      * exists cb. rewrite E. split; assumption.
    + intros ((-> & b' & E & O) & cb & C & O'). rewrite E in C.
      split; [ reflexivity | ]. exists b'. split; [ exact E | ].
      apply IH. split; [ exact O | ]. exists cb. split; assumption.
Qed.

(** Two paths along the holes of one point: one starts with the other. *)
Lemma onChain_comparable (lat lon : Q) (b : Bounds) (p p' : list Z) :
  onChain lat lon b p -> onChain lat lon b p' ->
  exists x, p' = p ++ x \/ p = p' ++ x.
Proof.
  revert b p'. induction p as [ | q p IH ]; intros b p'.
  - intros _ _. exists p'. left. reflexivity.
  - destruct p' as [ | q' p' ].
    + intros _ _. exists (q :: p). right. reflexivity.
    + cbn [onChain]. intros (-> & b1 & E1 & O1) (-> & b2 & E2 & O2).
      rewrite E1 in E2. injection E2 as <-.
      destruct (IH _ _ O1 O2) as [x [-> | ->]]; exists x;
        [ left | right ]; reflexivity.
Qed.

Lemma holePath_length (n : nat) (lat lon : Q) (b : Bounds) :
  length (holePath n lat lon b) = n.
Proof.
  revert b. induction n as [ | n IH ]; intros b; [ reflexivity | ].
  cbn [holePath]. destruct (quadrantBounds_hole lat lon b) as [b' E].
  rewrite E. cbn [length]. rewrite IH. reflexivity.
Qed.

Lemma holePath_onChain (n : nat) (lat lon : Q) (b : Bounds) :
  onChain lat lon b (holePath n lat lon b).
Proof.
  revert b. induction n as [ | n IH ]; intros b; [ exact I | ].
  cbn [holePath]. destruct (quadrantBounds_hole lat lon b) as [b' E].
  rewrite E. split; [ reflexivity | ]. exists b'. split; [ exact E | apply IH ].
Qed.

Lemma onChain_holePath (lat lon : Q) (b : Bounds) (p : list Z) :
  onChain lat lon b p -> p = holePath (length p) lat lon b.
Proof.
  revert b. induction p as [ | q p IH ]; intros b; [ reflexivity | ].
  cbn [onChain holePath length]. intros (-> & b' & E & O).
  rewrite E. f_equal. apply IH, O.
Qed.

(** ** Margins *)

Lemma gapForDepth_pos (fe : FrontEnd) (depth : nat) : 0 < gapForDepth fe depth.
Proof.
  unfold gapForDepth.
  apply Qlt_le_trans with (1 # 100); [ reflexivity | apply Q.le_max_l ].
Qed.

(** ** The registry *)

Lemma add_Some (id : string) (e : Entity) (es : EntityCollection) :
  es !! id = None -> add id e es = Some (<[id := e]> es).
Proof. intros H. unfold add. rewrite H. reflexivity. Qed.

Lemma removeAll_lookup (l : list (string * Entity)) (es : EntityCollection)
    (id : string) :
  foldl (fun acc e => remove (fst e) acc) es l !! id
  = if decide (id ∈ map fst l) then None else es !! id.
Proof.
  revert es. induction l as [ | [k v] l IH ]; intros es; cbn [foldl map fst].
  - destruct (decide _) as [H | H]; [ inversion H | reflexivity ].
  - rewrite IH. unfold remove.
    destruct (decide (id ∈ map fst l)) as [H | H].
    + rewrite decide_True by (right; exact H). reflexivity.
    + destruct (decide (id = k)) as [-> | Hk].
      * rewrite decide_True by left. apply lookup_delete_eq.
      * rewrite decide_False by (intros X; inversion X; subst; tauto).
        apply lookup_delete_ne. congruence.
Qed.

(** After the prefix scan the identifiers that start with the prefix are
    gone and every other entity is as it was. *)
Lemma removeByPrefix_lookup (prefix id : string) (es : EntityCollection) :
  removeByPrefix prefix es !! id
  = if String.prefix prefix id then None else es !! id.
Proof.
  unfold removeByPrefix, values. rewrite removeAll_lookup.
  destruct (decide _) as [H | H].
  - apply list_elem_of_In, in_map_iff in H. destruct H as ([k v] & <- & H).
    apply filter_In in H. destruct H as [_ H]. cbn [fst] in *. rewrite H.
    reflexivity.
  - destruct (String.prefix prefix id) eqn:P; [ | reflexivity ].
    destruct (es !! id) as [v | ] eqn:L; [ | reflexivity ].
    exfalso. apply H. apply list_elem_of_In, in_map_iff. exists (id, v).
    split; [ reflexivity | ]. apply filter_In. split; [ | exact P ].
    apply list_elem_of_In, elem_of_map_to_list, L.
Qed.

Lemma prefix_append (a b : string) : String.prefix a (a +:+ b) = true.
Proof.
  induction a as [ | c a IH ]; simpl; [ destruct b; reflexivity | ].
  destruct (ascii_dec c c); [ exact IH | congruence ].
Qed.

(** The inner loop adds the quadrants of [qs] but the hole, when their
    identifiers are free and differ from one another. *)
Lemma addQuadrants_spec (qs : list Z) (holeQ : Z) (b : Bounds) (gap : Q)
    (mkId : Z -> string) (es : EntityCollection) :
  NoDup qs -> Forall okQuadrant qs ->
  (forall q, q ∈ qs -> es !! mkId q = None) ->
  (forall q q', q ∈ qs -> q' ∈ qs -> mkId q = mkId q' -> q = q') ->
  exists es',
    addQuadrants qs holeQ b gap mkId es = Some es' /\
    forall id e,
      es' !! id = Some e <->
      es !! id = Some e \/
      exists q qb, q ∈ qs /\ q <> holeQ /\ quadrantBounds b q = Some qb /\
                   id = mkId q /\
                   e = {| rectangle := insetBounds qb gap; show := true |}.
Proof.
  revert es. induction qs as [ | q qs IH ]; intros es ND OK Free Inj.
  - exists es. split; [ reflexivity | ]. intros id e. split; [ auto | ].
    intros [H | (q & qb & H & _)]; [ exact H | inversion H ].
  - inversion ND as [ | ? ? Nq ND' ]; subst.
    inversion OK as [ | ? ? Oq OK' ]; subst.
    cbn [addQuadrants]. destruct (Z.eqb_spec q holeQ) as [-> | Ne].
    + destruct (IH es ND' OK') as (es' & R & S).
      * intros q Hq. apply Free. right. exact Hq.
      * intros q q' Hq Hq'. apply Inj; right; assumption.
      * exists es'. split; [ exact R | ]. intros id e. rewrite S.
        split; (intros [H | (q & qb & Hq & Hne & Hb & Hid & He)];
                  [ left; exact H | right; exists q, qb ]).
        -- repeat split; try assumption. right. exact Hq.
        -- repeat split; try assumption.
           inversion Hq; subst; [ congruence | assumption ].
    + destruct (quadrantBounds_Some b q Oq) as [qb Eb]. rewrite Eb.
      cbn [mbind option_bind]. unfold addTileEntity.
      rewrite add_Some by (apply Free; left).
      cbn [mbind option_bind].
      set (e0 := {| rectangle := _; show := true |}).
      assert (E0 : e0 = {| rectangle := insetBounds qb gap; show := true |})
        by reflexivity.
      destruct (IH (<[mkId q := e0]> es) ND' OK') as (es' & R & S).
      * intros q' Hq'. rewrite lookup_insert_ne.
        -- apply Free. right. exact Hq'.
        -- intros X. apply Inj in X; [ | left | right; exact Hq' ].
           subst q'. contradiction.
      * intros q1 q2 H1 H2. apply Inj; right; assumption.
      * exists es'. split; [ exact R | ]. intros id e. rewrite S.
        split.
        -- intros [H | (q' & qb' & Hq & Hne & Hb & Hid & He)].
           ++ destruct (decide (mkId q = id)) as [<- | D].
              ** rewrite lookup_insert_eq in H. injection H as <-.
                 right. exists q, qb. repeat split; try assumption. left.
              ** rewrite lookup_insert_ne in H by exact D. left. exact H.
           ++ right. exists q', qb'. repeat split; try assumption.
              right. exact Hq.
        -- intros [H | (q' & qb' & Hq & Hne & Hb & Hid & He)].
           ++ left. rewrite lookup_insert_ne; [ exact H | ].
              intros X. rewrite <- X in H. rewrite Free in H by left.
              discriminate.
           ++ inversion Hq; subst.
              ** left. rewrite Eb in Hb. injection Hb as <-.
                 rewrite lookup_insert_eq. reflexivity.
              ** right. exists q', qb'. repeat split; assumption.
Qed.

(** ** The level loops *)

Lemma addQuadrants_ext (qs : list Z) (holeQ : Z) (b : Bounds) (gap : Q)
    (f g : Z -> string) (es : EntityCollection) :
  (forall q, f q = g q) ->
  addQuadrants qs holeQ b gap f es = addQuadrants qs holeQ b gap g es.
Proof.
  intros E. revert es. induction qs as [ | q qs IH ]; intros es;
    [ reflexivity | ].
  cbn [addQuadrants]. destruct (q =? holeQ)%Z; [ apply IH | ].
  destruct (quadrantBounds b q) as [qb | ]; [ | reflexivity ].
  cbn [mbind option_bind]. rewrite E.
  destruct (addTileEntity _ _ _ _ _ es) as [es' | ]; [ | reflexivity ].
  apply IH.
Qed.

Lemma splitLevels_drill (fe : FrontEnd) (n level : nat) (lat lon : Q)
    (baseId : string) (b : Bounds) (path : list Z) (es : EntityCollection) :
  splitLevels fe n level lat lon baseId b path es
  = drill (gapForDepth fe) n level lat lon baseId b path es.
Proof.
  revert level b path es. induction n as [ | n IH ]; intros level b path es;
    [ reflexivity | ].
  cbn [splitLevels drill].
  rewrite (addQuadrants_ext _ _ _ _ (freshSubId baseId path)
             (fun q => nodeId baseId (path ++ [q])))
    by (intros q; apply freshSubId_nodeId).
  destruct (addQuadrants _ _ _ _ _ es) as [es' | ]; [ | reflexivity ].
  cbn [mbind option_bind].
  destruct (quadrantBounds b _) as [b' | ]; [ | reflexivity ].
  apply IH.
Qed.

Lemma resplitLevels_drill (fe : FrontEnd) (n d currentDepth : nat)
    (lat lon : Q) (baseId : string) (b : Bounds) (path : list Z)
    (es : EntityCollection) :
  path <> [] ->
  resplitLevels fe n d currentDepth lat lon baseId b path es
  = drill (gapForDepth fe) n (currentDepth + d) lat lon baseId b path es.
Proof.
  revert d b path es. induction n as [ | n IH ]; intros d b path es Hp;
    [ reflexivity | ].
  cbn [resplitLevels drill].
  rewrite (addQuadrants_ext _ _ _ _ (subId baseId path)
             (fun q => nodeId baseId (path ++ [q])))
    by (intros q; apply subId_nodeId, Hp).
  destruct (addQuadrants _ _ _ _ _ es) as [es' | ]; [ | reflexivity ].
  cbn [mbind option_bind].
  destruct (quadrantBounds b _) as [b' | ]; [ | reflexivity ].
  cbn [mbind option_bind].
  rewrite IH by (destruct path; discriminate).
  replace (currentDepth + S d)%nat with (S (currentDepth + d)) by lia.
  reflexivity.
Qed.

Lemma quadrants_NoDup : NoDup [0; 1; 2; 3]%Z.
Proof.
  rewrite !NoDup_cons, !elem_of_cons, !elem_of_nil.
  repeat split; try lia. apply NoDup_nil. exact I.
Qed.

Lemma quadrants_ok : Forall okQuadrant [0; 1; 2; 3]%Z.
Proof. repeat constructor; unfold okQuadrant; lia. Qed.

Lemma quadrants_elem (q : Z) : q ∈ [0; 1; 2; 3]%Z <-> okQuadrant q.
Proof.
  unfold okQuadrant. rewrite !elem_of_cons, elem_of_nil. lia.
Qed.

(** The loop does not throw when nothing below [path] is registered, and
    the registry it leaves is the one it was given together with the
    entities it creates. *)
Lemma drill_spec (gap : nat -> Q) (lat lon : Q) (baseId : string) (n : nat) :
  forall (depth : nat) (b : Bounds) (path : list Z) (es : EntityCollection),
  freshBelow es baseId path ->
  exists es',
    drill gap n depth lat lon baseId b path es = Some es' /\
    forall id e,
      es' !! id = Some e <->
      es !! id = Some e \/ created gap lat lon baseId n depth b path id e.
Proof.
  induction n as [ | n IH ]; intros depth b path es Fresh.
  - exists es. split; [ reflexivity | ]. intros id e. split; [ auto | ].
    intros [H | H]; [ exact H | inversion H ].
  - cbn [drill]. set (h := quadrantAt lat lon b).
    destruct (addQuadrants_spec [0; 1; 2; 3]%Z h b (gap depth)
                (fun q => nodeId baseId (path ++ [q])) es)
      as (es1 & R1 & S1).
    + apply quadrants_NoDup.
    + apply quadrants_ok.
    + intros q Hq. apply Fresh; [ | discriminate ].
      constructor; [ apply quadrants_elem, Hq | constructor ].
    + intros q q' Hq Hq' E. rewrite !nodeId_app in E.
      apply nodeId_inj in E; [ congruence | | ];
        (constructor; [ apply quadrants_elem; assumption | constructor ]).
    + rewrite R1. cbn [mbind option_bind].
      destruct (quadrantBounds_hole lat lon b) as [b' Eb]. fold h in Eb.
      rewrite Eb. cbn [mbind option_bind].
      destruct (IH (S depth) b' (path ++ [h]) es1) as (es' & R & S).
      * intros p Hp Np.
        assert (X : (path ++ [h]) ++ p = path ++ h :: p)
          by (rewrite <- app_assoc; reflexivity).
        rewrite X.
        destruct (es1 !! _) as [e | ] eqn:L; [ | reflexivity ].
        exfalso. apply S1 in L.
        destruct L as [L | (q & qb & Hq & Hne & _ & Hid & _)].
        -- rewrite Fresh in L; [ discriminate | | ].
           ++ constructor; [ apply quadrantAt_range | exact Hp ].
           ++ discriminate.
        -- rewrite !nodeId_app in Hid.
           apply nodeId_inj in Hid.
           ++ destruct p; [ congruence | discriminate ].
           ++ constructor; [ apply quadrantAt_range | exact Hp ].
           ++ constructor; [ apply quadrants_elem, Hq | constructor ].
      * exists es'. split; [ exact R | ]. intros id e. rewrite S, S1.
        split.
        -- intros [[H | (q & qb & Hq & Hne & Hb & -> & ->)] | H].
           ++ left. exact H.
           ++ right. apply created_here; try assumption.
              apply quadrants_elem, Hq.
           ++ right. eapply created_below; eassumption.
        -- intros [H | H]; [ left; left; exact H | ].
           inversion H as [ ? ? ? ? q qb Oq Nq Hb | ? ? ? b'' ? ? ? Hb C ];
             subst.
           ++ left. right. exists q, qb. repeat split; try assumption.
              apply quadrants_elem, Oq.
           ++ right. fold h in Hb. rewrite Eb in Hb. injection Hb as <-.
              exact C.
Qed.

(** ** What the level loop creates *)

(** A created entity sits one step off the chain of holes: its path follows
    the holes for [length c] levels and then takes another quadrant. *)
Lemma created_shape (gap : nat -> Q) (lat lon : Q) (baseId : string)
    (n depth : nat) (b : Bounds) (path : list Z) (id : string) (e : Entity) :
  created gap lat lon baseId n depth b path id e ->
  exists (c : list Z) (q : Z) (cb qb : Bounds),
    onChain lat lon b c /\ (length c < n)%nat /\ cellOf b c = Some cb /\
    okQuadrant q /\ q <> quadrantAt lat lon cb /\
    quadrantBounds cb q = Some qb /\
    id = nodeId baseId (path ++ c ++ [q]) /\
    e = {| rectangle := insetBounds qb (gap (depth + length c)%nat);
           show := true |}.
Proof.
  induction 1 as [ n depth b path q qb Oq Nq Hb
                 | n depth b b' path id e Hb C IH ].
  - exists [], q, b, qb. cbn [length app onChain cellOf].
    rewrite Nat.add_0_r. repeat split; try assumption; try apply Oq. lia.
  - destruct IH as (c & q & cb & qb & O & L & Cc & Oq & Nq & Hq & -> & ->).
    exists (quadrantAt lat lon b :: c), q, cb, qb.
    cbn [length app onChain cellOf]. rewrite Hb. cbn [mbind option_bind].
    repeat split; try assumption; try apply Oq.
    + exists b'. split; [ reflexivity | assumption ].
    + lia.
    + rewrite <- app_assoc. reflexivity.
    + do 3 f_equal. lia.
Qed.

(** One step off the chain is off the chain for good. *)
Lemma off_chain (lat lon : Q) (b cb : Bounds) (c x : list Z) (q : Z) :
  cellOf b c = Some cb -> q <> quadrantAt lat lon cb ->
  ~ onChain lat lon b (c ++ q :: x).
Proof.
  intros C Nq O. apply onChain_app in O.
  destruct O as (_ & cb' & C' & O). rewrite C in C'. injection C' as <-.
  cbn [onChain] in O. destruct O as [E _]. contradiction.
Qed.

Lemma nodeId_nil (baseId : string) : nodeId baseId [] = baseId.
Proof. unfold nodeId. cbn [pathSuffix]. apply append_empty_r. Qed.

Lemma indices_elem (n c : Z) : c ∈ indices n <-> (0 <= c < n)%Z.
Proof.
  unfold indices. rewrite list_elem_of_In, in_map_iff. split.
  - intros (k & <- & H). apply in_seq in H. lia.
  - intros H. exists (Z.to_nat c). split; [ lia | ]. apply in_seq. lia.
Qed.

Lemma latLonToTile_inGrid (fe : FrontEnd) (lat lon : Q) :
  goodFrontEnd fe ->
  inGrid fe (row (latLonToTile lat lon (gridConfig fe)))
            (col (latLonToTile lat lon (gridConfig fe))).
Proof.
  intros (Hlat & Hlon & _). unfold inGrid, latLonToTile. cbn [row col]. lia.
Qed.

(** A created entity, as a node: its path below [path] follows the holes
    along [c] and leaves them with [q], so that nothing at or below it is
    on the chain; it stays within the [n] levels, and its rectangle is the
    inset cell of that path. *)
Lemma created_node (gap : nat -> Q) (lat lon : Q) (baseId : string)
    (n depth : nat) (b : Bounds) (path : list Z) (id : string) (e : Entity) :
  created gap lat lon baseId n depth b path id e ->
  exists (c : list Z) (q : Z) (cell : Bounds) (k : nat),
    id = nodeId baseId (path ++ c ++ [q]) /\
    Forall okQuadrant (c ++ [q]) /\
    onChain lat lon b c /\ (length c < n)%nat /\
    (forall x, ~ onChain lat lon b (c ++ q :: x)) /\
    cellOf b (c ++ [q]) = Some cell /\
    e = {| rectangle := insetBounds cell (gap k); show := true |}.
Proof.
  intros C. apply created_shape in C.
  destruct C as (c & q & cb & qb & O & L & Cc & Oq & Nq & Hq & -> & ->).
  exists c, q, qb, (depth + length c)%nat.
  split; [ reflexivity | ].
  split; [ apply Forall_app; split;
           [ eapply onChain_okQuadrant; eassumption
           | constructor; [ exact Oq | constructor ] ] | ].
  split; [ exact O | ]. split; [ exact L | ].
  split; [ intros x; eapply off_chain; eassumption | ].
  split; [ | reflexivity ].
  rewrite cellOf_app, Cc. cbn [mbind option_bind cellOf]. rewrite Hq.
  reflexivity.
Qed.

(** Conversely, the level loop creates an entity for every quadrant but the
    hole at each of its [n] levels along the holes. *)
Lemma created_along (gap : nat -> Q) (lat lon : Q) (baseId : string)
    (k : nat) :
  forall (n depth : nat) (b : Bounds) (path : list Z) (q : Z)
         (cb qb : Bounds),
  (k < n)%nat -> cellOf b (holePath k lat lon b) = Some cb ->
  okQuadrant q -> q <> quadrantAt lat lon cb ->
  quadrantBounds cb q = Some qb ->
  created gap lat lon baseId n depth b path
    (nodeId baseId (path ++ holePath k lat lon b ++ [q]))
    {| rectangle := insetBounds qb (gap (depth + k)%nat); show := true |}.
Proof.
  induction k as [ | k IH ]; intros n depth b path q cb qb Lt C Oq Nq Hq.
  - destruct n as [ | n ]; [ lia | ]. cbn [holePath cellOf app] in *.
    injection C as <-. rewrite Nat.add_0_r.
    apply created_here; assumption.
  - destruct n as [ | n ]; [ lia | ]. cbn [holePath] in *.
    destruct (quadrantBounds_hole lat lon b) as [b' Hb]. rewrite Hb in *.
    cbn [cellOf] in C. rewrite Hb in C. cbn [mbind option_bind] in C.
    apply (created_below gap lat lon baseId n depth b b'); [ exact Hb | ].
    replace (path ++ (quadrantAt lat lon b :: holePath k lat lon b') ++ [q])
      with ((path ++ [quadrantAt lat lon b]) ++ holePath k lat lon b' ++ [q])
      by (rewrite <- app_assoc; reflexivity).
    replace (depth + S k)%nat with (S depth + k)%nat by lia.
    apply (IH n (S depth) b' _ q cb qb); try assumption. lia.
Qed.

Section Extend.

Variable fe : FrontEnd.
Variables lat lon : Q.
Variables r c : Z.
Hypothesis good : goodFrontEnd fe.
Hypothesis grid : inGrid fe r c.

Let B0 : Bounds := tileBounds r c (gridConfig fe) 0.
Let base : string := tileIdToString {| row := r; col := c |}.

Lemma B0_nondegenerate : nondegenerate B0.
Proof.
  destruct good as (Hlat & Hlon & _).
  apply tileBounds_nondegenerate; assumption.
Qed.

(** The registry after a level loop that started below the chain node [X],
    on a registry with no node of the tile at, above or below [X]. *)
Lemma consistent_extend (es0 es es' : EntityCollection) (X : list Z)
    (b : Bounds) (n depth : nat) :
  consistent fe es0 ->
  (forall id e, es !! id = Some e -> es0 !! id = Some e) ->
  onChain lat lon B0 X -> cellOf B0 X = Some b ->
  (length X + n <= SPLIT_DEPTH fe)%nat ->
  (forall x y, X = x ++ y -> es !! tileNode r c x = None) ->
  freshBelow es base X ->
  (forall id e,
     es' !! id = Some e <->
     es !! id = Some e \/
     created (gapForDepth fe) lat lon base n depth b X id e) ->
  consistent fe es' /\ chainFree fe lat lon r c es'.
Proof.
  intros [WP AC] Sub OX CX Len Above Below Iff.
  pose proof (onChain_okQuadrant _ _ _ _ OX) as OkX.
  destruct grid as [Gr Gc].
  assert (New : forall id e,
            created (gapForDepth fe) lat lon base n depth b X id e ->
            exists cc q cell k,
              id = tileNode r c (X ++ cc ++ [q]) /\
              Forall okQuadrant (cc ++ [q]) /\
              onChain lat lon b cc /\ (length cc < n)%nat /\
              (forall x, ~ onChain lat lon b (cc ++ q :: x)) /\
              cellOf b (cc ++ [q]) = Some cell /\
              e = {| rectangle := insetBounds cell (gapForDepth fe k);
                     show := true |}).
  { intros id e C. apply created_node in C. exact C. }
  split; [ split | ].
  - (* every entity is well placed *)
    intros id e He. apply Iff in He. destruct He as [He | He].
    + apply WP, Sub, He.
    + destruct (New _ _ He)
        as (cc & q & cell & k & -> & Hp & Oc & Lc & _ & Cp & ->).
      split; [ reflexivity | ]. exists r, c, (X ++ cc ++ [q]), cell.
      split; [ split; assumption | ].
      split; [ split; [ apply Forall_app; split; assumption
                      | rewrite !length_app; cbn [length]; lia ] | ].
      split; [ reflexivity | ].
      split; [ fold B0; rewrite cellOf_app, CX; exact Cp | ].
      cbn [rectangle]. intros la lo. apply insetBounds_interior.
      * apply (cellOf_nondegenerate b cell (cc ++ [q])); [ | exact Cp ].
        apply (cellOf_nondegenerate B0 b X); [ | exact CX ].
        apply B0_nondegenerate.
      * apply gapForDepth_pos.
  - (* no registered node lies below another *)
    intros r' c' p1 p2 [Gr' Gc'] H1 H2 [e1 E1] [e2 E2].
    apply Iff in E1, E2.
    destruct E1 as [E1 | E1]; destruct E2 as [E2 | E2].
    + apply (AC r' c' p1 p2); try assumption; try (split; assumption);
        eexists; apply Sub; eassumption.
    + exfalso.
      destruct (New _ _ E2) as (cc & q & _ & _ & Eid & Hp & _).
      apply tileNode_inj in Eid; try lia;
        [ | apply Forall_app; split; assumption
          | apply Forall_app; split; assumption ].
      destruct Eid as (-> & -> & Eid).
      apply app_eq_app in Eid. destruct Eid as (l & [[-> E] | [-> E]]).
      * destruct l as [ | z l ].
        -- rewrite (Above (X ++ []) []) in E1; [ discriminate | ].
           rewrite !app_nil_r. reflexivity.
        -- unfold tileNode in E1. fold base in E1.
           rewrite Below in E1; [ discriminate | | discriminate ].
           apply Forall_app in H1. apply H1.
      * rewrite (Above p1 l eq_refl) in E1. discriminate.
    + exfalso.
      destruct (New _ _ E1) as (cc & q & _ & _ & Eid & Hp & _).
      apply tileNode_inj in Eid; try lia;
        [ | assumption | apply Forall_app; split; assumption ].
      destruct Eid as (-> & -> & ->).
      rewrite <- app_assoc in E2.
      unfold tileNode in E2. fold base in E2.
      rewrite Below in E2; [ discriminate | | ].
      * apply Forall_app; split; assumption.
      * destruct cc; discriminate.
    + destruct (New _ _ E1) as (c1 & q1 & _ & _ & Eid1 & Hp1 & _ & _ & Off & _).
      destruct (New _ _ E2) as (c2 & q2 & _ & _ & Eid2 & Hp2 & O2 & _).
      apply tileNode_inj in Eid1; try lia;
        [ | assumption | apply Forall_app; split; assumption ].
      destruct Eid1 as (-> & -> & ->).
      apply tileNode_inj in Eid2; try lia;
        [ | apply Forall_app; split; [ apply Forall_app; split | ]; assumption
          | apply Forall_app; split; assumption ].
      destruct Eid2 as (_ & _ & Eid2).
      rewrite <- app_assoc in Eid2. apply app_inv_head in Eid2.
      destruct p2 as [ | z p2 ]; [ reflexivity | exfalso ].
      destruct (exists_last (l := z :: p2)) as (l & a & El); [ discriminate | ].
      rewrite El in Eid2. rewrite !app_assoc in Eid2.
      apply app_inj_tail in Eid2. destruct Eid2 as [Eid2 _].
      apply (Off l). rewrite <- Eid2, <- app_assoc in O2. exact O2.
  - (* nothing is registered along the holes *)
    intros p Op. destruct (es' !! tileNode r c p) as [e | ] eqn:E;
      [ exfalso | reflexivity ].
    pose proof (onChain_okQuadrant _ _ _ _ Op) as Okp.
    apply Iff in E. destruct E as [E | E].
    + destruct (onChain_comparable _ _ _ _ _ OX Op) as (x & [-> | ->]).
      * destruct x as [ | z x ].
        -- rewrite (Above (X ++ []) []) in E; [ discriminate | ].
           rewrite !app_nil_r. reflexivity.
        -- unfold tileNode in E. fold base in E.
           rewrite Below in E; [ discriminate | | discriminate ].
           apply Forall_app in Okp. apply Okp.
      * rewrite (Above p x eq_refl) in E. discriminate.
    + destruct (New _ _ E) as (cc & q & _ & _ & Eid & Hp & _ & _ & Off & _).
      apply tileNode_inj in Eid; try lia;
        [ | assumption | apply Forall_app; split; assumption ].
      destruct Eid as (_ & _ & ->).
      apply onChain_app in Op. destruct Op as (_ & cb & Cb & Op).
      fold B0 in Cb. rewrite CX in Cb. injection Cb as <-.
      apply (Off []). exact Op.
Qed.

End Extend.

(** ** The two branches of [removeOrSplitTileAt] *)

Lemma snoc_split (A : Type) (l x y : list A) (a : A) :
  l ++ [a] = x ++ y -> (y = [] /\ x = l ++ [a]) \/ exists y', l = x ++ y'.
Proof.
  intros E. induction y as [ | z y' _ ] using rev_ind.
  - left. rewrite app_nil_r in E. split; [ reflexivity | congruence ].
  - right. exists y'. rewrite app_assoc in E.
    apply app_inj_tail in E. apply E.
Qed.

Lemma nodeId_below_prefix (baseId : string) (path p : list Z) :
  p <> [] ->
  String.prefix (nodeId baseId path +:+ "_") (nodeId baseId (path ++ p)) = true.
Proof.
  intros Np. destruct p as [ | q p ]; [ congruence | ].
  rewrite nodeId_app. unfold nodeId at 2. cbn [pathSuffix].
  change ("_" +:+ numberToString q +:+ pathSuffix p)
    with ("_" +:+ (numberToString q +:+ pathSuffix p)).
  rewrite <- append_assoc. apply prefix_append.
Qed.

Lemma cleared_sub (base : string) (es : EntityCollection) (path : list Z)
    (id : string) (e : Entity) :
  cleared base es path !! id = Some e -> es !! id = Some e.
Proof.
  unfold cleared, remove. rewrite removeByPrefix_lookup.
  destruct (String.prefix _ id); [ discriminate | ].
  intros H. apply lookup_delete_Some in H. apply H.
Qed.

Lemma cleared_self (base : string) (es : EntityCollection) (path : list Z) :
  cleared base es path !! nodeId base path = None.
Proof.
  unfold cleared, remove. rewrite removeByPrefix_lookup.
  destruct (String.prefix _ _); [ reflexivity | apply lookup_delete_eq ].
Qed.

Lemma cleared_fresh (base : string) (es : EntityCollection) (path : list Z) :
  freshBelow (cleared base es path) base path.
Proof.
  intros p _ Np. unfold cleared. rewrite removeByPrefix_lookup.
  rewrite nodeId_below_prefix by exact Np. reflexivity.
Qed.

Section Branches.

Variable fe : FrontEnd.
Variables lat lon : Q.
Variables r c : Z.
Hypothesis good : goodFrontEnd fe.
Hypothesis grid : inGrid fe r c.

Let B0 : Bounds := tileBounds r c (gridConfig fe) 0.
Let base : string := tileIdToString {| row := r; col := c |}.

(** One turn of the second loop on a visible leaf: the leaf and what is
    below it are removed and the level loop runs for the levels left. *)
Lemma findAndSplit_found (es : EntityCollection) (n : nat) (b b' : Bounds)
    (path : list Z) (e : Entity) :
  es !! nodeId base (path ++ [quadrantAt lat lon b]) = Some e ->
  show e = true ->
  quadrantBounds b (quadrantAt lat lon b) = Some b' ->
  exists es',
    findAndSplit fe (S n) lat lon base b path es = Some es' /\
    forall id e',
      es' !! id = Some e' <->
      cleared base es (path ++ [quadrantAt lat lon b]) !! id = Some e' \/
      created (gapForDepth fe) lat lon base
              (SPLIT_DEPTH fe - length (path ++ [quadrantAt lat lon b]))
              (length (path ++ [quadrantAt lat lon b])) b'
              (path ++ [quadrantAt lat lon b]) id e'.
Proof.
  intros L Sh Hb. cbn [findAndSplit]. set (q := quadrantAt lat lon b) in *.
  assert (Np : path ++ [q] <> []) by (destruct path; discriminate).
  rewrite pathId_nodeId by exact Np. unfold getById. rewrite L, Sh, Hb.
  cbn [mbind option_bind]. rewrite resplitLevels_drill by exact Np.
  rewrite Nat.add_0_r.
  apply drill_spec, cleared_fresh.
Qed.

(** One turn of the second loop where nothing is registered: go down. *)
Lemma findAndSplit_down (es : EntityCollection) (n : nat) (b b' : Bounds)
    (path : list Z) :
  es !! nodeId base (path ++ [quadrantAt lat lon b]) = None ->
  quadrantBounds b (quadrantAt lat lon b) = Some b' ->
  findAndSplit fe (S n) lat lon base b path es
  = findAndSplit fe n lat lon base b' (path ++ [quadrantAt lat lon b]) es.
Proof.
  intros L Hb. cbn [findAndSplit]. set (q := quadrantAt lat lon b) in *.
  rewrite pathId_nodeId by (destruct path; discriminate).
  unfold getById. rewrite L, Hb. reflexivity.
Qed.

(** With nothing registered along the holes the second loop walks down to
    the maximum depth and leaves the registry as it is. *)
Lemma findAndSplit_idle (es : EntityCollection) :
  chainFree fe lat lon r c es ->
  forall (n : nat) (path : list Z) (b : Bounds),
  onChain lat lon B0 path -> cellOf B0 path = Some b ->
  findAndSplit fe n lat lon base b path es = Some es.
Proof.
  intros Free. induction n as [ | n IH ]; intros path b Op Cp;
    [ reflexivity | ].
  destruct (quadrantBounds_hole lat lon b) as [b' Hb].
  assert (Op' : onChain lat lon B0 (path ++ [quadrantAt lat lon b])).
  { apply onChain_app. split; [ exact Op | ]. exists b.
    split; [ exact Cp | ]. split; [ reflexivity | ].
    exists b'. split; [ exact Hb | exact I ]. }
  rewrite (findAndSplit_down es n b b' path); [ | apply Free, Op' | exact Hb ].
  apply IH; [ exact Op' | ].
  rewrite cellOf_app, Cp. cbn [mbind option_bind cellOf]. rewrite Hb.
  reflexivity.
Qed.

Lemma findAndSplit_spec (es : EntityCollection) :
  consistent fe es ->
  forall (n : nat) (path : list Z) (b : Bounds),
  onChain lat lon B0 path -> cellOf B0 path = Some b ->
  (length path + n = SPLIT_DEPTH fe)%nat ->
  (forall x y, path = x ++ y -> es !! tileNode r c x = None) ->
  exists es',
    findAndSplit fe n lat lon base b path es = Some es' /\
    consistent fe es' /\ chainFree fe lat lon r c es'.
Proof.
  intros Con. pose proof Con as [WP AC].
  induction n as [ | n IH ]; intros path b Op Cp Len Above.
  - exists es. split; [ reflexivity | ]. split; [ exact Con | ].
    intros p Hp. destruct (es !! tileNode r c p) as [e | ] eqn:E;
      [ exfalso | reflexivity ].
    destruct (WP _ _ E) as (_ & r' & c' & p' & cell & [Gr' Gc'] & [Ok' L']
                            & Eid & _).
    destruct grid as [Gr Gc].
    apply tileNode_inj in Eid; try lia;
      [ | eapply onChain_okQuadrant; eassumption | assumption ].
    destruct Eid as (_ & _ & <-).
    destruct (onChain_comparable _ _ _ _ _ Op Hp) as (x & [-> | ->]).
    + rewrite length_app in L'. destruct x; [ | cbn [length] in L'; lia ].
      rewrite (Above (path ++ []) []) in E; [ discriminate | ].
      rewrite !app_nil_r. reflexivity.
    + rewrite (Above p x eq_refl) in E. discriminate.
  - set (q := quadrantAt lat lon b).
    destruct (quadrantBounds_hole lat lon b) as [b' Hb]. fold q in Hb.
    assert (Op' : onChain lat lon B0 (path ++ [q])).
    { apply onChain_app. split; [ exact Op | ]. exists b.
      split; [ exact Cp | ]. split; [ reflexivity | ].
      exists b'. split; [ exact Hb | exact I ]. }
    assert (Cp' : cellOf B0 (path ++ [q]) = Some b').
    { rewrite cellOf_app, Cp. cbn [mbind option_bind cellOf]. rewrite Hb.
      reflexivity. }
    destruct (es !! nodeId base (path ++ [q])) as [e | ] eqn:L.
    + destruct (WP _ _ L) as [Sh _].
      destruct (findAndSplit_found es n b b' path e L Sh Hb) as (es' & R & Iff).
      exists es'. split; [ exact R | ].
      apply (consistent_extend fe lat lon r c good grid es
               (cleared base es (path ++ [q])) es' (path ++ [q]) b'
               (SPLIT_DEPTH fe - length (path ++ [q]))
               (length (path ++ [q]))); try assumption.
      * apply cleared_sub.
      * rewrite length_app in *. cbn [length] in *. lia.
      * intros x y E. apply snoc_split in E.
        destruct E as [[-> ->] | (y' & ->)].
        -- apply cleared_self.
        -- destruct (cleared base es _ !! tileNode r c x) as [e' | ] eqn:E';
             [ | reflexivity ].
           apply cleared_sub in E'. rewrite (Above x y' eq_refl) in E'.
           discriminate.
      * apply cleared_fresh.
    + rewrite (findAndSplit_down es n b b' path L Hb).
      apply IH; try assumption.
      * rewrite length_app. cbn [length]. lia.
      * intros x y E. apply snoc_split in E.
        destruct E as [[-> ->] | (y' & ->)]; [ exact L | ].
        apply (Above x y' eq_refl).
Qed.

End Branches.

(** ** One call *)

Section Call.

Variable fe : FrontEnd.
Variables lat lon : Q.
Hypothesis good : goodFrontEnd fe.

Let r : Z := row (latLonToTile lat lon (gridConfig fe)).
Let c : Z := col (latLonToTile lat lon (gridConfig fe)).
Let B0 : Bounds := baseBoundsAt fe lat lon.
Let base : string := baseIdAt fe lat lon.

Lemma base_tileNode (p : list Z) : nodeId base p = tileNode r c p.
Proof. reflexivity. Qed.

(** The first branch: the tile is shown.  Its entity is removed and the
    level loop runs from the raw cell, for all the levels. *)
Lemma removeOrSplit_shown (es : EntityCollection) (e : Entity) :
  es !! base = Some e -> show e = true ->
  freshBelow (remove base es) base [] ->
  exists es',
    removeOrSplitTileAt fe lat lon es = Some es' /\
    forall id e',
      es' !! id = Some e' <->
      remove base es !! id = Some e' \/
      created (gapForDepth fe) lat lon base (SPLIT_DEPTH fe) 0 B0 [] id e'.
Proof.
  intros L Sh Fresh. unfold removeOrSplitTileAt, getById.
  fold (baseIdAt fe lat lon). fold base. rewrite L, Sh.
  rewrite splitLevels_drill. apply drill_spec, Fresh.
Qed.

(** The second branch: the tile is not registered. *)
Lemma removeOrSplit_hidden (es : EntityCollection) :
  es !! base = None ->
  removeOrSplitTileAt fe lat lon es
  = findAndSplit fe (SPLIT_DEPTH fe) lat lon base B0 [] es.
Proof.
  intros L. unfold removeOrSplitTileAt, getById.
  fold (baseIdAt fe lat lon). fold base. rewrite L. reflexivity.
Qed.

Lemma consistent_freshBelow (es : EntityCollection) (path : list Z) :
  consistent fe es -> Forall okQuadrant path ->
  is_Some (es !! nodeId base path) ->
  freshBelow (remove (nodeId base path) es) base path.
Proof.
  intros [_ AC] Hpath Some p Hp Np. unfold remove.
  destruct (delete _ es !! _) as [e | ] eqn:E; [ exfalso | reflexivity ].
  apply lookup_delete_Some in E. destruct E as [_ E].
  apply Np. apply (AC r c path p); try assumption.
  - apply latLonToTile_inGrid, good.
  - eexists. exact E.
Qed.

(** A call does not throw on a consistent registry; it leaves a consistent
    registry in which nothing is registered along the holes of the point. *)
Lemma removeOrSplitTileAt_spec (es : EntityCollection) :
  consistent fe es ->
  exists es',
    removeOrSplitTileAt fe lat lon es = Some es' /\
    consistent fe es' /\ chainFree fe lat lon r c es'.
Proof.
  intros Con. pose proof Con as [WP AC].
  pose proof (latLonToTile_inGrid fe lat lon good) as grid. fold r c in grid.
  destruct (es !! base) as [e | ] eqn:L.
  - destruct (WP _ _ L) as [Sh _].
    assert (Fresh : freshBelow (remove base es) base []).
    { rewrite <- (nodeId_nil base) at 1.
      apply consistent_freshBelow; [ exact Con | constructor | ].
      rewrite nodeId_nil. eexists. exact L. }
    destruct (removeOrSplit_shown es e L Sh Fresh) as (es' & R & Iff).
    exists es'. split; [ exact R | ].
    apply (consistent_extend fe lat lon r c good grid es (remove base es) es'
             [] B0 (SPLIT_DEPTH fe) 0); try assumption.
    + intros id e'. unfold remove. intros H.
      apply lookup_delete_Some in H. apply H.
    + exact I.
    + reflexivity.
    + cbn [length]. lia.
    + intros x y E. symmetry in E. apply app_eq_nil in E. destruct E as [-> _].
      unfold tileNode. rewrite nodeId_nil. apply lookup_delete_eq.
  - rewrite (removeOrSplit_hidden es L).
    apply (findAndSplit_spec fe lat lon r c good grid es Con
             (SPLIT_DEPTH fe) [] B0).
    + exact I.
    + reflexivity.
    + cbn [length]. lia.
    + intros x y E. symmetry in E. apply app_eq_nil in E. destruct E as [-> _].
      unfold tileNode. rewrite nodeId_nil. exact L.
Qed.

(** A call at a point along whose holes nothing is registered changes
    nothing. *)
Lemma removeOrSplitTileAt_idle (es : EntityCollection) :
  chainFree fe lat lon r c es ->
  removeOrSplitTileAt fe lat lon es = Some es.
Proof.
  intros Free. rewrite removeOrSplit_hidden.
  - apply (findAndSplit_idle fe lat lon r c es Free); [ exact I | reflexivity ].
  - rewrite <- (nodeId_nil base). apply (Free []). exact I.
Qed.

End Call.

(** ** The registry after start-up *)

(** A loop of steps that can throw, over a list without repetition: when
    each step registers what [P] says on a registry that has none of it,
    and two steps never register the same identifier, the loop does not
    throw and registers what its steps do. *)
Lemma foldl_step_spec (A : Type)
    (step : A -> EntityCollection -> option EntityCollection)
    (P : A -> string -> Entity -> Prop) (l : list A) :
  (forall x es, x ∈ l ->
     (forall id e, P x id e -> es !! id = None) ->
     exists es', step x es = Some es' /\
       forall id e, es' !! id = Some e <-> es !! id = Some e \/ P x id e) ->
  (forall x y id e e', x ∈ l -> y ∈ l -> P x id e -> P y id e' -> x = y) ->
  NoDup l ->
  forall es : EntityCollection,
    (forall x id e, x ∈ l -> P x id e -> es !! id = None) ->
    exists es',
      foldl (fun acc x => es0 ← acc; step x es0) (Some es) l = Some es' /\
      forall id e,
        es' !! id = Some e <->
        es !! id = Some e \/ exists x, x ∈ l /\ P x id e.
Proof.
  induction l as [ | x l IH ]; intros Step Apart ND es Free.
  - exists es. split; [ reflexivity | ]. intros id e. split; [ auto | ].
    intros [H | (x & Hx & _)]; [ exact H | inversion Hx ].
  - apply NoDup_cons in ND. destruct ND as [Nx ND].
    destruct (Step x es) as (es1 & S1 & I1); [ left | | ].
    { intros id e. apply Free. left. }
    destruct (IH) with (es := es1) as (es' & F & I').
    + intros y es0 Hy. apply Step. right. exact Hy.
    + intros y z id e e' Hy Hz. apply Apart; right; assumption.
    + exact ND.
    + intros y id e Hy Py.
      destruct (es1 !! id) as [e1 | ] eqn:E; [ exfalso | reflexivity ].
      apply I1 in E. destruct E as [E | E].
      * rewrite (Free y id e) in E; [ discriminate | right; exact Hy | exact Py ].
      * apply Nx. rewrite (Apart x y id e1 e); try assumption;
          [ left | right; exact Hy ].
    + exists es'. cbn [foldl mbind option_bind]. rewrite S1.
      split; [ exact F | ]. intros id e. rewrite I', I1. split.
      * intros [[H | H] | (y & Hy & Py)].
        -- left. exact H.
        -- right. exists x. split; [ left | exact H ].
        -- right. exists y. split; [ right; exact Hy | exact Py ].
      * intros [H | (y & Hy & Py)]; [ left; left; exact H | ].
        apply elem_of_cons in Hy. destruct Hy as [-> | Hy].
        -- left. right. exact Py.
        -- right. exists y. split; assumption.
Qed.

Lemma indices_NoDup (n : Z) : NoDup (indices n).
Proof.
  unfold indices. apply (NoDup_fmap_2 Z.of_nat), NoDup_ListNoDup, seq_NoDup.
Qed.

Lemma tileIdToString_inj (r c r' c' : Z) :
  (0 <= r)%Z -> (0 <= c)%Z -> (0 <= r')%Z -> (0 <= c')%Z ->
  tileIdToString {| row := r; col := c |}
    = tileIdToString {| row := r'; col := c' |} ->
  r = r' /\ c = c'.
Proof.
  intros Hr Hc Hr' Hc' E.
  rewrite <- (nodeId_nil (tileIdToString {| row := r; col := c |})) in E.
  rewrite <- (nodeId_nil (tileIdToString {| row := r'; col := c' |})) in E.
  apply tileNode_inj in E;
    [ | assumption | assumption | assumption | assumption
      | constructor | constructor ].
  destruct E as (E1 & E2 & _). split; assumption.
Qed.

(** The start-up loops do not throw, and the registry they leave holds,
    for each cell of the grid and for nothing else, the margin-inset tile
    of that cell under its identifier. *)
Lemma initialEntities_spec (fe : FrontEnd) :
  exists es,
    initialEntities fe = Some es /\
    forall id e,
      es !! id = Some e <->
      exists r c : Z,
        inGrid fe r c /\ id = tileIdToString {| row := r; col := c |} /\
        e = {| rectangle := tileBounds r c (gridConfig fe) (TILE_GAP fe);
               show := true |}.
Proof.
  set (cell := fun (r c : Z) (id : string) (e : Entity) =>
         id = tileIdToString {| row := r; col := c |} /\
         e = {| rectangle := tileBounds r c (gridConfig fe) (TILE_GAP fe);
                show := true |}).
  set (inRow := fun (r : Z) (id : string) (e : Entity) =>
         exists c, c ∈ indices (lonCount (gridConfig fe)) /\ cell r c id e).
  assert (Row : forall r es, (0 <= r)%Z ->
            (forall id e, inRow r id e -> es !! id = None) ->
            exists es', addRow fe r es = Some es' /\
              forall id e, es' !! id = Some e <->
                           es !! id = Some e \/ inRow r id e).
  { intros r es Hr Free. unfold addRow.
    apply (foldl_step_spec Z
             (fun c es0 =>
                add (tileIdToString {| row := r; col := c |})
                    {| rectangle := tileBounds r c (gridConfig fe) (TILE_GAP fe);
                       show := true |} es0)
             (cell r)).
    - intros c es0 Hc Free0. unfold add.
      rewrite (Free0 _ _ (conj eq_refl eq_refl)).
      eexists. split; [ reflexivity | ]. intros id e. unfold cell. split.
      + intros H. apply lookup_insert_Some in H.
        destruct H as [[<- <-] | [_ H]]; [ right; split; reflexivity | left; exact H ].
      + intros [H | [-> ->]]; [ | apply lookup_insert_eq ].
        destruct (decide (tileIdToString {| row := r; col := c |} = id))
          as [<- | D]; [ | rewrite lookup_insert_ne by exact D; exact H ].
        rewrite (Free0 _ _ (conj eq_refl eq_refl)) in H. discriminate.
    - intros c c' id e e' Hc Hc' [-> _] [E _].
      apply indices_elem in Hc, Hc'.
      apply tileIdToString_inj in E; lia.
    - apply indices_NoDup.
    - intros c id e Hc Pc. apply (Free id e). exists c. split; assumption. }
  destruct (foldl_step_spec Z (addRow fe) inRow
              (indices (latCount (gridConfig fe)))) with (es := (∅ : EntityCollection))
    as (es & F & I).
  - intros r es Hr. apply Row. apply indices_elem in Hr. lia.
  - intros r r' id e e' Hr Hr' (c & Hc & -> & _) (c' & Hc' & E & _).
    apply indices_elem in Hr, Hr', Hc, Hc'.
    apply tileIdToString_inj in E; lia.
  - apply indices_NoDup.
  - intros. apply lookup_empty.
  - exists es. split; [ exact F | ]. intros id e. rewrite I. split.
    + intros [H | (r & Hr & c & Hc & -> & ->)].
      * rewrite lookup_empty in H. discriminate.
      * exists r, c. apply indices_elem in Hr, Hc.
        split; [ split; assumption | split; reflexivity ].
    + intros (r & c & [Hr Hc] & -> & ->). right.
      exists r. split; [ apply indices_elem, Hr | ].
      exists c. split; [ apply indices_elem, Hc | split; reflexivity ].
Qed.

Lemma initialEntities_lookup (fe : FrontEnd) (es : EntityCollection)
    (id : string) (e : Entity) :
  initialEntities fe = Some es -> es !! id = Some e ->
  exists r c : Z,
    inGrid fe r c /\ id = tileIdToString {| row := r; col := c |} /\
    e = {| rectangle := tileBounds r c (gridConfig fe) (TILE_GAP fe);
           show := true |}.
Proof.
  intros Init L. destruct (initialEntities_spec fe) as (es0 & Init0 & I).
  rewrite Init in Init0. injection Init0 as <-. apply I, L.
Qed.

Lemma startEntities_initial (fe : FrontEnd) :
  initialEntities fe = Some (startEntities fe).
Proof.
  unfold startEntities. destruct (initialEntities_spec fe) as (es & -> & _).
  reflexivity.
Qed.

Lemma startEntities_lookup (fe : FrontEnd) (r c : Z) :
  inGrid fe r c ->
  startEntities fe !! tileIdToString {| row := r; col := c |}
  = Some {| rectangle := tileBounds r c (gridConfig fe) (TILE_GAP fe);
            show := true |}.
Proof.
  intros G. destruct (initialEntities_spec fe) as (es & Init & I).
  unfold startEntities. rewrite Init. apply I. exists r, c.
  split; [ exact G | split; reflexivity ].
Qed.

(** A tile with its margin lies in the interior of its raw cell. *)
Lemma tileBounds_gap_interior (config : TileGridConfig) (r c : Z) (g : Q)
    (lat lon : Q) :
  (0 < latCount config)%Z -> (0 < lonCount config)%Z -> 0 < g ->
  contains (tileBounds r c config g) lat lon ->
  interior (tileBounds r c config 0) lat lon.
Proof.
  intros Hlat Hlon Hg. rewrite tileBounds_gap by exact Hg.
  rewrite tileBounds_0.
  pose proof (latStep_pos config Hlat) as SLat.
  pose proof (lonStep_pos config Hlon) as SLon.
  set (latStep := 180 / inject_Z (latCount config)) in *.
  set (lonStep := 360 / inject_Z (lonCount config)) in *.
  assert (0 < latStep * g) by (apply Qmult_lt_0_compat; assumption).
  assert (0 < lonStep * g) by (apply Qmult_lt_0_compat; assumption).
  unfold contains, interior; cbn [west east south north].
  intros (H1 & H2 & H3 & H4). repeat split; qlra.
Qed.

Lemma consistent_start (fe : FrontEnd) (es : EntityCollection) :
  goodFrontEnd fe -> initialEntities fe = Some es -> consistent fe es.
Proof.
  intros (Hlat & Hlon & Hgap) Init. split.
  - intros id e L.
    destruct (initialEntities_lookup fe es id e Init L)
      as (r & c & G & -> & ->).
    split; [ reflexivity | ].
    exists r, c, [], (tileBounds r c (gridConfig fe) 0).
    split; [ exact G | ]. split; [ split; [ constructor | cbn; lia ] | ].
    split; [ unfold tileNode; rewrite nodeId_nil; reflexivity | ].
    split; [ reflexivity | ]. cbn [rectangle]. intros lat lon.
    apply tileBounds_gap_interior; assumption.
  - intros r c p1 p2 [Gr Gc] H1 H2 [e1 E1] [e2 E2].
    destruct (initialEntities_lookup fe es _ e2 Init E2)
      as (r' & c' & [Gr' Gc'] & Eid & _).
    rewrite <- (nodeId_nil (tileIdToString _)) in Eid.
    apply tileNode_inj in Eid; try lia;
      [ | apply Forall_app; split; assumption | constructor ].
    destruct Eid as (_ & _ & Eid). apply app_eq_nil in Eid. apply Eid.
Qed.

(** Every registry the front-end can be in is consistent. *)
Lemma reachable_consistent (fe : FrontEnd) (es : EntityCollection) :
  goodFrontEnd fe -> reachable fe es -> consistent fe es.
Proof.
  intros Good R. induction R as [ es Init | es es' lat lon _ IH Call ].
  - apply consistent_start; assumption.
  - destruct (removeOrSplitTileAt_spec fe lat lon Good es IH)
      as (es'' & Call' & Con & _).
    rewrite Call in Call'. injection Call' as <-. exact Con.
Qed.

(** After a call on a reachable registry no entity contains the point, and
    nothing is registered along its holes. *)
Lemma removeOrSplitTileAt_hole (fe : FrontEnd) (lat lon : Q)
    (es : EntityCollection) :
  goodFrontEnd fe -> reachable fe es ->
  exists es',
    removeOrSplitTileAt fe lat lon es = Some es' /\
    (forall id e, es' !! id = Some e -> ~ contains (rectangle e) lat lon) /\
    (forall k : nat,
       es' !! nodeId (baseIdAt fe lat lon)
                     (holePath k lat lon (baseBoundsAt fe lat lon)) = None).
Proof.
  intros Good R. pose proof (reachable_consistent fe es Good R) as Con.
  destruct (removeOrSplitTileAt_spec fe lat lon Good es Con)
    as (es' & Call & [WP _] & Free).
  exists es'. split; [ exact Call | ]. split.
  - intros id e L In.
    destruct (WP _ _ L) as (_ & r & c & p & cell & [Gr Gc] & _ & -> & C & Int).
    destruct (cellOf_interior _ _ _ _ _ C (Int _ _ In)) as [I0 O].
    destruct Good as (Hlat & Hlon & _).
    destruct I0 as (I1 & I2 & I3 & I4).
    assert (T : latLonToTile lat lon (gridConfig fe) = {| row := r; col := c |})
      by (apply latLonToTile_cell; try assumption; lra).
    unfold chainFree in Free. rewrite T in Free. cbn [row col] in Free.
    rewrite (Free p O) in L. discriminate.
  - intros k. apply Free. apply holePath_onChain.
Qed.

(** ** A split, and a split of one of its leaves *)

Lemma snoc_eq_one (A : Type) (l : list A) (x a : A) :
  l ++ [x] = [a] -> l = [] /\ x = a.
Proof. intros E. apply (app_inj_tail l [] x a) in E. exact E. Qed.

Lemma snoc_eq_two (A : Type) (l : list A) (x a b : A) :
  l ++ [x] = [a; b] -> l = [a] /\ x = b.
Proof. intros E. apply (app_inj_tail l [a] x b) in E. exact E. Qed.

Section Scenario.

Variable fe : FrontEnd.
Variables lat lon : Q.
Hypothesis good : goodFrontEnd fe.

Let r : Z := row (latLonToTile lat lon (gridConfig fe)).
Let c : Z := col (latLonToTile lat lon (gridConfig fe)).
Let B0 : Bounds := baseBoundsAt fe lat lon.
Let base : string := baseIdAt fe lat lon.
Let holeQ : Z := quadrantAt lat lon B0.

(** Splitting a shown tile: the tile goes, each quadrant but the hole gets
    a new entity with the margin of depth 0, the hole gets none, and
    nothing is registered yet below the new entities. *)
Lemma split_shown_tile (es : EntityCollection) (e : Entity) (m : nat) :
  consistent fe es -> es !! base = Some e -> SPLIT_DEPTH fe = S m ->
  exists es1,
    removeOrSplitTileAt fe lat lon es = Some es1 /\
    es1 !! base = None /\
    (forall q qb, okQuadrant q -> q <> holeQ ->
       quadrantBounds B0 q = Some qb ->
       es !! freshSubId base [] q = None /\
       es1 !! freshSubId base [] q
         = Some {| rectangle := insetBounds qb (gapForDepth fe 0);
                   show := true |}) /\
    es1 !! freshSubId base [] holeQ = None /\
    (forall q1 q, okQuadrant q1 -> q1 <> holeQ -> okQuadrant q ->
       es1 !! subId base [q1] q = None).
Proof.
  intros Con L Depth. pose proof Con as [WP AC].
  pose proof (latLonToTile_inGrid fe lat lon good) as grid. fold r c in grid.
  destruct (WP _ _ L) as [Sh _].
  assert (Below : forall p, Forall okQuadrant p -> p <> [] ->
                    es !! nodeId base p = None).
  { intros p Hp Np. destruct (es !! nodeId base p) as [e' | ] eqn:E;
      [ exfalso | reflexivity ].
    apply Np. apply (AC r c [] p); try assumption; [ constructor | | ].
    - unfold tileNode. rewrite nodeId_nil. eexists. exact L.
    - eexists. exact E. }
  assert (Fresh : freshBelow (remove base es) base []).
  { intros p Hp Np. unfold remove. cbn [app].
    destruct (delete _ es !! _) as [e' | ] eqn:E; [ | reflexivity ].
    apply lookup_delete_Some in E. destruct E as [_ E].
    rewrite Below in E by assumption. discriminate. }
  destruct (removeOrSplit_shown fe lat lon es e L Sh Fresh) as (es1 & R & Iff).
  fold base B0 in Iff.
  assert (Old : forall p e', Forall okQuadrant p -> p <> [] ->
                  remove base es !! nodeId base p = Some e' -> False).
  { intros p e' Hp Np E. unfold remove in E.
    apply lookup_delete_Some in E. destruct E as [_ E].
    rewrite Below in E by assumption. discriminate. }
  exists es1. split; [ exact R | ]. repeat apply conj.
  - destruct (es1 !! base) as [e' | ] eqn:E; [ exfalso | reflexivity ].
    apply Iff in E. destruct E as [E | E].
    + unfold remove in E. rewrite lookup_delete_eq in E. discriminate.
    + apply created_node in E.
      destruct E as (cc & q & _ & _ & Eid & Hp & _).
      rewrite <- (nodeId_nil base) in Eid at 1.
      apply nodeId_inj in Eid; [ | constructor | exact Hp ].
      destruct cc; discriminate.
  - intros q qb Oq Nq Hb. rewrite freshSubId_nodeId. cbn [app]. split.
    + apply Below; [ | discriminate ]. constructor; [ exact Oq | constructor ].
    + apply Iff. right. rewrite Depth.
      apply (created_here (gapForDepth fe) lat lon base m 0 B0 [] q qb);
        assumption.
  - rewrite freshSubId_nodeId. cbn [app].
    destruct (es1 !! _) as [e' | ] eqn:E; [ exfalso | reflexivity ].
    apply Iff in E. destruct E as [E | E].
    + apply (Old [holeQ] e'); [ | discriminate | exact E ].
      constructor; [ apply quadrantAt_range | constructor ].
    + apply created_node in E.
      destruct E as (cc & q & _ & _ & Eid & Hp & _ & _ & Off & _).
      apply nodeId_inj in Eid;
        [ | constructor; [ apply quadrantAt_range | constructor ] | exact Hp ].
      cbn [app] in Eid. symmetry in Eid. apply snoc_eq_one in Eid.
      destruct Eid as [-> ->]. apply (Off []). cbn [app onChain].
      split; [ reflexivity | ].
      destruct (quadrantBounds_hole lat lon B0) as [b' Hb'].
      exists b'. split; [ exact Hb' | exact I ].
  - intros q1 q O1 N1 Oq. rewrite subId_nodeId by discriminate. cbn [app].
    assert (Hp : Forall okQuadrant [q1; q])
      by (constructor; [ exact O1 | constructor; [ exact Oq | constructor ] ]).
    destruct (es1 !! _) as [e' | ] eqn:E; [ exfalso | reflexivity ].
    apply Iff in E. destruct E as [E | E].
    + apply (Old [q1; q] e'); [ exact Hp | discriminate | exact E ].
    + apply created_node in E.
      destruct E as (cc & q' & _ & _ & Eid & Hp' & On & _).
      apply nodeId_inj in Eid; [ | exact Hp | exact Hp' ].
      cbn [app] in Eid. symmetry in Eid. apply snoc_eq_two in Eid.
      destruct Eid as [-> ->]. cbn [onChain] in On. destruct On as [On _].
      apply N1. exact On.
Qed.

(** The same call, level by level: along the holes of the point, each level
    down to the maximum depth gets an entity for every quadrant but its
    hole, with the margin of that level, and the hole gets none. *)
Lemma split_shown_levels (es es1 : EntityCollection) (e : Entity) (k : nat)
    (cb : Bounds) :
  consistent fe es -> es !! base = Some e ->
  removeOrSplitTileAt fe lat lon es = Some es1 ->
  (k < SPLIT_DEPTH fe)%nat ->
  cellOf B0 (holePath k lat lon B0) = Some cb ->
  (forall q qb, okQuadrant q -> q <> quadrantAt lat lon cb ->
     quadrantBounds cb q = Some qb ->
     es1 !! nodeId base (holePath k lat lon B0 ++ [q])
       = Some {| rectangle := insetBounds qb (gapForDepth fe k);
                 show := true |}) /\
  es1 !! nodeId base (holePath k lat lon B0 ++ [quadrantAt lat lon cb]) = None.
Proof.
  intros Con L R Lt C. pose proof Con as [WP AC].
  destruct (WP _ _ L) as [Sh _].
  assert (Fresh : freshBelow (remove base es) base []).
  { rewrite <- (nodeId_nil base) at 1.
    apply (consistent_freshBelow fe lat lon good es []);
      [ exact Con | constructor | ].
    rewrite nodeId_nil. eexists. exact L. }
  destruct (removeOrSplit_shown fe lat lon es e L Sh Fresh) as (es1' & R' & Iff).
  rewrite R in R'. injection R' as <-. fold base B0 in Iff.
  destruct (removeOrSplitTileAt_spec fe lat lon good es Con)
    as (es1' & R' & _ & Free).
  rewrite R in R'. injection R' as <-.
  split.
  - intros q qb Oq Nq Hq. apply Iff. right.
    apply (created_along (gapForDepth fe) lat lon base k (SPLIT_DEPTH fe) 0
             B0 [] q cb qb); assumption.
  - apply (Free (holePath k lat lon B0 ++ [quadrantAt lat lon cb])).
    apply onChain_app. split; [ apply holePath_onChain | ].
    exists cb. split; [ exact C | ]. split; [ reflexivity | ].
    destruct (quadrantBounds_hole lat lon cb) as [b' Hb'].
    exists b'. split; [ exact Hb' | exact I ].
Qed.

(** Splitting a leaf of depth 1: the leaf goes, each of its quadrants but
    the hole gets a new entity with the margin of depth 1, the hole none. *)
Lemma split_leaf (es : EntityCollection) (e1 : Entity) (b1 : Bounds)
    (m : nat) :
  consistent fe es -> es !! base = None ->
  es !! freshSubId base [] holeQ = Some e1 ->
  quadrantBounds B0 holeQ = Some b1 ->
  SPLIT_DEPTH fe = S (S m) ->
  exists es2,
    removeOrSplitTileAt fe lat lon es = Some es2 /\
    es2 !! freshSubId base [] holeQ = None /\
    (forall q qb, okQuadrant q -> q <> quadrantAt lat lon b1 ->
       quadrantBounds b1 q = Some qb ->
       es2 !! subId base [holeQ] q
         = Some {| rectangle := insetBounds qb (gapForDepth fe 1);
                   show := true |}) /\
    es2 !! subId base [holeQ] (quadrantAt lat lon b1) = None.
Proof.
  intros Con L0 L1 Hb Depth. pose proof Con as [WP AC].
  rewrite freshSubId_nodeId. rewrite freshSubId_nodeId in L1.
  destruct (WP _ _ L1) as [Sh _].
  rewrite (removeOrSplit_hidden fe lat lon es L0). fold base B0.
  rewrite Depth.
  destruct (findAndSplit_found fe lat lon r c es (S m) B0 b1 [] e1 L1 Sh Hb)
    as (es2 & R & Iff).
  change (tileIdToString {| row := r; col := c |}) with base in Iff.
  fold holeQ in Iff. cbn [app length] in Iff. rewrite Depth in Iff.
  replace (S (S m) - 1)%nat with (S m) in Iff by lia.
  exists es2. split; [ exact R | ]. cbn [app]. repeat apply conj.
  - destruct (es2 !! _) as [e' | ] eqn:E; [ exfalso | reflexivity ].
    apply Iff in E. destruct E as [E | E].
    + rewrite (cleared_self base es [holeQ]) in E. discriminate.
    + apply created_node in E.
      destruct E as (cc & q & _ & _ & Eid & Hp & _).
      apply nodeId_inj in Eid.
      * apply (f_equal (@length Z)) in Eid.
        rewrite !length_app in Eid. cbn [length] in Eid. lia.
      * constructor; [ apply quadrantAt_range | constructor ].
      * constructor; [ apply quadrantAt_range | exact Hp ].
  - intros q qb Oq Nq Hq. rewrite subId_nodeId by discriminate.
    apply Iff. right.
    apply (created_here (gapForDepth fe) lat lon base m 1 b1 [holeQ] q qb);
      assumption.
  - rewrite subId_nodeId by discriminate.
    destruct (es2 !! _) as [e' | ] eqn:E; [ exfalso | reflexivity ].
    apply Iff in E. destruct E as [E | E].
    + rewrite (cleared_fresh base es [holeQ]) in E;
        [ discriminate | | discriminate ].
      constructor; [ apply quadrantAt_range | constructor ].
    + apply created_node in E.
      destruct E as (cc & q & _ & _ & Eid & Hp & _ & _ & Off & _).
      apply nodeId_inj in Eid.
      * apply app_inv_head in Eid. symmetry in Eid. apply snoc_eq_one in Eid.
        destruct Eid as [-> ->]. apply (Off []). cbn [app onChain].
        split; [ reflexivity | ].
        destruct (quadrantBounds_hole lat lon b1) as [b' Hb'].
        exists b'. split; [ exact Hb' | exact I ].
      * constructor; [ apply quadrantAt_range | ].
        constructor; [ apply quadrantAt_range | constructor ].
      * constructor; [ apply quadrantAt_range | exact Hp ].
Qed.

End Scenario.

Lemma subTilesShown_three (es : EntityCollection) (mkId : Z -> string)
    (h : Z) :
  okQuadrant h ->
  (forall q, okQuadrant q -> q <> h -> is_Some (es !! mkId q)) ->
  es !! mkId h = None ->
  subTilesShown es mkId = 3%nat.
Proof.
  intros Oh Shown Hole. unfold subTilesShown.
  assert (T : forall q, okQuadrant q -> q <> h ->
                bool_decide (is_Some (es !! mkId q)) = true)
    by (intros q Oq Nq; apply bool_decide_eq_true, Shown; assumption).
  assert (F : bool_decide (is_Some (es !! mkId h)) = false).
  { apply bool_decide_eq_false. rewrite Hole. intros [x X]. discriminate. }
  unfold okQuadrant in *.
  assert (C : h = 0%Z \/ h = 1%Z \/ h = 2%Z \/ h = 3%Z) by lia.
  destruct C as [-> | [-> | [-> | ->]]]; cbn [List.filter];
    rewrite F, !T by lia; reflexivity.
Qed.

Lemma subTilesShown_none (es : EntityCollection) (mkId : Z -> string) :
  (forall q, okQuadrant q -> es !! mkId q = None) ->
  subTilesShown es mkId = 0%nat.
Proof.
  intros None. unfold subTilesShown. cbn [List.filter].
  assert (F : forall q, okQuadrant q ->
                bool_decide (is_Some (es !! mkId q)) = false).
  { intros q Oq. apply bool_decide_eq_false. rewrite None by exact Oq.
    intros [x X]. discriminate. }
  unfold okQuadrant in F. rewrite !F by lia. reflexivity.
Qed.

Lemma followFrontEnd_good : goodFrontEnd followFrontEnd.
Proof. repeat split. Qed.

(** ** The controller, call by call *)

(** C1, on the code: on a registry the front-end can be in, a call at a
    point whose top-level tile is shown removes the entity of that tile and
    registers exactly three entities at depth 1, one for each quadrant but
    the hole, with the margin of depth 0; the hole gets none.  The same call
    goes on inside the hole: at every level down to the maximum depth it
    registers three entities and leaves the hole of that level empty.  A
    further call at a point of the same tile that lies in one of the three
    quadrants of depth 1 removes the entity of that quadrant and registers
    exactly three entities at depth 2 inside it, with the margin of depth 1,
    which is smaller than that of depth 0; the hole of that level gets
    none. *)
Theorem split_then_split_leaf (es : EntityCollection) (lat lon : Q)
    (e : Entity) :
  reachable followFrontEnd es ->
  es !! baseIdAt followFrontEnd lat lon = Some e -> show e = true ->
  exists es1,
    removeOrSplitTileAt followFrontEnd lat lon es = Some es1 /\
    es1 !! baseIdAt followFrontEnd lat lon = None /\
    (forall q qb,
       okQuadrant q ->
       q <> quadrantAt lat lon (baseBoundsAt followFrontEnd lat lon) ->
       quadrantBounds (baseBoundsAt followFrontEnd lat lon) q = Some qb ->
       es !! freshSubId (baseIdAt followFrontEnd lat lon) [] q = None /\
       es1 !! freshSubId (baseIdAt followFrontEnd lat lon) [] q
         = Some {| rectangle := insetBounds qb (gapForDepth followFrontEnd 0);
                   show := true |}) /\
    es1 !! freshSubId (baseIdAt followFrontEnd lat lon) []
             (quadrantAt lat lon (baseBoundsAt followFrontEnd lat lon))
      = None /\
    subTilesShown es1 (freshSubId (baseIdAt followFrontEnd lat lon) [])
      = 3%nat /\
    (forall (k : nat) (cb : Bounds),
       (k < SPLIT_DEPTH followFrontEnd)%nat ->
       cellOf (baseBoundsAt followFrontEnd lat lon)
              (holePath k lat lon (baseBoundsAt followFrontEnd lat lon))
         = Some cb ->
       subTilesShown es1
         (fun q => nodeId (baseIdAt followFrontEnd lat lon)
                     (holePath k lat lon (baseBoundsAt followFrontEnd lat lon)
                      ++ [q])) = 3%nat /\
       es1 !! nodeId (baseIdAt followFrontEnd lat lon)
                (holePath k lat lon (baseBoundsAt followFrontEnd lat lon)
                 ++ [quadrantAt lat lon cb]) = None) /\
    forall (lat2 lon2 : Q) (q1 : Z),
      latLonToTile lat2 lon2 (gridConfig followFrontEnd)
        = latLonToTile lat lon (gridConfig followFrontEnd) ->
      q1 = quadrantAt lat2 lon2 (baseBoundsAt followFrontEnd lat lon) ->
      q1 <> quadrantAt lat lon (baseBoundsAt followFrontEnd lat lon) ->
      exists es2 b1,
        quadrantBounds (baseBoundsAt followFrontEnd lat lon) q1 = Some b1 /\
        removeOrSplitTileAt followFrontEnd lat2 lon2 es1 = Some es2 /\
        is_Some (es1 !! freshSubId (baseIdAt followFrontEnd lat lon) [] q1) /\
        es2 !! freshSubId (baseIdAt followFrontEnd lat lon) [] q1 = None /\
        (forall q qb,
           okQuadrant q -> q <> quadrantAt lat2 lon2 b1 ->
           quadrantBounds b1 q = Some qb ->
           es1 !! subId (baseIdAt followFrontEnd lat lon) [q1] q = None /\
           es2 !! subId (baseIdAt followFrontEnd lat lon) [q1] q
             = Some {| rectangle :=
                         insetBounds qb (gapForDepth followFrontEnd 1);
                       show := true |}) /\
        es2 !! subId (baseIdAt followFrontEnd lat lon) [q1]
                 (quadrantAt lat2 lon2 b1) = None /\
        subTilesShown es2 (subId (baseIdAt followFrontEnd lat lon) [q1])
          = 3%nat /\
        gapForDepth followFrontEnd 1 < gapForDepth followFrontEnd 0.
Proof.
  intros Reach L Sh.
  pose proof (reachable_consistent _ _ followFrontEnd_good Reach) as Con.
  destruct (split_shown_tile followFrontEnd lat lon followFrontEnd_good
              es e 14 Con L eq_refl)
    as (es1 & R1 & Gone & New1 & Hole1 & Deep1).
  destruct (removeOrSplitTileAt_spec followFrontEnd lat lon
              followFrontEnd_good es Con) as (es1' & R1' & Con1 & _).
  rewrite R1 in R1'. injection R1' as <-.
  exists es1. split; [ exact R1 | ]. split; [ exact Gone | ].
  split; [ exact New1 | ]. split; [ exact Hole1 | ].
  split.
  { apply (subTilesShown_three es1 _
             (quadrantAt lat lon (baseBoundsAt followFrontEnd lat lon))).
    - apply quadrantAt_range.
    - intros q Oq Nq. destruct (quadrantBounds_Some
        (baseBoundsAt followFrontEnd lat lon) q Oq) as [qb Hb].
      destruct (New1 q qb Oq Nq Hb) as [_ S1]. eexists. exact S1.
    - exact Hole1. }
  split.
  { intros k cb Lt C.
    destruct (split_shown_levels followFrontEnd lat lon followFrontEnd_good
                es es1 e k cb Con L R1 Lt C) as [Shown Hole].
    split; [ | exact Hole ].
    apply (subTilesShown_three es1 _ (quadrantAt lat lon cb)).
    - apply quadrantAt_range.
    - intros q Oq Nq. destruct (quadrantBounds_Some cb q Oq) as [qb Hq].
      eexists. apply (Shown q qb); assumption.
    - exact Hole. }
  intros lat2 lon2 q1 Tile Eq1 Nq1.
  assert (Oq1 : okQuadrant q1) by (subst q1; apply quadrantAt_range).
  destruct (quadrantBounds_Some (baseBoundsAt followFrontEnd lat lon) q1 Oq1)
    as [b1 Hb1].
  destruct (New1 q1 b1 Oq1 Nq1 Hb1) as [_ Leaf].
  assert (Base : baseIdAt followFrontEnd lat2 lon2
                 = baseIdAt followFrontEnd lat lon)
    by (unfold baseIdAt; rewrite Tile; reflexivity).
  assert (Bounds0 : baseBoundsAt followFrontEnd lat2 lon2
                    = baseBoundsAt followFrontEnd lat lon)
    by (unfold baseBoundsAt; rewrite Tile; reflexivity).
  destruct (split_leaf followFrontEnd lat2 lon2 es1
              {| rectangle := insetBounds b1 (gapForDepth followFrontEnd 0);
                 show := true |} b1 13 Con1)
    as (es2 & R2 & Gone2 & New2 & Hole2); try reflexivity.
  - rewrite Base. exact Gone.
  - rewrite Base, Bounds0, <- Eq1. exact Leaf.
  - rewrite Bounds0, <- Eq1. exact Hb1.
  - rewrite Base, Bounds0, <- Eq1 in *.
    exists es2, b1. split; [ exact Hb1 | ]. split; [ exact R2 | ].
    split; [ eexists; exact Leaf | ]. split; [ exact Gone2 | ].
    split; [ | split; [ exact Hole2 | split; [ | reflexivity ] ] ].
    + intros q qb Oq Nq Hq. split; [ | apply New2; assumption ].
      apply Deep1; assumption.
    + apply (subTilesShown_three es2 _ (quadrantAt lat2 lon2 b1)).
      * apply quadrantAt_range.
      * intros q Oq Nq. destruct (quadrantBounds_Some b1 q Oq) as [qb Hq].
        eexists. apply New2; eassumption.
      * exact Hole2.
Qed.

Lemma split_then_split_leaf_witness :
  reachable followFrontEnd (startEntities followFrontEnd) /\
  startEntities followFrontEnd !! baseIdAt followFrontEnd 10 10
    = Some {| rectangle := tileBounds 10 19 (gridConfig followFrontEnd)
                                      (TILE_GAP followFrontEnd);
              show := true |} /\
  show {| rectangle := tileBounds 10 19 (gridConfig followFrontEnd)
                                  (TILE_GAP followFrontEnd);
          show := true |} = true /\
  exists es1,
    removeOrSplitTileAt followFrontEnd 10 10 (startEntities followFrontEnd)
      = Some es1 /\
    es1 !! baseIdAt followFrontEnd 10 10 = None /\
    subTilesShown es1 (freshSubId (baseIdAt followFrontEnd 10 10) []) = 3%nat.
Proof.
  assert (H1 : reachable followFrontEnd (startEntities followFrontEnd))
    by (apply reachable_start, startEntities_initial).
  assert (H2 : startEntities followFrontEnd !! baseIdAt followFrontEnd 10 10
               = Some {| rectangle := tileBounds 10 19 (gridConfig followFrontEnd)
                                                 (TILE_GAP followFrontEnd);
                         show := true |})
    by (apply (startEntities_lookup followFrontEnd 10 19); split; simpl; lia).
  split; [ exact H1 | ]. split; [ exact H2 | ]. split; [ reflexivity | ].
  destruct (split_then_split_leaf (startEntities followFrontEnd) 10 10 _
              H1 H2 eq_refl) as (es1 & R & Gone & _ & _ & Three & _).
  exists es1. split; [ exact R | ]. split; [ exact Gone | exact Three ].
Defined.

(** C1 as it is worded fails on the code.  On the start-up
    registry the tile of the point (10, 10) is [tile_10_19] and has never
    been split.  The first call at (10, 10) already registers the three
    entities of depth 2 inside the hole of depth 1, and a second call at the
    same point, which is in the hole at every depth, registers nothing and
    removes nothing: it leaves the registry as it is. *)
Lemma second_call_in_hole_changes_nothing :
  is_Some (startEntities followFrontEnd !! "tile_10_19") /\
  baseIdAt followFrontEnd 10 10 = "tile_10_19" /\
  quadrantAt 10 10 (baseBoundsAt followFrontEnd 10 10) = 0%Z /\
  exists es1,
    removeOrSplitTileAt followFrontEnd 10 10 (startEntities followFrontEnd)
      = Some es1 /\
    es1 !! "tile_10_19_0" = None /\
    is_Some (es1 !! "tile_10_19_0_1") /\
    is_Some (es1 !! "tile_10_19_0_2") /\
    is_Some (es1 !! "tile_10_19_0_3") /\
    removeOrSplitTileAt followFrontEnd 10 10 es1 = Some es1.
Proof.
  assert (Con : consistent followFrontEnd (startEntities followFrontEnd))
    by (apply consistent_start;
        [ apply followFrontEnd_good | apply startEntities_initial ]).
  assert (L : startEntities followFrontEnd !! baseIdAt followFrontEnd 10 10
              = Some {| rectangle := tileBounds 10 19 (gridConfig followFrontEnd)
                                                (TILE_GAP followFrontEnd);
                        show := true |})
    by (apply (startEntities_lookup followFrontEnd 10 19); split; simpl; lia).
  split; [ eexists; exact L | ]. split; [ reflexivity | ].
  split; [ reflexivity | ].
  destruct (removeOrSplitTileAt_spec followFrontEnd 10 10 followFrontEnd_good
              _ Con) as (es1 & R & _ & Free).
  destruct (cellOf (baseBoundsAt followFrontEnd 10 10)
                    (holePath 1 10 10 (baseBoundsAt followFrontEnd 10 10)))
    as [cb | ] eqn:C; [ | vm_compute in C; discriminate ].
  assert (H0 : quadrantAt 10 10 cb = 0%Z).
  { vm_compute in C. injection C as <-. vm_compute. reflexivity. }
  destruct (split_shown_levels followFrontEnd 10 10 followFrontEnd_good
              _ es1 _ 1 cb Con L R ltac:(simpl; lia) C) as [Shown Hole].
  exists es1. split; [ exact R | ].
  split.
  { apply (Free [0%Z]). split; [ reflexivity | ].
    eexists. split; [ reflexivity | exact I ]. }
  assert (S : forall q, okQuadrant q -> q <> 0%Z ->
            is_Some (es1 !! nodeId (baseIdAt followFrontEnd 10 10) [0%Z; q])).
  { intros q Oq Nq. destruct (quadrantBounds_Some cb q Oq) as [qb Hq].
    eexists. apply (Shown q qb); [ exact Oq | congruence | exact Hq ]. }
  split; [ apply (S 1%Z); [ split | ]; lia | ].
  split; [ apply (S 2%Z); [ split | ]; lia | ].
  split; [ apply (S 3%Z); [ split | ]; lia | ].
  apply (removeOrSplitTileAt_idle followFrontEnd 10 10), Free.
Qed.

(** C2: on a registry the front-end can be in, a call at a point does not
    throw and leaves a registry in which no entity has the point in its
    rectangle or on its boundary; no node along the holes of the point is
    registered, at the maximum depth or at any other. *)
Theorem hole_left_unfilled (es : EntityCollection) (lat lon : Q) :
  reachable followFrontEnd es ->
  exists es',
    removeOrSplitTileAt followFrontEnd lat lon es = Some es' /\
    (forall id e, es' !! id = Some e -> ~ contains (rectangle e) lat lon) /\
    es' !! nodeId (baseIdAt followFrontEnd lat lon)
                  (holePath (SPLIT_DEPTH followFrontEnd) lat lon
                            (baseBoundsAt followFrontEnd lat lon)) = None /\
    (forall k : nat,
       es' !! nodeId (baseIdAt followFrontEnd lat lon)
                     (holePath k lat lon (baseBoundsAt followFrontEnd lat lon))
       = None).
Proof.
  intros Reach.
  destruct (removeOrSplitTileAt_hole followFrontEnd lat lon es
              followFrontEnd_good Reach) as (es' & R & NoEntity & Chain).
  exists es'. split; [ exact R | ]. split; [ exact NoEntity | ].
  split; [ apply Chain | exact Chain ].
Qed.

Lemma hole_left_unfilled_witness :
  reachable followFrontEnd (startEntities followFrontEnd) /\
  exists es',
    removeOrSplitTileAt followFrontEnd 10 10 (startEntities followFrontEnd)
      = Some es' /\
    (forall id e, es' !! id = Some e -> ~ contains (rectangle e) 10 10).
Proof.
  assert (H1 : reachable followFrontEnd (startEntities followFrontEnd))
    by (apply reachable_start, startEntities_initial).
  split; [ exact H1 | ].
  destruct (hole_left_unfilled (startEntities followFrontEnd) 10 10 H1)
    as (es' & R & NoEntity & _).
  exists es'. split; [ exact R | exact NoEntity ].
Defined.

(** * Further properties of the grid math *)

(** X1: whatever the latitude and longitude, in range or not, the tile of
    [latLonToTile] is a tile of the grid; a latitude of 90 or more falls in
    the last row and one below -90 in row 0, and likewise a longitude of 180
    or more in the last column and one below -180 in column 0. *)
Theorem latLonToTile_total_range (lat lon : Q) (config : TileGridConfig) :
  (0 < latCount config)%Z -> (0 < lonCount config)%Z ->
  (0 <= row (latLonToTile lat lon config) < latCount config)%Z /\
  (0 <= col (latLonToTile lat lon config) < lonCount config)%Z /\
  (90 <= lat -> row (latLonToTile lat lon config) = (latCount config - 1)%Z) /\
  (lat < -90 -> row (latLonToTile lat lon config) = 0%Z) /\
  (180 <= lon -> col (latLonToTile lat lon config) = (lonCount config - 1)%Z) /\
  (lon < -180 -> col (latLonToTile lat lon config) = 0%Z).
Proof.
  intros Hlat Hlon.
  pose proof (latStep_pos config Hlat) as SLat.
  pose proof (lonStep_pos config Hlon) as SLon.
  pose proof (latStep_total config Hlat) as TLat.
  pose proof (lonStep_total config Hlon) as TLon.
  unfold latLonToTile. cbn [row col].
  set (latStep := 180 / inject_Z (latCount config)) in *.
  set (lonStep := 360 / inject_Z (lonCount config)) in *.
  assert (High : forall x step n, 0 < step -> inject_Z n * step <= x ->
                   (n <= Qfloor (x / step))%Z).
  { intros x step n Hs Hx. rewrite <- (Qfloor_Z n).
    apply Qfloor_resp_le, Qle_shift_div_l; assumption. }
  assert (Low : forall x step, 0 < step -> x < 0 ->
                  (Qfloor (x / step) < 0)%Z).
  { intros x step Hs Hx.
    pose proof (Qfloor_le (x / step)) as F.
    assert (x / step < 0).
    { apply Qlt_shift_div_r; [ exact Hs | lra ]. }
    assert (L : inject_Z (Qfloor (x / step)) < inject_Z 0)
      by (change (inject_Z 0) with 0; lra).
    rewrite <- Zlt_Qlt in L. exact L. }
  repeat apply conj; try lia.
  - intros H.
    assert (A : inject_Z (latCount config) * latStep <= lat + 90) by lra.
    pose proof (High (lat + 90) latStep (latCount config) SLat A). lia.
  - intros H. assert (A : lat + 90 < 0) by lra.
    pose proof (Low (lat + 90) latStep SLat A). lia.
  - intros H.
    assert (A : inject_Z (lonCount config) * lonStep <= lon + 180) by lra.
    pose proof (High (lon + 180) lonStep (lonCount config) SLon A). lia.
  - intros H. assert (A : lon + 180 < 0) by lra.
    pose proof (Low (lon + 180) lonStep SLon A). lia.
Qed.

Lemma latLonToTile_total_range_witness :
  (0 < latCount followGrid)%Z /\ (0 < lonCount followGrid)%Z /\
  (0 <= row (latLonToTile 95 (-200) followGrid) < latCount followGrid)%Z /\
  (0 <= col (latLonToTile 95 (-200) followGrid) < lonCount followGrid)%Z.
Proof.
  assert (H1 : (0 < latCount followGrid)%Z) by (simpl; lia).
  assert (H2 : (0 < lonCount followGrid)%Z) by (simpl; lia).
  split; [ exact H1 | ]. split; [ exact H2 | ].
  destruct (latLonToTile_total_range 95 (-200) followGrid H1 H2)
    as (A & B & _).
  split; assumption.
Defined.










(** X7: [quadrantBounds] has a result exactly for the quadrants 0 to 3, and
    [quadrantAt] returns one of these whatever the point and the rectangle,
    proper or not, so that the quadrant of a point is always defined. *)
Theorem quadrant_defined (b : Bounds) (lat lon : Q) :
  (forall q : Z, quadrantBounds b q = None <-> ~ (0 <= q <= 3)%Z) /\
  (0 <= quadrantAt lat lon b <= 3)%Z /\
  is_Some (quadrantBounds b (quadrantAt lat lon b)).
Proof.
  repeat apply conj.
  - intros q. split.
    + intros N R. destruct (quadrantBounds_Some b q R) as [qb E]. congruence.
    + intros N. destruct (quadrantBounds b q) as [qb | ] eqn:E;
        [ | reflexivity ].
      exfalso. apply N. eapply quadrantBounds_range. exact E.
  - apply quadrantAt_range.
  - apply quadrantAt_range.
  - destruct (quadrantBounds_hole lat lon b) as [b' E]. eexists. exact E.
Qed.

(** X8: [quadrantAt] finds the quadrant back: for a point of the interior
    of the quadrant [q] of a rectangle, which is then a point of the
    interior of the rectangle, [quadrantAt] returns [q]. *)
Theorem quadrantAt_of_quadrant (b qb : Bounds) (q : Z) (lat lon : Q) :
  quadrantBounds b q = Some qb -> interior qb lat lon ->
  interior b lat lon /\ quadrantAt lat lon b = q.
Proof.
  intros H I. destruct (interior_quadrant b qb q lat lon H I) as [A B].
  split; [ exact A | symmetry; exact B ].
Qed.

Lemma quadrantAt_of_quadrant_witness :
  quadrantBounds sampleRect 2 = Some {| west := 0; south := (10 + 20) / 2;
                                        east := (0 + 4) / 2; north := 20 |} /\
  interior {| west := 0; south := (10 + 20) / 2;
              east := (0 + 4) / 2; north := 20 |} 17 1 /\
  interior sampleRect 17 1 /\ quadrantAt 17 1 sampleRect = 2%Z.
Proof.
  assert (H1 : quadrantBounds sampleRect 2
               = Some {| west := 0; south := (10 + 20) / 2;
                         east := (0 + 4) / 2; north := 20 |}) by reflexivity.
  assert (H2 : interior {| west := 0; south := (10 + 20) / 2;
                           east := (0 + 4) / 2; north := 20 |} 17 1)
    by (repeat split).
  split; [ exact H1 | ]. split; [ exact H2 | ].
  exact (quadrantAt_of_quadrant sampleRect _ 2 17 1 H1 H2).
Defined.

Lemma half_power (n : nat) :
  (1 # 2) ^ Z.of_nat (S n) == (1 # 2) * (1 # 2) ^ Z.of_nat n.
Proof.
  rewrite Nat2Z.inj_succ. unfold Z.succ.
  rewrite Qpower_plus by (intros E; discriminate).
  rewrite Qpower_1_r. ring.
Qed.

Lemma quadrantBounds_size (b qb : Bounds) (q : Z) :
  quadrantBounds b q = Some qb ->
  east qb - west qb == (east b - west b) * (1 # 2) /\
  north qb - south qb == (north b - south b) * (1 # 2).
Proof.
  intros H. quadrant_cases q H; cbn [west east south north];
    split; qdiv; ring.
Qed.

Lemma quadrantBounds_contains (b qb : Bounds) (q : Z) (lat lon : Q) :
  quadrantBounds b q = Some qb -> contains qb lat lon -> contains b lat lon.
Proof.
  intros H (A1 & A2 & A3 & A4).
  quadrant_cases q H; cbn [west east south north] in *;
    unfold contains; repeat split; qlra.
Qed.



Lemma holePath_cell (n : nat) (lat lon : Q) (b : Bounds) :
  exists cb, cellOf b (holePath n lat lon b) = Some cb.
Proof.
  apply cellOf_Some. eapply onChain_okQuadrant. apply holePath_onChain.
Qed.

Lemma quadrantAt_contains (b qb : Bounds) (lat lon : Q) :
  contains b lat lon -> quadrantBounds b (quadrantAt lat lon b) = Some qb ->
  contains qb lat lon.
Proof.
  intros (H1 & H2 & H3 & H4). unfold quadrantAt.
  destruct (Qgeb lat _) eqn:N; destruct (Qgeb lon _) eqn:E;
    try apply Qgeb_true in N; try apply Qgeb_false in N;
    try apply Qgeb_true in E; try apply Qgeb_false in E;
    cbn; intros [= <-];
    unfold contains; cbn [west east south north]; repeat split; qlra.
Qed.

(** X10: the holes close in on the point.  For a point of a rectangle, the
    cell reached by its first [n] holes contains the point, whatever [n];
    and a point of the interior of a cell has the path of that cell as its
    first holes. *)
Theorem holePath_follows_point (b : Bounds) (lat lon : Q) (n : nat) :
  contains b lat lon ->
  (exists cb, cellOf b (holePath n lat lon b) = Some cb /\
              contains cb lat lon) /\
  (forall (path : list Z) (cb : Bounds),
     cellOf b path = Some cb -> interior cb lat lon ->
     holePath (length path) lat lon b = path).
Proof.
  intros In. split.
  - revert b In. induction n as [ | n IH ]; intros b In.
    + exists b. split; [ reflexivity | exact In ].
    + cbn [holePath]. destruct (quadrantBounds_hole lat lon b) as [b' E].
      rewrite E. cbn [cellOf]. rewrite E. cbn [mbind option_bind].
      apply IH. eapply quadrantAt_contains; eassumption.
  - intros path cb C I. symmetry. apply onChain_holePath.
    eapply cellOf_interior; eassumption.
Qed.

Lemma holePath_follows_point_witness :
  contains sampleRect 17 1 /\
  exists cb, cellOf sampleRect (holePath 5 17 1 sampleRect) = Some cb /\
             contains cb 17 1.
Proof.
  assert (H : contains sampleRect 17 1)
    by (repeat split; vm_compute; discriminate).
  split; [ exact H | ].
  exact (proj1 (holePath_follows_point sampleRect 17 1 5 H)).
Defined.

(** * Further properties of the identifiers *)

Lemma isDigit_value (c : ascii) : isDigit c = true -> (0 <= digitValue c)%Z.
Proof.
  unfold isDigit, digitValue. intros H. apply andb_true_iff in H.
  destruct H as [H _]. apply Nat.leb_le in H. lia.
Qed.

Lemma parseDigits_nonneg (s : string) (acc : Z) :
  (0 <= acc)%Z -> (0 <= parseDigits s acc)%Z.
Proof.
  revert acc. induction s as [ | c s IH ]; intros acc Hacc; cbn [parseDigits].
  - exact Hacc.
  - destruct (isDigit c) eqn:D; [ | exact Hacc ].
    apply IH. pose proof (isDigit_value c D). lia.
Qed.

Lemma parseInt_digitString (g : string) :
  digitString g -> parseInt g = Some (parseDigits g 0).
Proof.
  intros [N A]. destruct g as [ | c g ]; [ congruence | ].
  inversion A as [ | ? ? Hc _ ]; subst. unfold parseInt. rewrite Hc.
  reflexivity.
Qed.



Lemma spanDigits_cons_digit (c : ascii) (s : string) :
  isDigit c = true ->
  spanDigits (String c s) = (String c (fst (spanDigits s)), snd (spanDigits s)).
Proof.
  intros D. cbn [spanDigits]. rewrite D. destruct (spanDigits s). reflexivity.
Qed.



(** X13: [parseTileId] reads top-level tiles only: on the identifier of a
    sub-tile, a tile identifier followed by one or more quadrants, it
    returns [None]. *)
Theorem parseTileId_rejects_subtiles (tile : TileId) (path : list Z) :
  (0 <= row tile)%Z -> (0 <= col tile)%Z ->
  Forall okQuadrant path -> path <> [] ->
  parseTileId (pathId (tileIdToString tile) path) = None.
Proof.
  intros Hr Hc Hp Np. rewrite pathId_nodeId by exact Np.
  unfold parseTileId.
  destruct (matchTileId _) as [[g1 g2] | ] eqn:M; [ exfalso | reflexivity ].
  apply matchTileId_spec in M. destruct M as ([_ D1] & [_ D2] & E).
  unfold nodeId, tileIdToString in E. rewrite !append_assoc in E.
  apply append_inv_head in E.
  destruct (numberToString_digits _ Hr) as [_ Dr].
  destruct (numberToString_digits _ Hc) as [_ Dc].
  apply digits_app_inj in E; try assumption; try reflexivity.
  destruct E as [_ E]. injection E as E.
  rewrite <- (append_empty_r g2) in E.
  apply digits_app_inj in E; try assumption;
    [ | apply pathSuffix_stop | exact I ].
  destruct E as [_ E]. destruct path; [ congruence | discriminate ].
Qed.

Lemma parseTileId_rejects_subtiles_witness :
  (0 <= row {| row := 10; col := 19 |})%Z /\
  (0 <= col {| row := 10; col := 19 |})%Z /\
  Forall okQuadrant [0; 3]%Z /\ [0; 3]%Z <> [] /\
  parseTileId "tile_10_19_0_3" = None.
Proof.
  assert (H1 : (0 <= row {| row := 10; col := 19 |})%Z) by (simpl; lia).
  assert (H2 : (0 <= col {| row := 10; col := 19 |})%Z) by (simpl; lia).
  assert (H3 : Forall okQuadrant [0; 3]%Z).
  { constructor; [ split; lia | ]. constructor; [ split; lia | constructor ]. }
  assert (H4 : [0; 3]%Z <> []) by discriminate.
  split; [ exact H1 | ]. split; [ exact H2 | ]. split; [ exact H3 | ].
  split; [ exact H4 | ].
  exact (parseTileId_rejects_subtiles {| row := 10; col := 19 |} [0; 3]%Z
           H1 H2 H3 H4).
Defined.

(** X14: the three identifier templates of the controller agree.  What the
    first loop registers under [freshSubId], and the second under [subId]
    once the path is not empty, is what the walk down looks up with
    [pathId]; with an empty path [subId] would spell another string, with
    two underscores. *)
Theorem identifier_templates_agree (baseId : string) (path : list Z) (q : Z) :
  freshSubId baseId path q = pathId baseId (path ++ [q]) /\
  (path <> [] -> subId baseId path q = pathId baseId (path ++ [q])) /\
  subId baseId [] q = baseId +:+ "__" +:+ numberToString q /\
  subId baseId [] q <> pathId baseId [q].
Proof.
  assert (N : path ++ [q] <> []) by (destruct path; discriminate).
  repeat apply conj.
  - rewrite freshSubId_nodeId, pathId_nodeId by exact N. reflexivity.
  - intros Np. rewrite subId_nodeId, pathId_nodeId by assumption.
    reflexivity.
  - reflexivity.
  - unfold subId, pathId, joinPath. cbn [map String.concat]. intros E.
    apply append_inv_head in E. injection E as E.
    destruct q as [ | p | p ]; cbn in E; try discriminate.
    + pose proof (numberToString_pos p) as P. unfold numberToString in P.
      cbn in P. rewrite P in E.
      destruct (Pos.to_uint p); discriminate.
Qed.

(** X15: identifiers name their node.  Two tiles with the same identifier
    are the same tile; two sub-tiles with the same identifier have the same
    tile and the same path; and the identifier of a sub-tile is never that
    of a tile. *)
Theorem identifiers_name_nodes (t t' : TileId) (p p' : list Z) :
  (0 <= row t)%Z -> (0 <= col t)%Z -> (0 <= row t')%Z -> (0 <= col t')%Z ->
  Forall okQuadrant p -> Forall okQuadrant p' -> p <> [] -> p' <> [] ->
  (tileIdToString t = tileIdToString t' -> t = t') /\
  (pathId (tileIdToString t) p = pathId (tileIdToString t') p' ->
   t = t' /\ p = p') /\
  pathId (tileIdToString t) p <> tileIdToString t'.
Proof.
  intros Hr Hc Hr' Hc' Hp Hp' Np Np'.
  destruct t as [r c], t' as [r' c']. cbn [row col] in *.
  repeat apply conj.
  - intros E. apply tileIdToString_inj in E; try assumption.
    destruct E as [-> ->]. reflexivity.
  - rewrite !pathId_nodeId by assumption. intros E.
    apply (tileNode_inj r c r' c' p p') in E; try assumption.
    destruct E as (-> & -> & ->). split; reflexivity.
  - rewrite pathId_nodeId by assumption.
    rewrite <- (nodeId_nil (tileIdToString {| row := r'; col := c' |})).
    intros E. apply (tileNode_inj r c r' c' p []) in E; try assumption;
      try constructor.
    destruct E as (_ & _ & E). contradiction.
Qed.

Lemma identifiers_name_nodes_witness :
  (0 <= row {| row := 1; col := 1 |})%Z /\
  (0 <= col {| row := 1; col := 1 |})%Z /\
  (0 <= row {| row := 1; col := 10 |})%Z /\
  (0 <= col {| row := 1; col := 10 |})%Z /\
  Forall okQuadrant [0]%Z /\ [0]%Z <> [] /\
  pathId (tileIdToString {| row := 1; col := 1 |}) [0]%Z
    <> tileIdToString {| row := 1; col := 10 |}.
Proof.
  assert (H1 : (0 <= 1)%Z) by lia. assert (H2 : (0 <= 10)%Z) by lia.
  assert (H3 : Forall okQuadrant [0]%Z)
    by (constructor; [ split; lia | constructor ]).
  assert (H4 : [0]%Z <> []) by discriminate.
  repeat (split; [ assumption | ]).
  exact (proj2 (proj2 (identifiers_name_nodes {| row := 1; col := 1 |}
                         {| row := 1; col := 10 |} [0]%Z [0]%Z
                         H1 H1 H1 H2 H3 H3 H4 H4))).
Defined.

(** * Further properties of the controller *)

Lemma add_size (id : string) (e : Entity) (es es' : EntityCollection) :
  add id e es = Some es' -> size es' = S (size es).
Proof.
  unfold add. destruct (es !! id) eqn:L; [ discriminate | ].
  intros [= <-]. apply map_size_insert_None, L.
Qed.

Lemma foldl_step_size (A : Type)
    (step : A -> EntityCollection -> option EntityCollection) (k : nat) :
  (forall x es es', step x es = Some es' -> size es' = (size es + k)%nat) ->
  forall (l : list A) (es es' : EntityCollection),
    foldl (fun acc x => es0 ← acc; step x es0) (Some es) l = Some es' ->
    size es' = (size es + k * length l)%nat.
Proof.
  intros Step l. induction l as [ | x l IH ]; intros es es'; cbn [foldl].
  - intros [= <-]. cbn [length]. lia.
  - cbn [mbind option_bind]. destruct (step x es) as [es1 | ] eqn:S1.
    + intros F. rewrite (IH _ _ F), (Step _ _ _ S1). cbn [length]. lia.
    + intros F. exfalso. clear -F.
      induction l as [ | y l IHl ]; cbn [foldl] in F; [ discriminate | ].
      apply IHl, F.
Qed.

Lemma indices_length (n : Z) : length (indices n) = Z.to_nat n.
Proof. unfold indices. rewrite length_map, length_seq. reflexivity. Qed.

(** X16: start-up.  The two loops that show the grid never throw: no
    identifier is added twice.  The registry they leave holds one shown
    entity for each cell of the grid, under the identifier of the cell and
    with the rectangle [tileBounds] gives with the margin of the front-end,
    and nothing else: [latCount * lonCount] entities. *)
Theorem startup_registers_grid (fe : FrontEnd) :
  exists es,
    initialEntities fe = Some es /\
    (forall id e,
       es !! id = Some e <->
       exists r c : Z,
         (0 <= r < latCount (gridConfig fe))%Z /\
         (0 <= c < lonCount (gridConfig fe))%Z /\
         id = tileIdToString {| row := r; col := c |} /\
         e = {| rectangle := tileBounds r c (gridConfig fe) (TILE_GAP fe);
                show := true |}) /\
    size es = (Z.to_nat (latCount (gridConfig fe))
               * Z.to_nat (lonCount (gridConfig fe)))%nat.
Proof.
  destruct (initialEntities_spec fe) as (es & Init & I).
  exists es. split; [ exact Init | ]. split.
  - intros id e. rewrite I. split.
    + intros (r & c & [Gr Gc] & H). exists r, c. tauto.
    + intros (r & c & Gr & Gc & H). exists r, c. split; [ split | ]; tauto.
  - unfold initialEntities in Init.
    assert (Row : forall r es0 es1,
              addRow fe r es0 = Some es1 ->
              size es1
              = (size es0 + Z.to_nat (lonCount (gridConfig fe)))%nat).
    { intros r es0 es1 Row. unfold addRow in Row.
      apply (foldl_step_size Z
               (fun c es0 =>
                  add (tileIdToString {| row := r; col := c |})
                      {| rectangle := tileBounds r c (gridConfig fe)
                                                 (TILE_GAP fe);
                         show := true |} es0) 1) in Row.
      - rewrite indices_length in Row. lia.
      - intros c es2 es3 A. rewrite (add_size _ _ _ _ A). lia. }
    apply (foldl_step_size Z (addRow fe) _ Row) in Init.
    rewrite map_size_empty, indices_length in Init. lia.
Qed.

(** ** What one call changes *)

Lemma prefix_true_app (a s : string) :
  String.prefix a s = true -> exists rest, s = a +:+ rest.
Proof.
  revert s. induction a as [ | x a IH ]; intros s H.
  - exists s. reflexivity.
  - destruct s as [ | y s ]; cbn [String.prefix] in H; [ discriminate | ].
    destruct (ascii_dec x y) as [-> | ]; [ | discriminate ].
    destruct (IH s H) as [rest ->]. exists rest. reflexivity.
Qed.

Lemma pathSuffix_more_stop (X : list Z) (rest : string) :
  digitStop (pathSuffix X +:+ "_" +:+ rest).
Proof. destruct X; reflexivity. Qed.

(** A path suffix followed by an underscore starts no suffix but those of
    the paths strictly below. *)
Lemma pathSuffix_below (X p' : list Z) (rest : string) :
  Forall okQuadrant X -> Forall okQuadrant p' ->
  pathSuffix X +:+ "_" +:+ rest = pathSuffix p' ->
  exists y, y <> [] /\ p' = X ++ y.
Proof.
  intros HX. revert p'. induction HX as [ | q X Hq HX IH ]; intros p' Hp' E.
  - destruct p' as [ | q' p'' ]; [ discriminate | ].
    exists (q' :: p''). split; [ discriminate | reflexivity ].
  - destruct Hp' as [ | q' p' Hq' Hp' ]; [ discriminate | ].
    cbn [pathSuffix] in E.
    change (("_" +:+ numberToString q +:+ pathSuffix X) +:+ "_" +:+ rest)
      with ("_" +:+ ((numberToString q +:+ pathSuffix X) +:+ "_" +:+ rest))
      in E.
    rewrite append_assoc in E. injection E as E.
    destruct (numberToString_digits q) as [_ D]; [ apply Hq | ].
    destruct (numberToString_digits q') as [_ D']; [ apply Hq' | ].
    destruct (digits_app_inj _ _ _ _ D D' (pathSuffix_more_stop X rest)
                (pathSuffix_stop p') E) as [E1 E2].
    apply numberToString_inj in E1; [ | apply Hq | apply Hq' ]. subst q'.
    destruct (IH p' Hp' E2) as (y & Ny & ->).
    exists y. split; [ exact Ny | reflexivity ].
Qed.

(** The prefix of the scan, [id_], starts the identifiers of the nodes
    strictly below [id] in the same tile, and of no other node. *)
Lemma tileNode_below (r c r' c' : Z) (X p' : list Z) :
  (0 <= r)%Z -> (0 <= c)%Z -> (0 <= r')%Z -> (0 <= c')%Z ->
  Forall okQuadrant X -> Forall okQuadrant p' ->
  String.prefix (tileNode r c X +:+ "_") (tileNode r' c' p') = true ->
  r = r' /\ c = c' /\ exists y, y <> [] /\ p' = X ++ y.
Proof.
  intros Hr Hc Hr' Hc' HX Hp' P.
  apply prefix_true_app in P. destruct P as [rest E]. symmetry in E.
  unfold tileNode, nodeId, tileIdToString in E. cbn [row col] in E.
  rewrite !append_assoc in E. apply append_inv_head in E.
  destruct (numberToString_digits r Hr) as [_ Dr].
  destruct (numberToString_digits r' Hr') as [_ Dr'].
  destruct (numberToString_digits c Hc) as [_ Dc].
  destruct (numberToString_digits c' Hc') as [_ Dc'].
  apply digits_app_inj in E; try assumption; try reflexivity.
  destruct E as [E1 E2]. injection E2 as E2.
  destruct (digits_app_inj _ _ _ _ Dc Dc' (pathSuffix_more_stop X rest)
              (pathSuffix_stop p') E2) as [E3 E4].
  split; [ apply numberToString_inj; assumption | ].
  split; [ apply numberToString_inj; assumption | ].
  apply (pathSuffix_below X p' rest); assumption.
Qed.

(** On a consistent registry the prefix scan finds nothing: below a
    registered node nothing is registered. *)
Lemma cleared_registered (fe : FrontEnd) (es : EntityCollection) (r c : Z)
    (X : list Z) :
  consistent fe es -> inGrid fe r c -> Forall okQuadrant X ->
  is_Some (es !! tileNode r c X) ->
  cleared (tileIdToString {| row := r; col := c |}) es X
  = remove (tileNode r c X) es.
Proof.
  intros [WP AC] G HX S. apply map_eq. intros id. unfold cleared.
  rewrite removeByPrefix_lookup. fold (tileNode r c X).
  destruct (String.prefix _ id) eqn:P; [ | reflexivity ].
  unfold remove. destruct (delete _ es !! id) as [e | ] eqn:E;
    [ exfalso | reflexivity ].
  apply lookup_delete_Some in E. destruct E as [_ E].
  destruct (WP _ _ E) as (_ & r' & c' & p' & cell & [Gr' Gc'] & [Ok' _]
                          & -> & _).
  destruct G as [Gr Gc].
  apply tileNode_below in P; try lia; try assumption.
  destruct P as (<- & <- & y & Ny & ->).
  apply Ny, (AC r c X y); try assumption.
  - split; assumption.
  - apply Forall_app in Ok'. apply Ok'.
  - eexists. exact E.
Qed.

Lemma holePath_app (lat lon : Q) (b cb : Bounds) (X : list Z) (j : nat) :
  onChain lat lon b X -> cellOf b X = Some cb ->
  holePath (length X + j) lat lon b = X ++ holePath j lat lon cb.
Proof.
  intros O C.
  assert (O' : onChain lat lon b (X ++ holePath j lat lon cb)).
  { apply onChain_app. split; [ exact O | ]. exists cb.
    split; [ exact C | apply holePath_onChain ]. }
  apply onChain_holePath in O'.
  rewrite length_app, holePath_length in O'. symmetry. exact O'.
Qed.

Lemma addQuadrants_size (qs : list Z) (holeQ : Z) (b : Bounds) (gap : Q)
    (mkId : Z -> string) :
  forall es es' : EntityCollection,
  addQuadrants qs holeQ b gap mkId es = Some es' ->
  size es'
  = (size es + length (List.filter (fun q => negb (q =? holeQ)%Z) qs))%nat.
Proof.
  induction qs as [ | q qs IH ]; intros es es'; cbn [addQuadrants List.filter].
  - intros [= <-]. cbn [length]. lia.
  - destruct (q =? holeQ)%Z; cbn [negb]; [ apply IH | ].
    destruct (quadrantBounds b q) as [qb | ]; [ | discriminate ].
    cbn [mbind option_bind]. unfold addTileEntity.
    destruct (add _ _ es) as [es1 | ] eqn:A; [ | discriminate ].
    cbn [mbind option_bind]. intros R.
    rewrite (IH _ _ R), (add_size _ _ _ _ A). cbn [length]. lia.
Qed.

(** The level loop adds three entities at each level. *)
Lemma drill_size (gap : nat -> Q) (lat lon : Q) (baseId : string) (n : nat) :
  forall (depth : nat) (b : Bounds) (path : list Z)
         (es es' : EntityCollection),
  drill gap n depth lat lon baseId b path es = Some es' ->
  size es' = (size es + 3 * n)%nat.
Proof.
  induction n as [ | n IH ]; intros depth b path es es'; cbn [drill].
  - intros [= <-]. lia.
  - destruct (addQuadrants _ _ _ _ _ es) as [es1 | ] eqn:A; [ | discriminate ].
    cbn [mbind option_bind].
    destruct (quadrantBounds b _) as [b' | ]; [ | discriminate ].
    cbn [mbind option_bind]. intros R.
    rewrite (IH _ _ _ _ _ R), (addQuadrants_size _ _ _ _ _ _ _ A).
    assert (T : length (List.filter
                          (fun q => negb (q =? quadrantAt lat lon b)%Z)
                          [0; 1; 2; 3]%Z) = 3%nat).
    { pose proof (quadrantAt_range lat lon b) as Rg.
      assert (Cases : quadrantAt lat lon b = 0%Z \/ quadrantAt lat lon b = 1%Z
                      \/ quadrantAt lat lon b = 2%Z
                      \/ quadrantAt lat lon b = 3%Z) by lia.
      destruct Cases as [-> | [-> | [-> | ->]]]; reflexivity. }
    rewrite T. lia.
Qed.

Section Anatomy.

Variable fe : FrontEnd.
Variables lat lon : Q.
Hypothesis good : goodFrontEnd fe.

Let r : Z := row (latLonToTile lat lon (gridConfig fe)).
Let c : Z := col (latLonToTile lat lon (gridConfig fe)).
Let B0 : Bounds := baseBoundsAt fe lat lon.
Let base : string := baseIdAt fe lat lon.

(** The second loop either walks to the maximum depth and changes nothing,
    or stops at the first registered node along the holes, removes it and
    runs the level loop from there. *)
Lemma findAndSplit_walk (es : EntityCollection) :
  consistent fe es ->
  forall (n : nat) (path : list Z) (b : Bounds),
  onChain lat lon B0 path -> cellOf B0 path = Some b ->
  findAndSplit fe n lat lon base b path es = Some es \/
  exists (X : list Z) (e : Entity) (cb : Bounds),
    onChain lat lon B0 X /\ es !! nodeId base X = Some e /\
    cellOf B0 X = Some cb /\
    findAndSplit fe n lat lon base b path es
    = drill (gapForDepth fe) (SPLIT_DEPTH fe - length X) (length X)
            lat lon base cb X (remove (nodeId base X) es).
Proof.
  intros Con. pose proof Con as [WP AC].
  pose proof (latLonToTile_inGrid fe lat lon good) as grid. fold r c in grid.
  induction n as [ | n IH ]; intros path b Op Cp; [ left; reflexivity | ].
  set (q := quadrantAt lat lon b).
  destruct (quadrantBounds_hole lat lon b) as [b' Hb]. fold q in Hb.
  assert (Op' : onChain lat lon B0 (path ++ [q])).
  { apply onChain_app. split; [ exact Op | ]. exists b.
    split; [ exact Cp | ]. split; [ reflexivity | ].
    exists b'. split; [ exact Hb | exact I ]. }
  assert (Cp' : cellOf B0 (path ++ [q]) = Some b').
  { rewrite cellOf_app, Cp. cbn [mbind option_bind cellOf]. rewrite Hb.
    reflexivity. }
  destruct (es !! nodeId base (path ++ [q])) as [e | ] eqn:L.
  - right. exists (path ++ [q]), e, b'.
    split; [ exact Op' | ]. split; [ exact L | ]. split; [ exact Cp' | ].
    destruct (WP _ _ L) as [Sh _].
    assert (Np : path ++ [q] <> []) by (destruct path; discriminate).
    cbn [findAndSplit]. fold q.
    rewrite pathId_nodeId by exact Np. unfold getById. rewrite L, Sh, Hb.
    cbn [mbind option_bind]. rewrite resplitLevels_drill by exact Np.
    rewrite Nat.add_0_r.
    change (removeByPrefix (nodeId base (path ++ [q]) +:+ "_")
              (remove (nodeId base (path ++ [q])) es))
      with (cleared (tileIdToString {| row := r; col := c |}) es
                    (path ++ [q])).
    rewrite (cleared_registered fe es r c (path ++ [q]) Con grid).
    + reflexivity.
    + eapply onChain_okQuadrant. exact Op'.
    + eexists. exact L.
  - pose proof (findAndSplit_down fe lat lon r c es n b b' path L Hb) as Dn.
    change (tileIdToString {| row := r; col := c |}) with base in Dn.
    fold q in Dn. rewrite Dn. apply IH; assumption.
Qed.

(** A call either changes nothing, or removes the first registered node
    along the holes of the point and runs the level loop from there. *)
Lemma removeOrSplitTileAt_cases (es : EntityCollection) :
  consistent fe es ->
  removeOrSplitTileAt fe lat lon es = Some es \/
  exists (X : list Z) (e : Entity) (cb : Bounds),
    onChain lat lon B0 X /\ (length X <= SPLIT_DEPTH fe)%nat /\
    es !! nodeId base X = Some e /\ cellOf B0 X = Some cb /\
    removeOrSplitTileAt fe lat lon es
    = drill (gapForDepth fe) (SPLIT_DEPTH fe - length X) (length X)
            lat lon base cb X (remove (nodeId base X) es).
Proof.
  intros Con. pose proof Con as [WP AC].
  pose proof (latLonToTile_inGrid fe lat lon good) as grid. fold r c in grid.
  destruct (es !! base) as [e | ] eqn:L.
  - right. exists [], e, B0. rewrite nodeId_nil.
    split; [ exact I | ]. split; [ cbn [length]; lia | ].
    split; [ exact L | ]. split; [ reflexivity | ].
    destruct (WP _ _ L) as [Sh _].
    unfold removeOrSplitTileAt, getById.
    fold (baseIdAt fe lat lon). fold base. rewrite L, Sh.
    rewrite splitLevels_drill. cbn [length]. rewrite Nat.sub_0_r.
    reflexivity.
  - rewrite (removeOrSplit_hidden fe lat lon es L).
    destruct (findAndSplit_walk es Con (SPLIT_DEPTH fe) [] B0 I eq_refl)
      as [Idle | (X & e & cb & O & LX & C & Eq)]; [ left; exact Idle | ].
    right. exists X, e, cb. split; [ exact O | ].
    split; [ | split; [ exact LX | split; [ exact C | exact Eq ] ] ].
    destruct (WP _ _ LX) as (_ & r' & c' & p' & cell & [Gr' Gc'] & [Ok' Len']
                             & Eid & _).
    destruct grid as [Gr Gc].
    apply (tileNode_inj r c r' c' X p') in Eid; try lia;
      [ | eapply onChain_okQuadrant; exact O | assumption ].
    destruct Eid as (_ & _ & ->). exact Len'.
Qed.

(** What a call leaves, entity by entity.  Either the registry is as it
    was; or one registered node [X] along the holes of the point is gone,
    all the other entities are as they were, and at each level from that of
    [X] to the maximum depth the three quadrants beside the hole have an
    entity, inset by the margin of the level. *)
Lemma removeOrSplitTileAt_anatomy (es : EntityCollection) :
  consistent fe es ->
  exists es',
    removeOrSplitTileAt fe lat lon es = Some es' /\
    (es' = es \/
     exists (X : list Z) (e : Entity),
       onChain lat lon B0 X /\ (length X <= SPLIT_DEPTH fe)%nat /\
       es !! nodeId base X = Some e /\
       (size es' + 1 = size es + 3 * (SPLIT_DEPTH fe - length X))%nat /\
       forall id e',
         es' !! id = Some e' <->
         (id <> nodeId base X /\ es !! id = Some e') \/
         exists (k : nat) (q : Z) (cb qb : Bounds),
           (length X <= k < SPLIT_DEPTH fe)%nat /\
           cellOf B0 (holePath k lat lon B0) = Some cb /\
           okQuadrant q /\ q <> quadrantAt lat lon cb /\
           quadrantBounds cb q = Some qb /\
           id = nodeId base (holePath k lat lon B0 ++ [q]) /\
           e' = {| rectangle := insetBounds qb (gapForDepth fe k);
                   show := true |}).
Proof.
  intros Con.
  destruct (removeOrSplitTileAt_cases es Con)
    as [Idle | (X & e & cb & O & Len & LX & C & Eq)].
  - exists es. split; [ exact Idle | left; reflexivity ].
  - assert (OkX : Forall okQuadrant X)
      by (eapply onChain_okQuadrant; exact O).
    assert (Fresh : freshBelow (remove (nodeId base X) es) base X).
    { apply (consistent_freshBelow fe lat lon good es X Con OkX).
      eexists. exact LX. }
    destruct (drill_spec (gapForDepth fe) lat lon base
                (SPLIT_DEPTH fe - length X) (length X) cb X
                (remove (nodeId base X) es) Fresh) as (es' & R & Iff).
    exists es'. split; [ rewrite Eq; exact R | ]. right. exists X, e.
    split; [ exact O | ]. split; [ exact Len | ]. split; [ exact LX | ].
    split.
    { rewrite (drill_size _ _ _ _ _ _ _ _ _ _ R). unfold remove.
      assert (S : is_Some (es !! nodeId base X)) by (eexists; exact LX).
      rewrite (map_size_delete_Some (nodeId base X) es S).
      assert (size es <> 0%nat)
        by (apply map_size_ne_0_lookup; eexists; exact S).
      lia. }
    intros id e'. rewrite Iff. unfold remove.
    rewrite lookup_delete_Some. split.
    + intros [[Ne L] | Cr].
      * left. split; [ congruence | exact L ].
      * right. apply created_shape in Cr.
        destruct Cr as (p & q & cb' & qb & Op & Lp & Cp & Oq & Nq & Hq
                        & -> & ->).
        assert (H : holePath (length X + length p) lat lon B0 = X ++ p).
        { rewrite (holePath_app lat lon B0 cb X (length p) O C).
          rewrite <- (onChain_holePath lat lon cb p Op). reflexivity. }
        exists (length X + length p)%nat, q, cb', qb.
        split; [ lia | ]. rewrite H.
        split; [ rewrite cellOf_app, C; exact Cp | ].
        split; [ exact Oq | ]. split; [ exact Nq | ].
        split; [ exact Hq | ].
        split; [ rewrite <- app_assoc; reflexivity | reflexivity ].
    + intros [[Ne L] | (k & q & cb' & qb & Hk & Ck & Oq & Nq & Hq & -> & ->)].
      * left. split; [ congruence | exact L ].
      * right.
        assert (H : holePath k lat lon B0
                    = X ++ holePath (k - length X) lat lon cb).
        { rewrite <- (holePath_app lat lon B0 cb X (k - length X) O C).
          f_equal. lia. }
        rewrite H in *. rewrite cellOf_app, C in Ck.
        cbn [mbind option_bind] in Ck.
        pose proof (created_along (gapForDepth fe) lat lon base
                      (k - length X) (SPLIT_DEPTH fe - length X) (length X)
                      cb X q cb' qb) as Cr.
        replace (length X + (k - length X))%nat with k in Cr by lia.
        rewrite <- app_assoc. apply Cr; try assumption. lia.
Qed.

End Anatomy.

Lemma clickFrontEnd_good : goodFrontEnd clickFrontEnd.
Proof. repeat split. Qed.

(** X17: the invariant of the registry.  After start-up and any number of
    calls that did not throw, every entity is shown, its identifier is that
    of a tile of the grid followed by at most [SPLIT_DEPTH] quadrant
    indices, and its rectangle lies strictly inside the cell those
    quadrants lead to; and no entity is registered below another one. *)
Theorem registry_invariant (fe : FrontEnd) (es : EntityCollection) :
  goodFrontEnd fe -> reachable fe es ->
  (forall id e,
     es !! id = Some e ->
     show e = true /\
     exists (r c : Z) (path : list Z) (cell : Bounds),
       (0 <= r < latCount (gridConfig fe))%Z /\
       (0 <= c < lonCount (gridConfig fe))%Z /\
       Forall okQuadrant path /\ (length path <= SPLIT_DEPTH fe)%nat /\
       id = nodeId (tileIdToString {| row := r; col := c |}) path /\
       cellOf (tileBounds r c (gridConfig fe) 0) path = Some cell /\
       forall lat lon : Q,
         contains (rectangle e) lat lon -> interior cell lat lon) /\
  (forall (r c : Z) (p1 p2 : list Z),
     inGrid fe r c -> Forall okQuadrant p1 -> Forall okQuadrant p2 ->
     is_Some (es !! nodeId (tileIdToString {| row := r; col := c |}) p1) ->
     is_Some (es !! nodeId (tileIdToString {| row := r; col := c |})
                           (p1 ++ p2)) ->
     p2 = []).
Proof.
  intros Good R. destruct (reachable_consistent fe es Good R) as [WP AC].
  split; [ | exact AC ].
  intros id e L.
  destruct (WP _ _ L) as (Sh & r & c & p & cell & [Gr Gc] & [Ok Len] & Eid
                          & C & In).
  split; [ exact Sh | ]. exists r, c, p, cell.
  split; [ exact Gr | ]. split; [ exact Gc | ]. split; [ exact Ok | ].
  split; [ exact Len | ]. split; [ exact Eid | ].
  split; [ exact C | exact In ].
Qed.

Lemma registry_invariant_witness :
  goodFrontEnd clickFrontEnd /\
  reachable clickFrontEnd (startEntities clickFrontEnd) /\
  forall id e, startEntities clickFrontEnd !! id = Some e -> show e = true.
Proof.
  assert (H1 : goodFrontEnd clickFrontEnd) by (repeat split).
  assert (H2 : reachable clickFrontEnd (startEntities clickFrontEnd))
    by (apply reachable_start, startEntities_initial).
  split; [ exact H1 | ]. split; [ exact H2 | ].
  intros id e L.
  exact (proj1 (proj1 (registry_invariant clickFrontEnd
                         (startEntities clickFrontEnd) H1 H2) id e L)).
Defined.

(** X18: the rectangles of two entities of the registry never overlap, not
    even on an edge, whatever calls led to the registry. *)
Theorem entities_do_not_overlap (fe : FrontEnd) (es : EntityCollection)
    (id1 id2 : string) (e1 e2 : Entity) :
  goodFrontEnd fe -> reachable fe es ->
  es !! id1 = Some e1 -> es !! id2 = Some e2 -> id1 <> id2 ->
  ~ overlap (rectangle e1) (rectangle e2).
Proof.
  intros Good R L1 L2 Ne (lat & lon & In1 & In2).
  destruct (reachable_consistent fe es Good R) as [WP AC].
  destruct (WP _ _ L1) as (_ & r1 & c1 & p1 & cell1 & [Gr1 Gc1] & [Ok1 _]
                           & E1 & C1 & I1).
  destruct (WP _ _ L2) as (_ & r2 & c2 & p2 & cell2 & [Gr2 Gc2] & [Ok2 _]
                           & E2 & C2 & I2).
  destruct (cellOf_interior _ _ _ _ _ C1 (I1 _ _ In1)) as [J1 O1].
  destruct (cellOf_interior _ _ _ _ _ C2 (I2 _ _ In2)) as [J2 O2].
  destruct Good as (Hlat & Hlon & _).
  destruct J1 as (A1 & A2 & A3 & A4). destruct J2 as (B1 & B2 & B3 & B4).
  assert (T1 : latLonToTile lat lon (gridConfig fe)
               = {| row := r1; col := c1 |})
    by (apply latLonToTile_cell; try assumption; lra).
  assert (T2 : latLonToTile lat lon (gridConfig fe)
               = {| row := r2; col := c2 |})
    by (apply latLonToTile_cell; try assumption; lra).
  rewrite T1 in T2. injection T2 as <- <-.
  apply Ne. subst id1 id2.
  destruct (onChain_comparable _ _ _ _ _ O1 O2) as (x & [-> | ->]).
  - apply Forall_app in Ok2. destruct Ok2 as [_ Okx].
    rewrite (AC r1 c1 p1 x); try assumption.
    + rewrite app_nil_r. reflexivity.
    + split; assumption.
    + eexists. exact L1.
    + eexists. exact L2.
  - apply Forall_app in Ok1. destruct Ok1 as [_ Okx].
    rewrite (AC r1 c1 p2 x); try assumption.
    + rewrite app_nil_r. reflexivity.
    + split; assumption.
    + eexists. exact L2.
    + eexists. exact L1.
Qed.

Lemma entities_do_not_overlap_witness :
  goodFrontEnd clickFrontEnd /\
  reachable clickFrontEnd (startEntities clickFrontEnd) /\
  startEntities clickFrontEnd !! "tile_20_38"%string
  = Some {| rectangle := tileBounds 20 38 DEFAULT_GRID_CONFIG (8 # 100);
            show := true |} /\
  startEntities clickFrontEnd !! "tile_20_39"%string
  = Some {| rectangle := tileBounds 20 39 DEFAULT_GRID_CONFIG (8 # 100);
            show := true |} /\
  "tile_20_38"%string <> "tile_20_39"%string /\
  ~ overlap (tileBounds 20 38 DEFAULT_GRID_CONFIG (8 # 100))
            (tileBounds 20 39 DEFAULT_GRID_CONFIG (8 # 100)).
Proof.
  assert (H1 : goodFrontEnd clickFrontEnd) by (repeat split).
  assert (H2 : reachable clickFrontEnd (startEntities clickFrontEnd))
    by (apply reachable_start, startEntities_initial).
  assert (H3 : startEntities clickFrontEnd !! "tile_20_38"%string
               = Some {| rectangle :=
                           tileBounds 20 38 DEFAULT_GRID_CONFIG (8 # 100);
                         show := true |})
    by (apply (startEntities_lookup clickFrontEnd 20 38); split;
        vm_compute; split; congruence).
  assert (H4 : startEntities clickFrontEnd !! "tile_20_39"%string
               = Some {| rectangle :=
                           tileBounds 20 39 DEFAULT_GRID_CONFIG (8 # 100);
                         show := true |})
    by (apply (startEntities_lookup clickFrontEnd 20 39); split;
        vm_compute; split; congruence).
  assert (H5 : "tile_20_38"%string <> "tile_20_39"%string) by discriminate.
  split; [ exact H1 | ]. split; [ exact H2 | ]. split; [ exact H3 | ].
  split; [ exact H4 | ]. split; [ exact H5 | ].
  exact (entities_do_not_overlap clickFrontEnd (startEntities clickFrontEnd)
           _ _ _ _ H1 H2 H3 H4 H5).
Defined.

(** X19: a call is idempotent.  On a registry the front-end can be in, a
    call at a point does not throw, and a second call at the same point
    changes nothing more.  A call leaves the registry as it was exactly
    when nothing was registered along the holes of the point. *)
Theorem call_idempotent (fe : FrontEnd) (es : EntityCollection)
    (lat lon : Q) :
  goodFrontEnd fe -> reachable fe es ->
  exists es1,
    removeOrSplitTileAt fe lat lon es = Some es1 /\
    removeOrSplitTileAt fe lat lon es1 = Some es1 /\
    (es1 = es <->
     forall k : nat,
       es !! nodeId (baseIdAt fe lat lon)
                    (holePath k lat lon (baseBoundsAt fe lat lon)) = None).
Proof.
  intros Good R. pose proof (reachable_consistent fe es Good R) as Con.
  destruct (removeOrSplitTileAt_spec fe lat lon Good es Con)
    as (es1 & Call & Con1 & Free1).
  exists es1. split; [ exact Call | ].
  split; [ apply (removeOrSplitTileAt_idle fe lat lon), Free1 | ].
  split.
  - intros <- k. apply Free1, holePath_onChain.
  - intros H.
    assert (Free : chainFree fe lat lon
                     (row (latLonToTile lat lon (gridConfig fe)))
                     (col (latLonToTile lat lon (gridConfig fe))) es).
    { intros p Op. rewrite (onChain_holePath _ _ _ _ Op). apply H. }
    pose proof (removeOrSplitTileAt_idle fe lat lon es Free) as Idle.
    congruence.
Qed.

Lemma call_idempotent_witness :
  goodFrontEnd clickFrontEnd /\
  reachable clickFrontEnd (startEntities clickFrontEnd) /\
  exists es1,
    removeOrSplitTileAt clickFrontEnd 10 10 (startEntities clickFrontEnd)
      = Some es1 /\
    removeOrSplitTileAt clickFrontEnd 10 10 es1 = Some es1.
Proof.
  assert (H1 : goodFrontEnd clickFrontEnd) by (repeat split).
  assert (H2 : reachable clickFrontEnd (startEntities clickFrontEnd))
    by (apply reachable_start, startEntities_initial).
  split; [ exact H1 | ]. split; [ exact H2 | ].
  destruct (call_idempotent clickFrontEnd (startEntities clickFrontEnd)
              10 10 H1 H2) as (es1 & C1 & C2 & _).
  exists es1. split; [ exact C1 | exact C2 ].
Defined.

(** X20: what one call does, entity by entity.  On a registry the
    front-end can be in, a call either leaves the registry as it is, or
    removes one registered node [X] along the holes of the point, leaves
    every other entity as it was, and at each level [k] from the depth of
    [X] to [SPLIT_DEPTH - 1] registers the three quadrants beside the hole
    of that level, each inset by [gapForDepth k]: the registry grows by
    [3 * (SPLIT_DEPTH - depth of X) - 1] entities. *)
Theorem call_splits_one_node (fe : FrontEnd) (es : EntityCollection)
    (lat lon : Q) :
  goodFrontEnd fe -> reachable fe es ->
  exists es',
    removeOrSplitTileAt fe lat lon es = Some es' /\
    (es' = es \/
     exists (X : list Z) (e : Entity),
       onChain lat lon (baseBoundsAt fe lat lon) X /\
       (length X <= SPLIT_DEPTH fe)%nat /\
       es !! nodeId (baseIdAt fe lat lon) X = Some e /\
       (size es' + 1 = size es + 3 * (SPLIT_DEPTH fe - length X))%nat /\
       forall id e',
         es' !! id = Some e' <->
         (id <> nodeId (baseIdAt fe lat lon) X /\ es !! id = Some e') \/
         exists (k : nat) (q : Z) (cb qb : Bounds),
           (length X <= k < SPLIT_DEPTH fe)%nat /\
           cellOf (baseBoundsAt fe lat lon)
                  (holePath k lat lon (baseBoundsAt fe lat lon)) = Some cb /\
           okQuadrant q /\ q <> quadrantAt lat lon cb /\
           quadrantBounds cb q = Some qb /\
           id = nodeId (baseIdAt fe lat lon)
                       (holePath k lat lon (baseBoundsAt fe lat lon) ++ [q]) /\
           e' = {| rectangle := insetBounds qb (gapForDepth fe k);
                   show := true |}).
Proof.
  intros Good R.
  apply (removeOrSplitTileAt_anatomy fe lat lon Good es).
  apply reachable_consistent; assumption.
Qed.

Lemma call_splits_one_node_witness :
  goodFrontEnd clickFrontEnd /\
  reachable clickFrontEnd (startEntities clickFrontEnd) /\
  exists es',
    removeOrSplitTileAt clickFrontEnd 10 10 (startEntities clickFrontEnd)
    = Some es'.
Proof.
  assert (H1 : goodFrontEnd clickFrontEnd) by (repeat split).
  assert (H2 : reachable clickFrontEnd (startEntities clickFrontEnd))
    by (apply reachable_start, startEntities_initial).
  split; [ exact H1 | ]. split; [ exact H2 | ].
  destruct (call_splits_one_node clickFrontEnd (startEntities clickFrontEnd)
              10 10 H1 H2) as (es' & C & _).
  exists es'. exact C.
Defined.

(** X21: what one call keeps.  The nodes of every tile but that of the
    point are untouched; an entity that was registered is afterwards either
    registered as it was or gone; at most one entity goes; and an entity
    whose rectangle has the point in it or on its edge does go. *)
Theorem call_keeps_the_rest (fe : FrontEnd) (es : EntityCollection)
    (lat lon : Q) :
  goodFrontEnd fe -> reachable fe es ->
  exists es',
    removeOrSplitTileAt fe lat lon es = Some es' /\
    (forall (r c : Z) (p : list Z),
       (0 <= r)%Z -> (0 <= c)%Z -> Forall okQuadrant p ->
       {| row := r; col := c |} <> latLonToTile lat lon (gridConfig fe) ->
       es' !! nodeId (tileIdToString {| row := r; col := c |}) p
       = es !! nodeId (tileIdToString {| row := r; col := c |}) p) /\
    (forall id e,
       es !! id = Some e -> es' !! id = Some e \/ es' !! id = None) /\
    (forall id1 id2,
       is_Some (es !! id1) -> is_Some (es !! id2) ->
       es' !! id1 = None -> es' !! id2 = None -> id1 = id2) /\
    (forall id e,
       es !! id = Some e -> contains (rectangle e) lat lon ->
       es' !! id = None).
Proof.
  intros Good R. pose proof (reachable_consistent fe es Good R) as Con.
  destruct (removeOrSplitTileAt_hole fe lat lon es Good R)
    as (es' & Call & NoEntity & Chain).
  destruct (removeOrSplitTileAt_anatomy fe lat lon Good es Con)
    as (es'' & Call' & Cases).
  assert (es'' = es') by congruence. subst es''. clear Call'.
  pose proof (latLonToTile_inGrid fe lat lon Good) as [Gr Gc].
  set (r0 := row (latLonToTile lat lon (gridConfig fe))) in *.
  set (c0 := col (latLonToTile lat lon (gridConfig fe))) in *.
  assert (Kept : forall id e,
            es !! id = Some e -> es' !! id = Some e \/ es' !! id = None).
  { intros id e L. destruct Cases as [-> | (X & eX & O & _ & LX & _ & Iff)];
      [ left; exact L | ].
    destruct (decide (id = nodeId (baseIdAt fe lat lon) X)) as [-> | Ne].
    - right. rewrite (onChain_holePath _ _ _ _ O). apply Chain.
    - left. apply Iff. left. split; [ exact Ne | exact L ]. }
  exists es'. split; [ exact Call | ]. split; [ | split; [ exact Kept | split ] ].
  - intros r c p Hr Hc Hp Other.
    destruct Cases as [-> | (X & eX & O & _ & LX & _ & Iff)];
      [ reflexivity | ].
    apply option_eq. intros e'. rewrite Iff. split.
    + intros [[_ L] | (k & q & cb & qb & _ & _ & Oq & _ & _ & E & _)];
        [ exact L | exfalso ].
      apply (tileNode_inj r c r0 c0) in E; try lia; try assumption.
      * apply Other. destruct E as (-> & -> & _). reflexivity.
      * apply Forall_app. split.
        -- eapply onChain_okQuadrant. apply holePath_onChain.
        -- constructor; [ exact Oq | constructor ].
    + intros L. left. split; [ | exact L ]. intros E.
      apply (tileNode_inj r c r0 c0) in E; try lia; try assumption.
      * apply Other. destruct E as (-> & -> & _). reflexivity.
      * eapply onChain_okQuadrant. exact O.
  - intros id1 id2 S1 S2 N1 N2.
    destruct Cases as [-> | (X & eX & O & _ & LX & _ & Iff)].
    + destruct S1 as [e L]. congruence.
    + destruct S1 as [e1 L1], S2 as [e2 L2].
      destruct (decide (id1 = nodeId (baseIdAt fe lat lon) X))
        as [-> | Ne1];
        destruct (decide (id2 = nodeId (baseIdAt fe lat lon) X))
        as [-> | Ne2]; try reflexivity; exfalso.
      * assert (es' !! id2 = Some e2)
          by (apply Iff; left; split; [ exact Ne2 | exact L2 ]).
        congruence.
      * assert (es' !! id1 = Some e1)
          by (apply Iff; left; split; [ exact Ne1 | exact L1 ]).
        congruence.
      * assert (es' !! id1 = Some e1)
          by (apply Iff; left; split; [ exact Ne1 | exact L1 ]).
        congruence.
  - intros id e L In. destruct (Kept id e L) as [K | K]; [ | exact K ].
    exfalso. apply (NoEntity id e K In).
Qed.

Lemma call_keeps_the_rest_witness :
  goodFrontEnd clickFrontEnd /\
  reachable clickFrontEnd (startEntities clickFrontEnd) /\
  exists es',
    removeOrSplitTileAt clickFrontEnd 10 10 (startEntities clickFrontEnd)
    = Some es' /\
    forall id e,
      startEntities clickFrontEnd !! id = Some e ->
      contains (rectangle e) 10 10 -> es' !! id = None.
Proof.
  assert (H1 : goodFrontEnd clickFrontEnd) by (repeat split).
  assert (H2 : reachable clickFrontEnd (startEntities clickFrontEnd))
    by (apply reachable_start, startEntities_initial).
  split; [ exact H1 | ]. split; [ exact H2 | ].
  destruct (call_keeps_the_rest clickFrontEnd (startEntities clickFrontEnd)
              10 10 H1 H2) as (es' & C & _ & _ & _ & Gone).
  exists es'. split; [ exact C | exact Gone ].
Defined.

(** * Further properties of the margins *)

Lemma half_power_pos (n : nat) : 0 < (1 # 2) ^ Z.of_nat n.
Proof.
  induction n as [ | n IH ]; [ reflexivity | ].
  rewrite half_power. lra.
Qed.

Lemma half_power_le (d d' : nat) :
  (d <= d')%nat -> (1 # 2) ^ Z.of_nat d' <= (1 # 2) ^ Z.of_nat d.
Proof.
  induction 1 as [ | m _ IH ]; [ lra | ].
  rewrite half_power. pose proof (half_power_pos m). lra.
Qed.

(** X22: the margin of a level.  It is never below 1%, never above the
    larger of 1% and [TILE_GAP], and does not grow with the depth; once the
    halved margin has come down to 1% the margin is 1% at every deeper
    level. *)
Theorem gapForDepth_floor_and_decay (fe : FrontEnd) (d d' : nat) :
  0 <= TILE_GAP fe -> (d <= d')%nat ->
  1 # 100 <= gapForDepth fe d' /\
  gapForDepth fe d' <= gapForDepth fe d /\
  gapForDepth fe d <= Qmax (1 # 100) (TILE_GAP fe) /\
  (TILE_GAP fe * (1 # 2) ^ Z.of_nat d <= 1 # 100 ->
   gapForDepth fe d' == 1 # 100).
Proof.
  intros T Le. unfold gapForDepth.
  pose proof (half_power_le d d' Le) as P.
  pose proof (half_power_le 0 d (Nat.le_0_l d)) as P1.
  change ((1 # 2) ^ Z.of_nat 0) with 1 in P1.
  pose proof (half_power_pos d) as P0.
  assert (M : TILE_GAP fe * (1 # 2) ^ Z.of_nat d'
              <= TILE_GAP fe * (1 # 2) ^ Z.of_nat d).
  { rewrite !(Qmult_comm (TILE_GAP fe)).
    apply Qmult_le_compat_r; assumption. }
  assert (M1 : TILE_GAP fe * (1 # 2) ^ Z.of_nat d <= TILE_GAP fe).
  { rewrite <- (Qmult_1_r (TILE_GAP fe)) at 2.
    rewrite !(Qmult_comm (TILE_GAP fe)).
    apply Qmult_le_compat_r; assumption. }
  split; [ apply Q.le_max_l | ]. split; [ | split ].
  - apply Q.max_lub; [ apply Q.le_max_l | ].
    eapply Qle_trans; [ exact M | apply Q.le_max_r ].
  - apply Q.max_lub; [ apply Q.le_max_l | ].
    eapply Qle_trans; [ exact M1 | apply Q.le_max_r ].
  - intros H. apply Q.max_l. eapply Qle_trans; [ exact M | exact H ].
Qed.

Lemma gapForDepth_floor_and_decay_witness :
  0 <= TILE_GAP clickFrontEnd /\ (3 <= 9)%nat /\
  TILE_GAP clickFrontEnd * (1 # 2) ^ Z.of_nat 3 <= 1 # 100 /\
  gapForDepth clickFrontEnd 9 == 1 # 100.
Proof.
  assert (H1 : 0 <= TILE_GAP clickFrontEnd) by (vm_compute; discriminate).
  assert (H2 : (3 <= 9)%nat) by lia.
  assert (H3 : TILE_GAP clickFrontEnd * (1 # 2) ^ Z.of_nat 3 <= 1 # 100)
    by (vm_compute; discriminate).
  split; [ exact H1 | ]. split; [ exact H2 | ]. split; [ exact H3 | ].
  exact (proj2 (proj2 (proj2 (gapForDepth_floor_and_decay clickFrontEnd 3 9
                                H1 H2))) H3).
Defined.

(** * Properties of the follow mode *)

(** A tick on a registry the front-end can be in does not throw; either it
    leaves state and registry alone, or it is a tick of follow mode at
    least the throttle after the last removal, and it records its time. *)
Lemma onFollowTick_cases (fe : FrontEnd) (now : Q) (st : FollowState)
    (cam : Camera) (es : EntityCollection) :
  goodFrontEnd fe -> reachable fe es ->
  exists t,
    onFollowTick fe now st cam es = Some t /\
    reachable fe (tickEntities t) /\
    followLocation (tickState t) = followLocation st /\
    ((tickRemoval t = None /\ tickEntities t = es /\ tickState t = st) \/
     (exists p, tickRemoval t = Some p) /\ followLocation st = true /\
     lastFollowRemoveTime st + FOLLOW_REMOVE_THROTTLE_MS <= now /\
     lastFollowRemoveTime (tickState t) = now).
Proof.
  intros Good R. unfold onFollowTick.
  destruct (followLocation st) eqn:F; cbn [negb].
  2:{ eexists. split; [ reflexivity | ]. cbn. split; [ exact R | ].
      split; [ exact F | ]. left. repeat split. }
  destruct (followTargetLon st) as [tlon | ];
    [ destruct (followTargetLat st) as [tlat | ] | ].
  2, 3: eexists; (split; [ reflexivity | ]); cbn; (split; [ exact R | ]);
        (split; [ exact F | ]); left; repeat split.
  destruct (Qgeb _ _) eqn:G.
  - destruct (removeOrSplitTileAt_hole fe
                (camLat cam + (tlat - camLat cam) * FOLLOW_LERP)
                (camLon cam + (tlon - camLon cam) * FOLLOW_LERP) es Good R)
      as (es' & Call & _).
    rewrite Call. cbn [mbind option_bind].
    eexists. split; [ reflexivity | ]. cbn.
    split; [ eapply reachable_call; [ exact R | exact Call ] | ].
    split; [ reflexivity | ]. right.
    split; [ eexists; reflexivity | ]. split; [ reflexivity | ].
    split; [ | reflexivity ].
    apply Qgeb_true in G. lra.
  - eexists. split; [ reflexivity | ]. cbn. split; [ exact R | ].
    split; [ exact F | ]. left. repeat split.
Qed.

(** X23: the throttle of follow mode.  A run of rendered frames and
    reported positions on a registry the front-end can be in never throws
    and leaves such a registry; the clock values at which a tile was
    removed are at least 180 ms apart, the first at least 180 ms after the
    last removal before the run, whatever the clock values of the frames
    are; and while follow mode is off the run removes nothing. *)
Theorem follow_run_throttled (fe : FrontEnd) (evs : list FollowEvent)
    (st : FollowState) (es : EntityCollection) :
  goodFrontEnd fe -> reachable fe es ->
  exists (times : list Q) (st' : FollowState) (es' : EntityCollection),
    runFollow fe evs st es = Some (times, st', es') /\
    reachable fe es' /\
    spaced FOLLOW_REMOVE_THROTTLE_MS times /\
    match times with
    | [] => True
    | t :: _ => lastFollowRemoveTime st + FOLLOW_REMOVE_THROTTLE_MS <= t
    end /\
    (followLocation st = false -> times = [] /\ es' = es).
Proof.
  intros Good. revert st es.
  induction evs as [ | ev evs IH ]; intros st es R.
  - exists [], st, es. split; [ reflexivity | ]. split; [ exact R | ].
    split; [ exact I | ]. split; [ exact I | ]. intros _.
    split; reflexivity.
  - destruct ev as [now carto | longitude latitude]; cbn [runFollow].
    + destruct (onFollowTick_cases fe now st carto es Good R)
        as (t & Tick & R1 & F1 & Cases).
      rewrite Tick. cbn [mbind option_bind].
      destruct (IH (tickState t) (tickEntities t) R1)
        as (times & st' & es' & Run & R' & Sp & Hd & Off).
      rewrite Run. cbn [mbind option_bind].
      destruct Cases as [(N & Ees & Est) | ([p Hp] & F & Le & Last)].
      * rewrite N. exists times, st', es'. split; [ reflexivity | ].
        split; [ exact R' | ]. split; [ exact Sp | ].
        rewrite Est in Hd, Off. split; [ exact Hd | ].
        intros Foff. rewrite <- Ees. apply Off, Foff.
      * rewrite Hp. exists (now :: times), st', es'.
        split; [ reflexivity | ]. split; [ exact R' | ].
        split; [ | split; [ exact Le | congruence ] ].
        split; [ | exact Sp ].
        rewrite Last in Hd. exact Hd.
    + destruct (IH (onPosition longitude latitude st) es R)
        as (times & st' & es' & Run & R' & Sp & Hd & Off).
      exists times, st', es'. split; [ exact Run | ].
      split; [ exact R' | ]. split; [ exact Sp | ].
      split; [ exact Hd | exact Off ].
Qed.

Lemma follow_run_throttled_witness :
  goodFrontEnd followFrontEnd /\
  reachable followFrontEnd (startEntities followFrontEnd) /\
  exists times st' es',
    runFollow followFrontEnd
      [evTick 200 {| camLon := 0; camLat := 0 |};
       evPosition 11 12;
       evTick 300 {| camLon := 1; camLat := 1 |};
       evTick 400 {| camLon := 2; camLat := 2 |}]
      {| followLocation := true; followFlyInProgress := false;
         followWatchId := Some 1%Z; followTargetLon := Some 10;
         followTargetLat := Some 10; lastFollowRemoveTime := 0 |}
      (startEntities followFrontEnd)
    = Some (times, st', es') /\
    spaced FOLLOW_REMOVE_THROTTLE_MS times.
Proof.
  assert (H1 : goodFrontEnd followFrontEnd) by (repeat split).
  assert (H2 : reachable followFrontEnd (startEntities followFrontEnd))
    by (apply reachable_start, startEntities_initial).
  split; [ exact H1 | ]. split; [ exact H2 | ].
  destruct (follow_run_throttled followFrontEnd
              [evTick 200 {| camLon := 0; camLat := 0 |};
               evPosition 11 12;
               evTick 300 {| camLon := 1; camLat := 1 |};
               evTick 400 {| camLon := 2; camLat := 2 |}]
              {| followLocation := true; followFlyInProgress := false;
                 followWatchId := Some 1%Z; followTargetLon := Some 10;
                 followTargetLat := Some 10; lastFollowRemoveTime := 0 |}
              (startEntities followFrontEnd) H1 H2)
    as (times & st' & es' & Run & _ & Sp & _).
  exists times, st', es'. split; [ exact Run | exact Sp ].
Defined.



(** While follow mode is off, frames and reported positions change
    neither the registry nor the mode. *)
Lemma runFollow_off (fe : FrontEnd) (evs : list FollowEvent)
    (es : EntityCollection) :
  forall st : FollowState,
  followLocation st = false ->
  exists st',
    runFollow fe evs st es = Some ([], st', es) /\ followLocation st' = false.
Proof.
  induction evs as [ | ev evs IH ]; intros st F.
  - exists st. split; [ reflexivity | exact F ].
  - destruct ev as [now carto | longitude latitude]; cbn [runFollow].
    + unfold onFollowTick. rewrite F. cbn [negb mbind option_bind].
      cbn [tickState tickEntities tickRemoval].
      destruct (IH st F) as (st' & Run & F').
      rewrite Run. cbn [mbind option_bind].
      exists st'. split; [ reflexivity | exact F' ].
    + apply IH. exact F.
Qed.



(** * Properties of the squares given in meters *)


